(** * GeminiTelegramBot: session store, mode dispatcher, album coalescer,
      retry policy and text formatter of [googlebot.py]

    A shallow embedding of the dispatcher core of the bot.  Python [str]
    values are sequences of Unicode code points, the per-user
    [context.user_data] dictionary is a record of optional entries (its keys
    are fixed), the process-wide [pending_albums] dictionary is a finite map
    keyed by the media group id, and the collaborators (the generative
    client, the transport, the clock) appear as explicit inputs.  What a
    handler sends is recorded as a list of actions; the wording of the
    replies, logging and the message counters are left out. *)

From Stdlib Require Import ZArith NArith QArith Qround Lqa List Bool String Ascii Lia.
From stdpp Require Import gmap strings list.
Import ListNotations.

Local Open Scope N_scope.

(** ** Python strings *)

(** A [str] is a sequence of code points; [len], indexing and slicing count
    code points. *)
Definition pystr := list N.

Fixpoint utf8_go (bs : list N) (need : nat) (acc : N) : pystr :=
  match bs with
  | [] => []
  | b :: bs' =>
      match need with
      | O =>
          if b <? 128 then b :: utf8_go bs' 0 0
          else if b <? 224 then utf8_go bs' 1 (b - 192)
          else if b <? 240 then utf8_go bs' 2 (b - 224)
          else utf8_go bs' 3 (b - 240)
      | S n =>
          let acc' := acc * 64 + (b - 128) in
          match n with
          | O => acc' :: utf8_go bs' 0 0
          | S _ => utf8_go bs' n acc'
          end
      end
  end.

(** [u "..."] reads a literal of this file (UTF-8) as the code points it
    denotes. *)
Definition u (s : string) : pystr :=
  utf8_go (map N_of_ascii (list_ascii_of_string s)) 0 0.

(** The formatter is followed character by character below: a character
    is anything that carries a code point ([code]) and that the program can
    write from a code point ([lit]).  The program only ever reads [code]; a
    plain code point is a character, and so is a code point that remembers
    where it came from. *)
Class Char (C : Type) := { code : C -> N; lit : N -> C }.

#[global] Instance plain_char : Char N :=
  {| code := fun c => c; lit := fun n => n |}.

Fixpoint str_eqb (a b : pystr) : bool :=
  match a, b with
  | [], [] => true
  | x :: a', y :: b' => (x =? y) && str_eqb a' b'
  | _, _ => false
  end.

(** [x in [k1, k2, ...]] *)
Definition str_in (x : pystr) (l : list pystr) : bool :=
  existsb (str_eqb x) l.

Definition is_empty {A : Type} (s : list A) : bool :=
  match s with [] => true | _ => false end.

Section Strings.

Context {C : Type} `{Char C}.

(** [s.startswith(p)] *)
Fixpoint startswith (s : list C) (p : pystr) : bool :=
  match p, s with
  | [], _ => true
  | y :: p', x :: s' => (code x =? y) && startswith s' p'
  | _ :: _, [] => false
  end.

(** [p in s] for strings *)
Fixpoint contains (s : list C) (p : pystr) : bool :=
  startswith s p ||
  match s with
  | [] => false
  | _ :: s' => contains s' p
  end.

(** [s[i:]] and [s[:n]] for non-negative bounds *)
Definition slice_from (i : nat) (s : list C) : list C := drop i s.
Definition slice_to (n : nat) (s : list C) : list C := take n s.

(** [s.lstrip(chars)], [s.rstrip(chars)], [s.strip(chars)] for the set of
    characters [p] *)
Fixpoint lstrip_set (p : N -> bool) (s : list C) : list C :=
  match s with
  | c :: s' => if p (code c) then lstrip_set p s' else s
  | [] => []
  end.

Definition rstrip_set (p : N -> bool) (s : list C) : list C :=
  rev (lstrip_set p (rev s)).

Definition strip_set (p : N -> bool) (s : list C) : list C :=
  rstrip_set p (lstrip_set p s).

(** [s.replace(old, new)] for a non-empty [old]: non-overlapping
    occurrences, leftmost first.  [skip] counts the characters of an
    occurrence that are still to be dropped. *)
Fixpoint replace_go (old : pystr) (new : list C) (skip : nat) (s : list C)
  : list C :=
  match s with
  | [] => []
  | c :: s' =>
      match skip with
      | S k => replace_go old new k s'
      | O =>
          if startswith s old
          then new ++ replace_go old new (Nat.pred (length old)) s'
          else c :: replace_go old new 0 s'
      end
  end.

Definition replace (old : pystr) (new : list C) (s : list C) : list C :=
  replace_go old new 0 s.

(** [s.split(sep)] for a non-empty [sep]: the pieces between the
    non-overlapping occurrences of [sep], leftmost first; the first element
    of the result is the piece being read. *)
Fixpoint split_go (sep : pystr) (skip : nat) (s : list C) : list (list C) :=
  match s with
  | [] => [[]]
  | c :: s' =>
      match skip with
      | S k => split_go sep k s'
      | O =>
          if startswith s sep
          then [] :: split_go sep (Nat.pred (length sep)) s'
          else match split_go sep 0 s' with
               | piece :: pieces => (c :: piece) :: pieces
               | [] => [[c]]
               end
      end
  end.

Definition split (sep : pystr) (s : list C) : list (list C) :=
  split_go sep 0 s.

(** [sep.join(pieces)] *)
Fixpoint join (sep : list C) (pieces : list (list C)) : list C :=
  match pieces with
  | [] => []
  | [piece] => piece
  | piece :: pieces' => piece ++ sep ++ join sep pieces'
  end.

End Strings.

(** Whitespace as [str.strip()], [str.isspace()] and the pattern [\s] see
    it. *)
Definition is_space (c : N) : bool :=
  ((9 <=? c) && (c <=? 13)) || ((28 <=? c) && (c <=? 32))
  || (c =? 133) || (c =? 160) || (c =? 5760)
  || ((8192 <=? c) && (c <=? 8202))
  || (c =? 8232) || (c =? 8233) || (c =? 8239) || (c =? 8287) || (c =? 12288).

(** [s.lstrip()], [s.rstrip()], [s.strip()] *)
Definition lstrip {C : Type} `{Char C} (s : list C) : list C :=
  lstrip_set is_space s.
Definition rstrip {C : Type} `{Char C} (s : list C) : list C :=
  rstrip_set is_space s.
Definition strip {C : Type} `{Char C} (s : list C) : list C :=
  strip_set is_space s.

Definition NL : N := 10.

(** Timestamps ([time.time()], seconds) and delays are exact rationals. *)
Definition Qgtb (a b : Q) : bool := negb (Qle_bool a b).

(** Lower-casing of the Latin and Cyrillic capitals that occur in the
    bot's command tokens; these letters lower-case independently of their
    context. *)
Definition lower_known (c : N) : option N :=
  if (65 <=? c) && (c <=? 90) then Some (c + 32)
  else if c <? 128 then Some c
  else if (1040 <=? c) && (c <=? 1071) then Some (c + 32)
  else if (1024 <=? c) && (c <=? 1039) then Some (c + 80)
  else if (1072 <=? c) && (c <=? 1119) then Some c
  else None.

(** ** Session store *)

Inductive Tier := pro | flash.

Inductive Mode :=
  | translate | youtube_mode | image_gen
  | awaiting_edit_photo | awaiting_edit_prompt.

Definition image := list Byte.byte.

(** The object returned by [gemini_client.chats.create]: a new object at
    every call ([chat_id] is its identity), configured with the model and
    the system instruction chosen by the model key. *)
Record Chat := { chat_id : nat; chat_model : Tier }.

Record PhotoTask := {
  photos : list image;
  message_id : Z;
  timestamp : Q
}.

Record ActiveImage := { photo_bytes : image; image_timestamp : Q }.

(** [context.user_data]: an absent key is [None]. *)
Record user_data := {
  chat_session : option Chat;
  last_activity : option Q;
  model : option Tier;
  image_model : option Tier;
  mode : option Mode;
  photo_task : option PhotoTask;
  active_image : option ActiveImage
}.

Definition empty_user_data : user_data :=
  {| chat_session := None; last_activity := None; model := None;
     image_model := None; mode := None; photo_task := None;
     active_image := None |}.

Definition set_chat_session (v : option Chat) (d : user_data) : user_data :=
  {| chat_session := v; last_activity := last_activity d; model := model d;
     image_model := image_model d; mode := mode d;
     photo_task := photo_task d; active_image := active_image d |}.

Definition set_last_activity (v : option Q) (d : user_data) : user_data :=
  {| chat_session := chat_session d; last_activity := v; model := model d;
     image_model := image_model d; mode := mode d;
     photo_task := photo_task d; active_image := active_image d |}.

Definition set_model (v : option Tier) (d : user_data) : user_data :=
  {| chat_session := chat_session d; last_activity := last_activity d;
     model := v; image_model := image_model d; mode := mode d;
     photo_task := photo_task d; active_image := active_image d |}.

Definition set_image_model (v : option Tier) (d : user_data) : user_data :=
  {| chat_session := chat_session d; last_activity := last_activity d;
     model := model d; image_model := v; mode := mode d;
     photo_task := photo_task d; active_image := active_image d |}.

Definition set_mode (v : option Mode) (d : user_data) : user_data :=
  {| chat_session := chat_session d; last_activity := last_activity d;
     model := model d; image_model := image_model d; mode := v;
     photo_task := photo_task d; active_image := active_image d |}.

Definition set_photo_task (v : option PhotoTask) (d : user_data) : user_data :=
  {| chat_session := chat_session d; last_activity := last_activity d;
     model := model d; image_model := image_model d; mode := mode d;
     photo_task := v; active_image := active_image d |}.

Definition set_active_image (v : option ActiveImage) (d : user_data) : user_data :=
  {| chat_session := chat_session d; last_activity := last_activity d;
     model := model d; image_model := image_model d; mode := mode d;
     photo_task := photo_task d; active_image := v |}.

Definition MEMORY_TIMEOUT : Q := 5 * 60.
Definition MAX_RETRIES : nat := 2.
Definition PHOTO_BUTTON_TIMEOUT : Q := 180.
Definition IMAGE_CONTEXT_TIMEOUT : Q := 300.
Definition ALBUM_WAIT_TIME : Q := 1.5.
Definition MAX_MESSAGE_LENGTH : nat := 4000.
Definition MAX_ALBUM_PHOTOS : nat := 10.

(** [context.user_data.get('model', 'flash')] *)
Definition get_model_key (d : user_data) : Tier :=
  match model d with Some t => t | None => flash end.

(** [reset_session]: [now] is the reading of [time.time()], [next] the
    identity the client gives to the next chat object it creates.  Returns
    the new dictionary, the client's next identity and the chat. *)
Definition reset_session (now : Q) (next : nat) (d : user_data)
  : user_data * nat * Chat :=
  let model_key := get_model_key d in
  let chat := {| chat_id := next; chat_model := model_key |} in
  let d := set_chat_session (Some chat) d in
  let d := set_last_activity (Some now) d in
  let d := set_mode None d in
  let d := set_active_image None d in
  (d, S next, chat).

(** The reading of [context.user_data.get('last_activity', 0)]. *)
Definition last_seen (d : user_data) : Q :=
  match last_activity d with Some t => t | None => 0%Q end.

(** [get_or_create_session]: [current_time] is the reading at entry,
    [reset_time] the later one taken inside [reset_session]. *)
Definition get_or_create_session (current_time reset_time : Q) (next : nat)
    (d : user_data) : user_data * nat * option Chat :=
  let last_time := last_seen d in
  if match chat_session d with None => true | Some _ => false end
     || Qgtb (current_time - last_time)%Q MEMORY_TIMEOUT
  then
    let '(d', next', _) := reset_session reset_time next d in
    (d', next', chat_session d')
  else
    let d' := set_last_activity (Some current_time) d in
    (d', next, chat_session d').

(** ** Mode dispatcher *)

(** What a handler sends or asks of a collaborator.  [ok] records whether
    the collaborator call returned normally or raised; either way the
    handler catches it and replies. *)
Inductive Action :=
  | ReplyNoAccess
  | ReplyDataLost
  | EditImage (imgs : list image) (prompt : pystr) (key : Tier) (ok : bool)
  | ReplyModeOff (msg : pystr)
  | ReplyAskTranslate
  | TranslateText (txt : pystr) (ok : bool)
  | ReplyAskYoutube
  | SummarizeYoutube (url : pystr) (ok : bool)
  | ReplyModel (t : Tier)
  | ReplyReset (was : option Mode)
  | ReplyAskImage
  | ReplyAskImageModel (t : Tier)
  | GenerateImage (prompt : pystr) (key : Tier) (ok : bool)
  | ReplyAskEditPhoto
  | AnalyzeReplyPhoto (prompt : pystr) (key : Tier) (ok : bool)
  | ReplyThinking
  | ChatWithImage (img : image) (txt : pystr) (key : Tier) (ok : bool)
  | ChatTurn (chat : option Chat) (txt : pystr) (ok : bool)
  | ReplyStarted (t : Tier)
  | ReplyPhotoMissing
  | ReplyButtonExpired
  | AnalyzePhotos (imgs : list image) (key : Tier) (ok : bool)
  | ReplyAskEditPrompt.

(** The incoming update as [handle_message] reads it. *)
Record Message := {
  text : pystr;                (* update.message.text *)
  has_access : bool;           (* check_access(user_id) *)
  chat_private : bool;         (* chat_type == ChatType.PRIVATE *)
  is_reply_to_bot : bool;      (* the replied-to message is the bot's *)
  reply_has_photo : bool       (* reply_to_message and reply_to_message.photo *)
}.

(** What the handler observes of its surroundings during one dispatch. *)
Record Env := {
  bot_username : pystr;        (* context.bot.username, empty when unset *)
  clock : Q;                   (* time.time() read by the handler *)
  later_clock : Q;             (* a later time.time() of the same handler *)
  ai_ok : bool                 (* the collaborator call returns normally *)
}.

(** A helper's verdict ([handled] is its boolean result), the dictionary and
    the client after it ran, and what it sent. *)
Record Outcome := {
  handled : bool;
  data : user_data;
  chats : nat;
  sent : list Action
}.

Definition EXIT_WORDS : list pystr :=
  [u "выход"; u "exit"; u "quit"; u "stop"].

(** [messages.get(current_mode, ...)] of [_process_exit_commands]: the text
    of its reply. *)
Definition mode_off_message (current_mode : Mode) : pystr :=
  match current_mode with
  | translate => u "✅ Режим переводчика выключен."
  | image_gen => u "✅ Режим генерации изображений выключен."
  | youtube_mode => u "✅ Режим YouTube саммари выключен."
  | _ => u "✅ Режим выключен."
  end.

Definition image_key (d : user_data) : Tier :=
  match image_model d with Some t => t | None => pro end.

Section Dispatcher.

(** [str.lower()] on the characters outside [lower_known]: the lower-case
    image of the character at an index of a string (Python takes the Unicode
    case tables and, for a few letters, the surrounding text into account). *)
Variable lower_other : pystr -> nat -> pystr.

Fixpoint lower_go (whole : pystr) (i : nat) (s : pystr) : pystr :=
  match s with
  | [] => []
  | c :: s' =>
      match lower_known c with
      | Some c' => [c']
      | None => lower_other whole i
      end ++ lower_go whole (S i) s'
  end.

(** [s.lower()] *)
Definition lower (s : pystr) : pystr := lower_go s 0 s.

Variable env : Env.

(** [_process_photo_edit_prompt] *)
Definition _process_photo_edit_prompt (m : Message) (next : nat)
    (d : user_data) : Outcome :=
  match mode d with
  | Some awaiting_edit_prompt =>
      match photo_task d with
      | None =>
          {| handled := true; data := set_mode None d; chats := next;
             sent := [ReplyDataLost] |}
      | Some task =>
          let prompt := text m in
          let model_key := image_key d in
          if ai_ok env then
            {| handled := true;
               data := set_photo_task None (set_mode None d);
               chats := next;
               sent := [EditImage (photos task) prompt model_key true] |}
          else
            {| handled := true; data := set_mode None d; chats := next;
               sent := [EditImage (photos task) prompt model_key false] |}
      end
  | _ => {| handled := false; data := d; chats := next; sent := [] |}
  end.

(** [_process_exit_commands] *)
Definition _process_exit_commands (lower_text : pystr) (next : nat)
    (d : user_data) : Outcome :=
  if negb (str_in lower_text EXIT_WORDS) then
    {| handled := false; data := d; chats := next; sent := [] |}
  else
    match mode d with
    | None => {| handled := false; data := d; chats := next; sent := [] |}
    | Some current_mode =>
        {| handled := true; data := set_mode None d; chats := next;
           sent := [ReplyModeOff (mode_off_message current_mode)] |}
    end.

(** [handle_image_generation]: the failure of [generate_image] is caught
    and reported; the dictionary is only read. *)
Definition handle_image_generation (prompt : pystr) (next : nat)
    (d : user_data) : Outcome :=
  {| handled := true; data := d; chats := next;
     sent := [GenerateImage prompt (image_key d) (ai_ok env)] |}.

(** [_process_fast_commands] *)
Definition _process_fast_commands (stripped lower_text : pystr) (next : nat)
    (d : user_data) : Outcome :=
  let done (d' : user_data) (n : nat) (a : list Action) :=
    {| handled := true; data := d'; chats := n; sent := a |} in
  let text_to_translate :=
    if startswith lower_text (u "translate ") then strip (slice_from 10 stripped)
    else if startswith lower_text (u "перевод ") then strip (slice_from 8 stripped)
    else strip (slice_from 3 stripped) in
  let url :=
    if startswith lower_text (u "youtube ") then strip (slice_from 8 stripped)
    else if startswith lower_text (u "ютуб ") then strip (slice_from 5 stripped)
    else strip (slice_from 2 stripped) in
  if str_in lower_text [u "пр"; u "перевод"; u "translate"] then
    done (set_mode (Some translate) d) next [ReplyAskTranslate]
  else if (startswith lower_text (u "пр ") || startswith lower_text (u "перевод ")
           || startswith lower_text (u "translate "))
          && negb (is_empty text_to_translate) then
    done d next [TranslateText text_to_translate (ai_ok env)]
  else if str_in lower_text [u "ю"; u "ютуб"; u "youtube"] then
    done (set_mode (Some youtube_mode) d) next [ReplyAskYoutube]
  else if (startswith lower_text (u "ю ") || startswith lower_text (u "ютуб ")
           || startswith lower_text (u "youtube "))
          && negb (is_empty url) then
    done d next [SummarizeYoutube url (ai_ok env)]
  else if str_in lower_text [u "п"; u "про"; u "pro"] then
    let '(d', n', _) := reset_session (later_clock env) next (set_model (Some pro) d) in
    done d' n' [ReplyModel pro]
  else if str_eqb lower_text (u "ф") then
    let '(d', n', _) := reset_session (later_clock env) next (set_model (Some flash) d) in
    done d' n' [ReplyModel flash]
  else if str_eqb stripped (u ".") then
    let was_in_mode := mode d in
    let '(d', n', _) := reset_session (later_clock env) next d in
    done d' n' [ReplyReset was_in_mode]
  else if str_in lower_text [u "к"; u "картинка"] then
    done (set_mode (Some image_gen) d) next [ReplyAskImage]
  else if str_in lower_text [u "к про"; u "к pro"] then
    done (set_mode (Some image_gen) (set_image_model (Some pro) d)) next
         [ReplyAskImageModel pro]
  else if str_in lower_text [u "к флеш"; u "к flash"] then
    done (set_mode (Some image_gen) (set_image_model (Some flash) d)) next
         [ReplyAskImageModel flash]
  else if startswith lower_text (u "к ") || startswith lower_text (u "картинка ") then
    let prompt :=
      if startswith lower_text (u "картинка ") then strip (slice_from 9 stripped)
      else strip (slice_from 2 stripped) in
    handle_image_generation prompt next d
  else if str_in lower_text [u "р"; u "редактировать"; u "edit"] then
    done (set_mode (Some awaiting_edit_photo) d) next [ReplyAskEditPhoto]
  else
    {| handled := false; data := d; chats := next; sent := [] |}.

(** [_process_reply_to_photo] *)
Definition _process_reply_to_photo (m : Message) (next : nat)
    (d : user_data) : Outcome :=
  if negb (reply_has_photo m) then
    {| handled := false; data := d; chats := next; sent := [] |}
  else
    let prompt :=
      if negb (is_empty (strip (text m))) then strip (text m)
      else u "Опиши подробно что на этом изображении" in
    {| handled := true; data := d; chats := next;
       sent := [AnalyzeReplyPhoto prompt (get_model_key d) (ai_ok env)] |}.

(** [_process_translation_mode]: the mode is popped after the translation
    was sent, inside the [try]; a failure skips the pop. *)
Definition _process_translation_mode (txt : pystr) (next : nat)
    (d : user_data) : Outcome :=
  if ai_ok env then
    {| handled := true; data := set_mode None d; chats := next;
       sent := [TranslateText txt true] |}
  else
    {| handled := true; data := d; chats := next;
       sent := [TranslateText txt false] |}.

(** [_process_youtube_mode] *)
Definition _process_youtube_mode (txt : pystr) (next : nat)
    (d : user_data) : Outcome :=
  {| handled := true; data := d; chats := next;
     sent := [SummarizeYoutube txt (ai_ok env)] |}.

(** [_process_image_gen_mode] *)
Definition _process_image_gen_mode (txt : pystr) (next : nat)
    (d : user_data) : Outcome :=
  handle_image_generation (strip txt) next d.

(** The ordinary conversational turn at the end of [handle_message]. *)
Definition chat_turn (m : Message) (next : nat) (d : user_data) : Outcome :=
  let expired :=
    match active_image d with
    | Some a => Qgtb (clock env - image_timestamp a)%Q IMAGE_CONTEXT_TIMEOUT
    | None => false
    end in
  let d := if expired then set_active_image None d else d in
  let img := if expired then None else active_image d in
  let clean_text :=
    if negb (is_empty (bot_username env))
    then strip (replace (64 :: bot_username env) [] (text m))
    else text m in
  match img with
  | Some a =>
      {| handled := true; data := d; chats := next;
         sent := [ReplyThinking;
                  ChatWithImage (photo_bytes a) clean_text (get_model_key d)
                                (ai_ok env)] |}
  | None =>
      let '(d', next', chat) :=
        get_or_create_session (clock env) (later_clock env) next d in
      {| handled := true; data := d'; chats := next';
         sent := [ReplyThinking; ChatTurn chat clean_text (ai_ok env)] |}
  end.

(** Step 5 of [handle_message], its dispatcher: the helpers in order, the
    first that handles the message ends the dispatch. *)
Definition dispatch (m : Message) (next : nat) (d : user_data) : Outcome :=
  let stripped := strip (text m) in
  let lower_text := lower stripped in
  let r1 := _process_photo_edit_prompt m next d in
  if handled r1 then r1 else
  let r2 := _process_exit_commands lower_text (chats r1) (data r1) in
  if handled r2 then r2 else
  let r3 := _process_fast_commands stripped lower_text (chats r2) (data r2) in
  if handled r3 then r3 else
  let r4 := _process_reply_to_photo m (chats r3) (data r3) in
  if handled r4 then r4 else
  let d4 := data r4 in
  let n4 := chats r4 in
  match mode d4 with
  | Some image_gen => _process_image_gen_mode (text m) n4 (set_mode None d4)
  | Some youtube_mode => _process_youtube_mode (text m) n4 (set_mode None d4)
  | Some translate => _process_translation_mode (text m) n4 d4
  | _ => chat_turn m n4 d4
  end.

(** [handle_message] *)
Definition handle_message (m : Message) (next : nat) (d : user_data)
  : Outcome :=
  let ignore := {| handled := false; data := d; chats := next; sent := [] |} in
  if is_empty (text m) then ignore
  else if negb (has_access m) then
    {| handled := false; data := d; chats := next;
       sent := if chat_private m then [ReplyNoAccess] else [] |}
  else
    let is_mentioned :=
      negb (is_empty (bot_username env)) && contains (text m) (bot_username env) in
    if negb (chat_private m) && negb (is_reply_to_bot m || is_mentioned)
    then ignore
    else dispatch m next d.

(** [start], [set_pro_model] and [set_flash_model] *)
Definition start (access : bool) (next : nat) (d : user_data) : Outcome :=
  if negb access then
    {| handled := true; data := d; chats := next; sent := [ReplyNoAccess] |}
  else
    let '(d', n', _) := reset_session (later_clock env) next d in
    {| handled := true; data := d'; chats := n';
       sent := [ReplyStarted (get_model_key d')] |}.

Definition set_pro_model (access : bool) (next : nat) (d : user_data) : Outcome :=
  if negb access then
    {| handled := true; data := d; chats := next; sent := [ReplyNoAccess] |}
  else
    let '(d', n', _) := reset_session (later_clock env) next (set_model (Some pro) d) in
    {| handled := true; data := d'; chats := n'; sent := [ReplyModel pro] |}.

Definition set_flash_model (access : bool) (next : nat) (d : user_data) : Outcome :=
  if negb access then
    {| handled := true; data := d; chats := next; sent := [ReplyNoAccess] |}
  else
    let '(d', n', _) := reset_session (later_clock env) next (set_model (Some flash) d) in
    {| handled := true; data := d'; chats := n'; sent := [ReplyModel flash] |}.

(** [query.data] of the buttons under a photo *)
Inductive Button := photo_analyze | photo_edit | other_button.

(** [button_callback] *)
Definition button_callback (access : bool) (action : Button) (next : nat)
    (d : user_data) : Outcome :=
  if negb access then
    {| handled := true; data := d; chats := next; sent := [ReplyNoAccess] |}
  else
    match photo_task d with
    | None =>
        {| handled := true; data := d; chats := next;
           sent := [ReplyPhotoMissing] |}
    | Some photo_data =>
        if Qgtb (clock env - timestamp photo_data)%Q PHOTO_BUTTON_TIMEOUT then
          {| handled := true; data := set_photo_task None d; chats := next;
             sent := [ReplyButtonExpired] |}
        else
          let photos_bytes := photos photo_data in
          match action with
          | photo_analyze =>
              match ai_ok env, photos_bytes with
              | true, first :: _ =>
                  {| handled := true;
                     data :=
                       set_photo_task None
                         (set_active_image
                            (Some {| photo_bytes := first;
                                     image_timestamp := later_clock env |}) d);
                     chats := next;
                     sent := [AnalyzePhotos photos_bytes (get_model_key d) true] |}
              | _, _ =>
                  {| handled := true; data := d; chats := next;
                     sent := [AnalyzePhotos photos_bytes (get_model_key d) false] |}
              end
          | photo_edit =>
              {| handled := true;
                 data := set_mode (Some awaiting_edit_prompt) d;
                 chats := next; sent := [ReplyAskEditPrompt] |}
          | other_button =>
              {| handled := true; data := d; chats := next; sent := [] |}
          end
    end.

(** What [handle_message] asks of a message before it dispatches it: a
    text, from a user with access, in a private chat or addressed to the
    bot. *)
Definition admitted (m : Message) : bool :=
  negb (is_empty (text m)) && has_access m
  && (chat_private m
      || is_reply_to_bot m
      || (negb (is_empty (bot_username env))
          && contains (text m) (bot_username env))).

(** The message passes the exit step, the shorthand commands and the
    reply-to-photo step unhandled, so the mode branches see it. *)
Definition reaches_modes (m : Message) (next : nat) (d : user_data) : bool :=
  admitted m
  && negb (str_in (lower (strip (text m))) EXIT_WORDS)
  && negb (handled (_process_fast_commands (strip (text m))
                      (lower (strip (text m))) next d))
  && negb (reply_has_photo m).

End Dispatcher.

(** ** Retry policy of the persistent-conversation send path *)

(** How one call of [chat.send_message] under [asyncio.wait_for] ends. *)
Inductive Attempt :=
  | Responds (response_text : option pystr)   (* a response; its [.text] *)
  | TimesOut                                  (* asyncio.TimeoutError *)
  | Throws (error_str : pystr).               (* any other exception, [str(e)] *)

Inductive SendError :=
  | EmptyResponse        (* RuntimeError("Пустой ответ от API") *)
  | WaitTimeout          (* TimeoutError("Превышено время ожидания ...") *)
  | ApiError (error_str : pystr)
  | NoAttempt.           (* RuntimeError("Пустой ответ от API без ошибки") *)

Inductive SendResult :=
  | Returned (response_text : pystr)
  | Raised (e : SendError).

(** [response and response.text and response.text.strip()] *)
Definition has_text (t : option pystr) : bool :=
  match t with
  | Some s => negb (is_empty s) && negb (is_empty (strip s))
  | None => false
  end.

(** [any(code in error_str for code in ['429', '503', '500'])] *)
Definition is_transient_code (error_str : pystr) : bool :=
  existsb (contains error_str) [u "429"; u "503"; u "500"].

(** What one run of [send_with_retry] did: its result, the arguments of
    [asyncio.sleep] in order (seconds) and the number of calls of
    [chat.send_message]. *)
Record SendTrace := {
  result : SendResult;
  sleeps : list nat;
  calls : nat
}.

(** The loop [for attempt in range(retries + 1)] of [send_with_retry]:
    [chat_send k] is how the call of attempt [k] ends, [left] the number of
    iterations still to run, [slept] the sleeps so far. *)
Fixpoint send_loop (chat_send : nat -> Attempt) (retries : nat)
    (left attempt : nat) (last_error : option SendError) (slept : list nat)
  : SendTrace :=
  match left with
  | O =>
      {| result := match last_error with
                   | None => Raised NoAttempt
                   | Some e => Raised e
                   end;
         sleeps := slept; calls := attempt |}
  | S left' =>
      let stop (r : SendResult) :=
        {| result := r; sleeps := slept; calls := S attempt |} in
      match chat_send attempt with
      | Responds t =>
          if has_text t then
            stop (Returned (match t with Some s => s | None => [] end))
          else if (attempt <? retries)%nat then
            send_loop chat_send retries left' (S attempt) (Some EmptyResponse)
                      (slept ++ [2%nat])
          else stop (Raised EmptyResponse)
      | TimesOut =>
          if (attempt <? retries)%nat then
            send_loop chat_send retries left' (S attempt) (Some WaitTimeout)
                      (slept ++ [2%nat])
          else stop (Raised WaitTimeout)
      | Throws error_str =>
          if is_transient_code error_str && (attempt <? retries)%nat then
            let wait_time := ((attempt + 1) * 3)%nat in
            send_loop chat_send retries left' (S attempt)
                      (Some (ApiError error_str)) (slept ++ [wait_time])
          else stop (Raised (ApiError error_str))
      end
  end.

(** The failures the loop retries: an empty response, a timeout, an
    exception whose text carries one of the status codes. *)
Definition retriable (a : Attempt) : bool :=
  match a with
  | Responds t => negb (has_text t)
  | TimesOut => true
  | Throws error_str => is_transient_code error_str
  end.

(** The pause taken after the failure [a] of attempt [attempt]. *)
Definition backoff (a : Attempt) (attempt : nat) : nat :=
  match a with
  | Throws _ => ((attempt + 1) * 3)%nat
  | _ => 2%nat
  end.

(** What the caller gets when the loop ends with the call [a]. *)
Definition outcome (a : Attempt) : SendResult :=
  match a with
  | Responds t =>
      if has_text t then Returned (match t with Some s => s | None => [] end)
      else Raised EmptyResponse
  | TimesOut => Raised WaitTimeout
  | Throws error_str => Raised (ApiError error_str)
  end.

(** [send_with_retry(chat, text, retries)] *)
Definition send_with_retry (chat_send : nat -> Attempt) (retries : nat)
  : SendTrace :=
  send_loop chat_send retries (retries + 1) 0 None [].

(** ** Chunking *)

(** [[line[i:i + n] for i in range(0, len(line), n)]] for a positive [n];
    [fuel] bounds the number of slices. *)
Fixpoint hard_split (fuel n : nat) (line : pystr) : list pystr :=
  match fuel with
  | O => []
  | S fuel' =>
      match line with
      | [] => []
      | _ :: _ => take n line :: hard_split fuel' n (drop n line)
      end
  end.

(** One round of the loop over the lines of an over-long paragraph; the
    state is [(parts, current_part)].  [None] is the [ValueError] of
    [range(0, len(line), 0)]. *)
Definition add_line (max_length : nat) (st : list pystr * pystr)
    (line : pystr) : option (list pystr * pystr) :=
  let '(parts, current_part) := st in
  if (max_length <? length line)%nat then
    match max_length with
    | O => None
    | S _ =>
        Some (parts ++ hard_split (length line) max_length line, current_part)
    end
  else if (max_length <? length current_part + length line + 1)%nat then
    Some (parts ++ [strip current_part], line ++ [NL])
  else
    Some (parts, current_part ++ line ++ [NL]).

Fixpoint add_lines (max_length : nat) (st : list pystr * pystr)
    (lines : list pystr) : option (list pystr * pystr) :=
  match lines with
  | [] => Some st
  | line :: lines' =>
      match add_line max_length st line with
      | Some st' => add_lines max_length st' lines'
      | None => None
      end
  end.

(** One round of the loop over the paragraphs. *)
Definition add_paragraph (max_length : nat) (st : list pystr * pystr)
    (paragraph : pystr) : option (list pystr * pystr) :=
  let '(parts, current_part) := st in
  if (max_length <? length paragraph)%nat then
    let st1 :=
      if negb (is_empty current_part)
      then (parts ++ [strip current_part], [])
      else (parts, current_part) in
    add_lines max_length st1 (split [NL] paragraph)
  else if (max_length <? length current_part + length paragraph + 2)%nat then
    Some (parts ++ [strip current_part], paragraph ++ [NL; NL])
  else
    Some (parts, current_part ++ paragraph ++ [NL; NL]).

Fixpoint add_paragraphs (max_length : nat) (st : list pystr * pystr)
    (paragraphs : list pystr) : option (list pystr * pystr) :=
  match paragraphs with
  | [] => Some st
  | paragraph :: paragraphs' =>
      match add_paragraph max_length st paragraph with
      | Some st' => add_paragraphs max_length st' paragraphs'
      | None => None
      end
  end.

(** [split_message(text, max_length)] for a non-negative [max_length] *)
Definition split_message (text : pystr) (max_length : nat)
  : option (list pystr) :=
  if is_empty text then Some [[]]
  else if (length text <=? max_length)%nat then Some [text]
  else
    match add_paragraphs max_length ([], []) (split [NL; NL] text) with
    | None => None
    | Some (parts, current_part) =>
        let parts :=
          if negb (is_empty (strip current_part))
          then parts ++ [strip current_part] else parts in
        Some (if negb (is_empty parts) then parts
              else [take max_length text])
    end.

(** Re-joining chunks: between two neighbours goes one of the separators
    the chunker split on, or nothing (inside a hard-split line). *)
Fixpoint rejoin (chunks seps : list pystr) : pystr :=
  match chunks, seps with
  | [], _ => []
  | [chunk], _ => chunk
  | chunk :: chunks', sep :: seps' => chunk ++ sep ++ rejoin chunks' seps'
  | chunk :: chunks', [] => chunk ++ rejoin chunks' []
  end.

Definition reconstructs (text : pystr) (chunks : list pystr) : Prop :=
  exists seps : list pystr,
    Forall (fun sep => In sep [[]; [NL]; [NL; NL]]) seps
    /\ rejoin chunks seps = text.

(** The text without its whitespace. *)
Definition visible (s : pystr) : pystr :=
  List.filter (fun c => negb (is_space c)) s.

(** No line of any paragraph is longer than the limit. *)
Definition lines_fit (text : pystr) (max_length : nat) : Prop :=
  Forall (fun paragraph =>
            Forall (fun line => (length line <= max_length)%nat)
                   (split [NL] paragraph))
         (split [NL; NL] text).

(** Whitespace only. *)
Definition blank (s : pystr) : Prop := Forall (fun c => is_space c = true) s.

(** The chunks in their order with the gaps around them: a gap before the
    first chunk, one between neighbours and one after the last. *)
Fixpoint weave (gaps chunks : list pystr) : pystr :=
  match gaps, chunks with
  | gap :: gaps', chunk :: chunks' => gap ++ chunk ++ weave gaps' chunks'
  | gap :: _, [] => gap
  | [], _ => []
  end.

(** What the chunker writes after a paragraph it has read: a blank line
    after a paragraph that fits, a line break after the last line of one
    that does not. *)
Definition separator_after (max_length : nat) (paragraph : pystr) : pystr :=
  if (max_length <? length paragraph)%nat then [NL] else [NL; NL].

(** The text with every paragraph followed by that separator: the text
    itself and a closing blank line when every paragraph fits, and the text
    with one line break less after each paragraph that does not. *)
Definition separated (max_length : nat) (text : pystr) : pystr :=
  flat_map (fun paragraph => paragraph ++ separator_after max_length paragraph)
           (split [NL; NL] text).

(** The state [(parts, current_part)] of the chunker after it has read
    [done]: the parts lie in [done] in their order, with whitespace before,
    between and after them, and [current_part] is the rest of [done]; as
    long as there is no part, [current_part] is all of [done] and fits. *)
Definition chunked (max_length : nat) (st : list pystr * pystr)
    (done : pystr) : Prop :=
  (exists gaps gap,
      length gaps = length (fst st) /\ Forall blank gaps /\ blank gap
      /\ weave (gaps ++ [gap]) (fst st) ++ snd st = done)
  /\ (fst st = [] -> snd st = done /\ (length done <= max_length)%nat).

(** ** Album coalescer *)

(** An entry of [pending_albums]. *)
Record Album := {
  album_photos : list image;
  album_caption : pystr;
  album_user_id : Z;
  album_chat_id : Z;
  album_message_id : Z;
  album_timestamp : Q
}.

(** One message of a media group, once its photo is downloaded. *)
Record Fragment := {
  media_group_id : string;
  photo : image;
  caption : pystr;               (* update.message.caption or "" *)
  user_id : Z;
  chat_id_of : Z;
  fragment_message_id : Z
}.

(** The process: the buffer, the [process_album_delayed] tasks created and
    not yet woken (wake-up time and group id, in creation order), and the
    albums handed on by the flushes so far, in order. *)
Record Coalescer := {
  pending_albums : gmap string Album;
  tasks : list (Q * string);
  flushed : list (string * Album)
}.

Definition append_photo (p : image) (a : Album) : Album :=
  {| album_photos := album_photos a ++ [p]; album_caption := album_caption a;
     album_user_id := album_user_id a; album_chat_id := album_chat_id a;
     album_message_id := album_message_id a;
     album_timestamp := album_timestamp a |}.

Definition set_caption (c : pystr) (a : Album) : Album :=
  {| album_photos := album_photos a; album_caption := c;
     album_user_id := album_user_id a; album_chat_id := album_chat_id a;
     album_message_id := album_message_id a;
     album_timestamp := album_timestamp a |}.

(** The media-group branch of [handle_photo], from the membership test on,
    run at time [now]. *)
Definition handle_photo (now : Q) (f : Fragment) (st : Coalescer) : Coalescer :=
  match pending_albums st !! media_group_id f with
  | None =>
      {| pending_albums :=
           <[media_group_id f :=
               {| album_photos := [photo f]; album_caption := caption f;
                  album_user_id := user_id f; album_chat_id := chat_id_of f;
                  album_message_id := fragment_message_id f;
                  album_timestamp := now |}]> (pending_albums st);
         tasks := tasks st ++ [((now + ALBUM_WAIT_TIME)%Q, media_group_id f)];
         flushed := flushed st |}
  | Some a =>
      let a :=
        if (length (album_photos a) <? MAX_ALBUM_PHOTOS)%nat
        then append_photo (photo f) a else a in
      let a :=
        if is_empty (album_caption a) && negb (is_empty (caption f))
        then set_caption (caption f) a else a in
      {| pending_albums := <[media_group_id f := a]> (pending_albums st);
         tasks := tasks st; flushed := flushed st |}
  end.

(** [process_album_delayed] once its sleep is over: a missing group is a
    plain return; otherwise the entry is popped and handed on (the rest of
    the function routes [album_data] by the mode current at that time). *)
Definition process_album_delayed (group : string) (st : Coalescer) : Coalescer :=
  match pending_albums st !! group with
  | None => st
  | Some album_data =>
      {| pending_albums := delete group (pending_albums st);
         tasks := tasks st;
         flushed := flushed st ++ [(group, album_data)] |}
  end.

(** The event loop wakes the tasks whose sleep is over at time [now], in
    creation order. *)
Fixpoint wake (now : Q) (ts : list (Q * string)) (st : Coalescer) : Coalescer :=
  match ts with
  | [] => {| pending_albums := pending_albums st; tasks := [];
             flushed := flushed st |}
  | (due, group) :: ts' =>
      if Qle_bool due now then
        wake now ts' (process_album_delayed group st)
      else
        let st' := wake now ts' st in
        {| pending_albums := pending_albums st'; tasks := (due, group) :: tasks st';
           flushed := flushed st' |}
  end.

Definition run_until (now : Q) (st : Coalescer) : Coalescer :=
  wake now (tasks st) st.

(** A fragment whose handler reaches the buffer at time [now]. *)
Definition arrive (now : Q) (f : Fragment) (st : Coalescer) : Coalescer :=
  handle_photo now f (run_until now st).

Definition idle : Coalescer :=
  {| pending_albums := ∅; tasks := []; flushed := [] |}.

(** The flushes of a group and the sleeping tasks of a group. *)
Definition for_group (g : string) (l : list (string * Album))
  : list (string * Album) :=
  filter (fun x => fst x = g) l.

Definition tasks_of (g : string) (ts : list (Q * string)) : list (Q * string) :=
  filter (fun x => snd x = g) ts.

(** ** Regular expressions *)

(** The fragment of Python's [re] syntax that the formatter uses.  A
    character class is a predicate on code points. *)
Inductive regex :=
  | Eps
  | Chr (p : N -> bool)                 (* a literal, a class, [.] *)
  | Seq (a b : regex)
  | Alt (a b : regex)                   (* a|b: a is tried first *)
  | Star (greedy : bool) (a : regex)    (* a* and a*?; a consumes input *)
  | Group (n : nat) (a : regex)         (* capturing group number n *)
  | Backref (n : nat)                   (* \n *)
  | Bol                                 (* ^ under re.MULTILINE *)
  | Eol                                 (* $ under re.MULTILINE *)
  | NotAhead (p : N -> bool)            (* (?!c) for one character *)
  | NotBehind (p : N -> bool).          (* (?<!c) for one character *)

Definition Plus (a : regex) : regex := Seq a (Star true a).
Definition Opt (a : regex) : regex := Alt a Eps.

Fixpoint Lit (l : pystr) : regex :=
  match l with
  | [] => Eps
  | c :: l' => Seq (Chr (N.eqb c)) (Lit l')
  end.

(** [a{1,n+1}], greedy *)
Fixpoint UpTo (n : nat) (a : regex) : regex :=
  match n with
  | O => a
  | S n' => Seq a (Opt (UpTo n' a))
  end.

Definition is_char (c : N) : N -> bool := N.eqb c.
Definition not_char (c : N) : N -> bool := fun x => negb (x =? c).
Definition not_chars (c d : N) : N -> bool :=
  fun x => negb (x =? c) && negb (x =? d).
Definition any_char : N -> bool := fun _ => true.        (* [\s\S] *)
Definition dot : N -> bool := not_char NL.               (* . *)

(** The spans of the groups matched so far, latest first. *)
Definition captures := list (nat * (nat * nat)).

Fixpoint cap_get (n : nat) (caps : captures) : option (nat * nat) :=
  match caps with
  | [] => None
  | (k, span) :: caps' => if (k =? n)%nat then Some span else cap_get n caps'
  end.

Section Regex.

Context {C : Type} `{Char C}.

(** [s[a:b]] *)
Definition slice (s : list C) (a b : nat) : list C := take (b - a) (drop a s).

Fixpoint same_codes (a b : list C) : bool :=
  match a, b with
  | [], [] => true
  | x :: a', y :: b' => (code x =? code y) && same_codes a' b'
  | _, _ => false
  end.

End Regex.

(** What a match attempt returns: the end index and the captures. *)
Definition matched := option (nat * captures).

(** Zero or more rounds of [body], each of which must consume input;
    [fuel] bounds the number of rounds (one more than the characters
    left).  Greedy: another round first, then the continuation; lazy: the
    other way round. *)
Fixpoint star_loop (body : nat -> captures -> (nat -> captures -> matched) -> matched)
    (greedy : bool) (k : nat -> captures -> matched)
    (fuel : nat) (i : nat) (caps : captures) : matched :=
  match fuel with
  | O => k i caps
  | S fuel' =>
      let again :=
        body i caps
             (fun j caps' =>
                if (i <? j)%nat then star_loop body greedy k fuel' j caps'
                else None) in
      if greedy then
        match again with
        | Some res => Some res
        | None => k i caps
        end
      else
        match k i caps with
        | Some res => Some res
        | None => again
        end
  end.

Section Matcher.

Context {C : Type} `{Char C}.

(** The backtracking matcher, in continuation-passing style: [mexec r s i
    caps k] matches [r] in [s] from index [i] and hands the end index and
    the captures to [k]; when [k] fails the next alternative of [r] is
    tried, in the order of Python's engine. *)
Fixpoint mexec (r : regex) (s : list C) (i : nat) (caps : captures)
    (k : nat -> captures -> matched) {struct r} : matched :=
  match r with
  | Eps => k i caps
  | Chr p =>
      match s !! i with
      | Some c => if p (code c) then k (S i) caps else None
      | None => None
      end
  | Seq a b => mexec a s i caps (fun j caps' => mexec b s j caps' k)
  | Alt a b =>
      match mexec a s i caps k with
      | Some res => Some res
      | None => mexec b s i caps k
      end
  | Star greedy a =>
      star_loop (fun i' caps' k' => mexec a s i' caps' k') greedy k
                (S (length s - i)) i caps
  | Group n a => mexec a s i caps (fun j caps' => k j ((n, (i, j)) :: caps'))
  | Backref n =>
      match cap_get n caps with
      | Some (a, b) =>
          if same_codes (slice s a b) (slice s i (i + (b - a)))
          then k (i + (b - a))%nat caps else None
      | None => None
      end
  | Bol =>
      match i with
      | O => k i caps
      | S i' =>
          match s !! i' with
          | Some c => if code c =? NL then k i caps else None
          | None => None
          end
      end
  | Eol =>
      match s !! i with
      | Some c => if code c =? NL then k i caps else None
      | None => if (i =? length s)%nat then k i caps else None
      end
  | NotAhead p =>
      match s !! i with
      | Some c => if p (code c) then None else k i caps
      | None => k i caps
      end
  | NotBehind p =>
      match i with
      | O => k i caps
      | S i' =>
          match s !! i' with
          | Some c => if p (code c) then None else k i caps
          | None => k i caps
          end
      end
  end.

(** A match: where it starts, where it ends, the captures. *)
Definition found := (nat * nat * captures)%type.

(** [pattern.match(s, pos)] *)
Definition match_at (r : regex) (s : list C) (pos : nat) : option found :=
  match mexec r s pos [] (fun j caps => Some (j, caps)) with
  | Some (j, caps) => Some (pos, j, caps)
  | None => None
  end.

(** [re.fullmatch(pattern, s)] *)
Definition fullmatch (r : regex) (s : list C) : bool :=
  match mexec r s 0 []
              (fun j caps => if (j =? length s)%nat then Some (j, caps) else None)
  with
  | Some _ => true
  | None => false
  end.

(** [pattern.search(s, pos)]: the leftmost start at or after [pos]. *)
Fixpoint search_go (fuel : nat) (r : regex) (s : list C) (pos : nat)
  : option found :=
  match match_at r s pos with
  | Some f => Some f
  | None =>
      match fuel with
      | O => None
      | S fuel' => search_go fuel' r s (S pos)
      end
  end.

Definition search (r : regex) (s : list C) (pos : nat) : option found :=
  if (pos <=? length s)%nat then search_go (length s - pos) r s pos else None.

(** [m.group(n)]; group 0 is the whole match. *)
Definition group (s : list C) (f : found) (n : nat) : list C :=
  let '(i, j, caps) := f in
  match n with
  | O => slice s i j
  | S _ =>
      match cap_get n caps with
      | Some (a, b) => slice s a b
      | None => []
      end
  end.

(** [re.sub(pattern, repl, s)] with a function [repl] that may keep a
    state of its own.  After an empty match the next character is copied
    and the scan moves on. *)
Fixpoint sub_go {St : Type} (fuel : nat) (r : regex)
    (repl : St -> found -> St * list C) (s : list C) (pos : nat) (st : St)
  : St * list C :=
  match search r s pos with
  | None => (st, drop pos s)
  | Some (i, j, caps) =>
      let '(st', out) := repl st (i, j, caps) in
      match fuel with
      | O => (st', slice s pos i ++ out ++ drop j s)
      | S fuel' =>
          if (i <? j)%nat then
            let '(st'', rest) := sub_go fuel' r repl s j st' in
            (st'', slice s pos i ++ out ++ rest)
          else
            let '(st'', rest) := sub_go fuel' r repl s (S i) st' in
            (st'', slice s pos i ++ out ++ slice s i (S i) ++ rest)
      end
  end.

Definition sub_with {St : Type} (r : regex)
    (repl : St -> found -> St * list C) (s : list C) (st : St)
  : St * list C :=
  sub_go (length s) r repl s 0 st.

(** [re.sub(pattern, repl, s)] for a function or a template without
    state. *)
Definition sub (r : regex) (repl : list C -> found -> list C) (s : list C)
  : list C :=
  snd (sub_with r (fun (_ : unit) f => (tt, repl s f)) s tt).

(** [re.split(pattern, s)] for a pattern that is one capturing group: the
    pieces between the matches alternate with the matched delimiters. *)
Fixpoint split_re_go (fuel : nat) (r : regex) (s : list C) (pos : nat)
  : list (list C) :=
  match search r s pos with
  | None => [drop pos s]
  | Some (i, j, caps) =>
      match fuel with
      | O => [drop pos s]
      | S fuel' =>
          if (i <? j)%nat then
            slice s pos i :: group s (i, j, caps) 1 :: split_re_go fuel' r s j
          else [drop pos s]
      end
  end.

Definition split_re (r : regex) (s : list C) : list (list C) :=
  split_re_go (length s) r s 0.

End Matcher.

(** The matches the matcher can report, without their order: [matches s r
    i caps j caps'] says that [r] can take [s] from index [i] to index [j]
    and the captures from [caps] to [caps'].  Look-arounds, anchors and
    back-references are left unconstrained. *)
Inductive matches {C : Type} `{Char C} (s : list C)
  : regex -> nat -> captures -> nat -> captures -> Prop :=
  | M_eps i caps : matches s Eps i caps i caps
  | M_chr p i caps c :
      s !! i = Some c -> p (code c) = true ->
      matches s (Chr p) i caps (S i) caps
  | M_seq a b i caps j caps' l caps'' :
      matches s a i caps j caps' -> matches s b j caps' l caps'' ->
      matches s (Seq a b) i caps l caps''
  | M_alt_l a b i caps j caps' :
      matches s a i caps j caps' -> matches s (Alt a b) i caps j caps'
  | M_alt_r a b i caps j caps' :
      matches s b i caps j caps' -> matches s (Alt a b) i caps j caps'
  | M_star_stop g a i caps : matches s (Star g a) i caps i caps
  | M_star_more g a i caps j caps' l caps'' :
      matches s a i caps j caps' -> matches s (Star g a) j caps' l caps'' ->
      matches s (Star g a) i caps l caps''
  | M_group n a i caps j caps' :
      matches s a i caps j caps' ->
      matches s (Group n a) i caps j ((n, (i, j)) :: caps')
  | M_backref n i caps j : matches s (Backref n) i caps j caps
  | M_bol i caps : matches s Bol i caps i caps
  | M_eol i caps : matches s Eol i caps i caps
  | M_not_ahead p i caps : matches s (NotAhead p) i caps i caps
  | M_not_behind p i caps : matches s (NotBehind p) i caps i caps.

(** ** Text formatter *)

Definition QUOTE : N := 34.

(** Line boundaries of [str.splitlines()]. *)
Definition is_linebreak (c : N) : bool :=
  ((10 <=? c) && (c <=? 13)) || ((28 <=? c) && (c <=? 30))
  || (c =? 133) || (c =? 8232) || (c =? 8233).

(** [str(n)] for a natural number *)
Fixpoint digits_go (fuel n : nat) (acc : pystr) : pystr :=
  match fuel with
  | O => acc
  | S fuel' =>
      let acc' := (48 + N.of_nat (n mod 10)) :: acc in
      if (n <? 10)%nat then acc' else digits_go fuel' (n / 10) acc'
  end.

Definition str_of_nat (n : nat) : pystr := digits_go (S n) n [].

Section Formatter.

Context {C : Type} `{Char C}.

(** The word characters of [\w] beyond ASCII (Unicode alphanumerics). *)
Variable unicode_word : N -> bool.

Definition is_word (c : N) : bool :=
  if c <? 128 then
    ((48 <=? c) && (c <=? 57)) || ((65 <=? c) && (c <=? 90))
    || ((97 <=? c) && (c <=? 122)) || (c =? 95)
  else unicode_word c.

(** Text that the formatter writes itself. *)
Definition w (s : string) : list C := map lit (u s).

(** [s.splitlines()]; [after_cr] tells that the line before ended in a
    carriage return, which takes a following line feed with it. *)
Fixpoint splitlines_go (after_cr : bool) (s : list C) : list (list C) :=
  match s with
  | [] => []
  | c :: s' =>
      if after_cr && (code c =? 10) then splitlines_go false s'
      else if is_linebreak (code c) then [] :: splitlines_go (code c =? 13) s'
      else
        match splitlines_go false s' with
        | line :: lines => (c :: line) :: lines
        | [] => [[c]]
        end
  end.

Definition splitlines (s : list C) : list (list C) := splitlines_go false s.

(** [s.ljust(width)] *)
Definition ljust (width : nat) (s : list C) : list C :=
  s ++ repeat (lit 32) (width - length s).

(** [escape_html] *)
Definition escape_html (text : list C) : list C :=
  replace (u ">") (w "&gt;")
    (replace (u "<") (w "&lt;") (replace (u "&") (w "&amp;") text)).

(** The patterns of [format_for_telegram], each under its source text
    (written with blanks between its parts). *)

(* (?: ^ \| .+ \| $ \n? )+ *)
Definition table_pattern : regex :=
  Plus (Seq Bol (Seq (Chr (is_char 124)) (Seq (Plus (Chr dot))
          (Seq (Chr (is_char 124)) (Seq Eol (Opt (Chr (is_char NL)))))))).

(* ( \*\* | __ ) ( .*? ) \1 *)
Definition strong_mark : regex :=
  Seq (Group 1 (Alt (Lit (u "**")) (Lit (u "__"))))
      (Seq (Group 2 (Star false (Chr dot))) (Backref 1)).

(* ( \* | _ ) ( .*? ) \1 *)
Definition emph_mark : regex :=
  Seq (Group 1 (Alt (Chr (is_char 42)) (Chr (is_char 95))))
      (Seq (Group 2 (Star false (Chr dot))) (Backref 1)).

(* \s+ *)
Definition spaces : regex := Plus (Chr is_space).

(* :? -+ :? *)
Definition rule_cell : regex :=
  Seq (Opt (Chr (is_char 58)))
      (Seq (Plus (Chr (is_char 45))) (Opt (Chr (is_char 58)))).

(* ( ``` [\s\S]*? ``` | ` [^`\n]+ ` ) *)
Definition code_span : regex :=
  Group 1 (Alt (Seq (Lit (u "```"))
                    (Seq (Star false (Chr any_char)) (Lit (u "```"))))
               (Seq (Chr (is_char 96))
                    (Seq (Plus (Chr (not_chars 96 NL))) (Chr (is_char 96))))).

(* ``` ( \w* ) \n? ( [\s\S]*? ) ``` *)
Definition code_block : regex :=
  Seq (Lit (u "```"))
      (Seq (Group 1 (Star true (Chr is_word)))
           (Seq (Opt (Chr (is_char NL)))
                (Seq (Group 2 (Star false (Chr any_char))) (Lit (u "```"))))).

(* ^ \s* #{1,6} \s+ ( .*? ) \s* $ *)
Definition heading : regex :=
  Seq Bol (Seq (Star true (Chr is_space))
    (Seq (UpTo 5 (Chr (is_char 35)))
      (Seq (Plus (Chr is_space))
        (Seq (Group 1 (Star false (Chr dot)))
          (Seq (Star true (Chr is_space)) Eol))))).

(* \*\* ( [^*]+ (?: \* (?! \* ) [^*]* )* ) \*\* *)
Definition bold : regex :=
  Seq (Lit (u "**"))
      (Seq (Group 1
              (Seq (Plus (Chr (not_char 42)))
                   (Star true (Seq (Chr (is_char 42))
                                   (Seq (NotAhead (is_char 42))
                                        (Star true (Chr (not_char 42))))))))
           (Lit (u "**"))).

(* (?<! d ) d ( [^d\n]+ ) d (?! d ) for the delimiter d *)
Definition italic (d : N) : regex :=
  Seq (NotBehind (is_char d))
      (Seq (Chr (is_char d))
           (Seq (Group 1 (Plus (Chr (not_chars d NL))))
                (Seq (Chr (is_char d)) (NotAhead (is_char d))))).

(* ~~ ( .*? ) ~~ *)
Definition strike : regex :=
  Seq (Lit (u "~~")) (Seq (Group 1 (Star false (Chr dot))) (Lit (u "~~"))).

(* ^ \s* [\*\-] \s+ *)
Definition bullet : regex :=
  Seq Bol (Seq (Star true (Chr is_space))
    (Seq (Chr (fun c => (c =? 42) || (c =? 45))) (Plus (Chr is_space)))).

(* \[ ( [^\]]+ ) \] \( ( [^)]+ ) \) *)
Definition link : regex :=
  Seq (Chr (is_char 91))
      (Seq (Group 1 (Plus (Chr (not_char 93))))
           (Seq (Chr (is_char 93))
                (Seq (Chr (is_char 40))
                     (Seq (Group 2 (Plus (Chr (not_char 41))))
                          (Chr (is_char 41)))))).

(** [normalize_cell] of [wrap_table] *)
Definition normalize_cell (value : list C) : list C :=
  let value := sub strong_mark (fun s f => group s f 2) value in
  let value := sub emph_mark (fun s f => group s f 2) value in
  let value := replace (u "`") [] value in
  strip (sub spaces (fun _ _ => w " ") value).

(** The rows of a table: the cells of every line that is not a rule. *)
Fixpoint table_rows (lines : list (list C)) : list (list (list C)) :=
  match lines with
  | [] => []
  | line :: lines' =>
      let parts :=
        map normalize_cell
            (split (u "|") (strip_set (is_char 124) (strip line))) in
      if forallb (fullmatch rule_cell) parts then table_rows lines'
      else parts :: table_rows lines'
  end.

(** [row.extend([""] * (cols_count - len(row)))] *)
Definition pad_row (cols_count : nat) (row : list (list C)) : list (list C) :=
  row ++ repeat [] (cols_count - length row).

(** [widths] after the loop over the padded rows *)
Definition column_widths (cols_count : nat) (rows : list (list (list C)))
  : list nat :=
  map (fun idx =>
         fold_left (fun acc row => Nat.max acc (length (nth idx row [])))
                   rows 0%nat)
      (seq 0 cols_count).

Fixpoint padded_cells (widths : list nat) (row : list (list C))
  : list (list C) :=
  match row, widths with
  | cell :: row', width :: widths' =>
      escape_html (ljust width cell) :: padded_cells widths' row'
  | _, _ => []
  end.

Definition placeholder (n : nat) : pystr :=
  u "%%TABLEBLOCK" ++ str_of_nat n ++ u "%%".

(** The block that [wrap_table] builds from a table with rows: the cells
    of every column padded to the widest, the rows joined by newlines. *)
Definition table_block (rows : list (list (list C))) : list C :=
  let cols_count := fold_left Nat.max (map (@length _) rows) 0%nat in
  let rows := map (pad_row cols_count) rows in
  let widths := column_widths cols_count rows in
  let aligned_lines :=
    map (fun row => join (w " | ") (padded_cells widths row)) rows in
  let joined_lines := join [lit NL] aligned_lines in
  w "<pre>" ++ joined_lines ++ w "</pre>".

(** [wrap_table]; the state is the list [table_blocks]. *)
Definition wrap_table (text : list C) (table_blocks : list (list C))
    (f : found) : list (list C) * list C :=
  let table := strip_set (is_char NL) (group text f 0) in
  let lines :=
    List.filter (fun line => negb (is_empty (strip line))) (splitlines table) in
  let rows := table_rows lines in
  let mark := map lit (placeholder (length table_blocks)) in
  if is_empty rows then (table_blocks ++ [w "<pre></pre>"], mark)
  else (table_blocks ++ [table_block rows], mark).

(** A code span, [parts[i]] for an odd [i]. *)
Definition format_code (part : list C) : list C :=
  if startswith part (u "```") then
    match match_at code_block part 0 with
    | Some code_match =>
        let lang := group part code_match 1 in
        let code := escape_html (rstrip (group part code_match 2)) in
        if negb (is_empty lang) then
          w "<pre><code class=" ++ [lit QUOTE] ++ w "language-" ++ lang
            ++ [lit QUOTE] ++ w ">" ++ code ++ w "</code></pre>"
        else w "<pre>" ++ code ++ w "</pre>"
    | None =>
        w "<pre>" ++ escape_html (slice part 3 (length part - 3)) ++ w "</pre>"
    end
  else
    let code := escape_html (slice part 1 (length part - 1)) in
    w "<code>" ++ code ++ w "</code>".

(** [replace_link] *)
Definition replace_link (s : list C) (f : found) : list C :=
  let link_text := group s f 1 in
  let url := replace [QUOTE] (w "&quot;") (group s f 2) in
  w "<a href=" ++ [lit QUOTE] ++ url ++ [lit QUOTE] ++ w ">" ++ link_text
    ++ w "</a>".

(** Ordinary text between code spans, [parts[i]] for an even [i]. *)
Definition format_text (part : list C) : list C :=
  let fragment := escape_html part in
  let fragment :=
    sub heading
        (fun s f => w "<b>" ++ group s f 1 ++ w "</b>" ++ [lit NL]) fragment in
  let fragment :=
    sub bold (fun s f => w "<b>" ++ group s f 1 ++ w "</b>") fragment in
  let fragment :=
    sub (italic 42) (fun s f => w "<i>" ++ group s f 1 ++ w "</i>") fragment in
  let fragment :=
    sub (italic 95) (fun s f => w "<i>" ++ group s f 1 ++ w "</i>") fragment in
  let fragment :=
    sub strike (fun s f => w "<s>" ++ group s f 1 ++ w "</s>") fragment in
  let fragment := sub bullet (fun _ _ => map lit [8226; 32]) fragment in
  sub link replace_link fragment.

(** The loop over [enumerate(parts)]; [odd] is [i % 2 == 1]. *)
Fixpoint format_parts (odd : bool) (parts : list (list C)) : list (list C) :=
  match parts with
  | [] => []
  | part :: parts' =>
      (if odd then format_code part else format_text part)
        :: format_parts (negb odd) parts'
  end.

(** The loop that puts the table blocks back. *)
Fixpoint restore_tables (i : nat) (table_blocks : list (list C))
    (result_text : list C) : list C :=
  match table_blocks with
  | [] => result_text
  | block :: table_blocks' =>
      restore_tables (S i) table_blocks'
                     (replace (placeholder i) block result_text)
  end.

(** [format_for_telegram] *)
Definition format_for_telegram (text : list C) : list C :=
  if is_empty text then []
  else
    let '(table_blocks, text) :=
      sub_with table_pattern (wrap_table text) text [] in
    let parts := split_re code_span text in
    let result_text := concat (format_parts false parts) in
    restore_tables 0 table_blocks result_text.

End Formatter.

(** A character that remembers whether it came with the input or was
    written by the formatter. *)
Inductive Origin := FromInput | Written.

Record marked := { m_code : N; m_origin : Origin }.

#[global] Instance marked_char : Char marked :=
  {| code := m_code;
     lit := fun n => {| m_code := n; m_origin := Written |} |}.

Definition from_input (text : pystr) : list marked :=
  map (fun c => {| m_code := c; m_origin := FromInput |}) text.

Definition is_angle (c : N) : bool := (c =? 60) || (c =? 62).

(** An angle bracket of the output is harmless when the formatter wrote
    it. *)
Definition harmless (c : marked) : Prop :=
  is_angle (m_code c) = true -> m_origin c = Written.

(** ** Sample inputs *)

Definition fragment (g : string) (b : Byte.byte) (msg : Z) : Fragment :=
  {| media_group_id := g; photo := [b]; caption := []; user_id := 1;
     chat_id_of := 1; fragment_message_id := msg |}.

Definition stale_session : user_data :=
  set_last_activity (Some 0%Q)
    (set_chat_session (Some {| chat_id := 0; chat_model := flash |})
       empty_user_data).

Definition env_at (t : Q) (ok : bool) : Env :=
  {| bot_username := []; clock := t; later_clock := t; ai_ok := ok |}.

Definition private_text (s : pystr) : Message :=
  {| text := s; has_access := true; chat_private := true;
     is_reply_to_bot := false; reply_has_photo := false |}.

(** A stand-in for the case tables: every other character is its own
    lower case. *)
Definition keep_case : pystr -> nat -> pystr :=
  fun whole i => take 1 (drop i whole).

Definition sample_task : PhotoTask :=
  {| photos := [[Byte.x89; Byte.x50]]; message_id := 7; timestamp := 0 |}.

Definition awaiting_prompt : user_data :=
  set_photo_task (Some sample_task)
    (set_mode (Some awaiting_edit_prompt) empty_user_data).

Definition in_mode (mo : Mode) : user_data := set_mode (Some mo) empty_user_data.

(** * Further parts of [googlebot.py]

    The error log and the activity log, the allowed users, the error
    messages, the reader of YouTube links and the photo handlers outside the
    album buffer, embedded like the parts above, and the invariants and the
    runs that the further properties speak of. *)

(** ** Invariants of the session store *)

(** The chat stored in the dictionary, if any, is one the client created
    before: its identity is below the identity of the next chat. *)
Definition known_chat (next : nat) (d : user_data) : Prop :=
  match chat_session d with
  | Some c => (chat_id c < next)%nat
  | None => True
  end.

(** A helper's outcome keeps [known_chat] and never takes a chat identity
    back. *)
Definition keeps_known_chat (next : nat) (r : Outcome) : Prop :=
  known_chat (chats r) (data r) /\ (next <= chats r)%nat.

(** ** Runs of the album coalescer *)

(** What happens to the process: a fragment reaches the buffer, or time
    passes and the event loop runs the tasks whose sleep is over. *)
Inductive Event :=
  | Arrives (now : Q) (f : Fragment)
  | Passes (now : Q).

Definition event_time (e : Event) : Q :=
  match e with Arrives now _ => now | Passes now => now end.

Definition step (st : Coalescer) (e : Event) : Coalescer :=
  match e with
  | Arrives now f => arrive now f st
  | Passes now => run_until now st
  end.

Definition run (events : list Event) (st : Coalescer) : Coalescer :=
  fold_left step events st.

(** An album holds at least one photo and at most [MAX_ALBUM_PHOTOS]. *)
Definition album_ok (a : Album) : Prop :=
  (1 <= length (album_photos a) <= MAX_ALBUM_PHOTOS)%nat.

(** Every buffered album has exactly one task asleep, due one quiet period
    after the album was opened; a group without a buffer has none; and
    every album, buffered or handed on, has a legal number of photos. *)
Definition well_formed (st : Coalescer) : Prop :=
  (forall g,
     match pending_albums st !! g with
     | Some a =>
         album_ok a
         /\ tasks_of g (tasks st)
            = [((album_timestamp a + ALBUM_WAIT_TIME)%Q, g)]
     | None => tasks_of g (tasks st) = []
     end)
  /\ Forall (fun x => album_ok (snd x)) (flushed st).

(** The photos and the captions that the fragments of a group bring, in
    the order of the events. *)
Definition group_photos (g : string) (events : list Event) : list image :=
  flat_map (fun e =>
              match e with
              | Arrives _ f =>
                  if decide (media_group_id f = g) then [photo f] else []
              | Passes _ => []
              end) events.

Definition group_captions (g : string) (events : list Event) : list pystr :=
  flat_map (fun e =>
              match e with
              | Arrives _ f =>
                  if decide (media_group_id f = g) then [caption f] else []
              | Passes _ => []
              end) events.

(** The first caption that is not empty, or the empty one. *)
Fixpoint first_caption (captions : list pystr) : pystr :=
  match captions with
  | [] => []
  | c :: captions' => if is_empty c then first_caption captions' else c
  end.

(** ** Escaping, character by character *)

(** What [escape_html] is meant to do to one character of a plain
    string. *)
Definition escape_char (c : N) : pystr :=
  if c =? 38 then u "&amp;"
  else if c =? 60 then u "&lt;"
  else if c =? 62 then u "&gt;"
  else [c].

(** The characters that mean something to [format_for_telegram]: the three
    that are escaped and the ones that open a table, a code span, a
    heading, an emphasis, a strike-through, a bullet or a link. *)
Definition is_markup (c : N) : bool :=
  existsb (N.eqb c) [38; 60; 62; 124; 96; 35; 42; 95; 126; 45; 91].


(** Every match of the pattern takes a character of the class [Q]. *)
Fixpoint requires (Q : N -> Prop) (r : regex) : Prop :=
  match r with
  | Chr p => forall c, p c = true -> Q c
  | Seq a b => requires Q a \/ requires Q b
  | Alt a b => requires Q a /\ requires Q b
  | Group _ a => requires Q a
  | _ => False
  end.

(** ** Error log *)

(** An entry of [bot_stats['last_errors']]. *)
Record ErrorEntry := {
  entry_time : pystr;          (* time.strftime('%d.%m %H:%M') *)
  entry_type : pystr;
  entry_msg : pystr;
  entry_user : option Z
}.

(** [bot_stats] *)
Record bot_stats := {
  start_time : Q;
  messages_count : nat;
  voice_count : nat;
  errors_count : nat;
  last_errors : list ErrorEntry
}.

(** [log_error(error_type, error_msg, user_id)]; [time_text] is what
    [time.strftime] returns at the call. *)
Definition log_error (time_text error_type error_msg : pystr)
    (user_id : option Z) (stats : bot_stats) : bot_stats :=
  let error_entry :=
    {| entry_time := time_text; entry_type := error_type;
       entry_msg := slice_to 100 error_msg; entry_user := user_id |} in
  let errors := last_errors stats ++ [error_entry] in
  {| start_time := start_time stats;
     messages_count := messages_count stats;
     voice_count := voice_count stats;
     errors_count := errors_count stats + 1;
     last_errors := if (10 <? length errors)%nat then drop 1 errors else errors |}.

(** One call of [log_error]: the time text, the type, the message, the
    user. *)
Definition ErrorCall := (pystr * pystr * pystr * option Z)%type.

Definition logged (c : ErrorCall) : ErrorEntry :=
  let '(time_text, error_type, error_msg, user_id) := c in
  {| entry_time := time_text; entry_type := error_type;
     entry_msg := slice_to 100 error_msg; entry_user := user_id |}.

Definition log_errors (calls : list ErrorCall) (stats : bot_stats) : bot_stats :=
  fold_left (fun st c =>
               let '(time_text, error_type, error_msg, user_id) := c in
               log_error time_text error_type error_msg user_id st)
            calls stats.

(** ** Allowed users *)

Section Users.

(** [ADMIN_ID], read from the environment at start. *)
Variable ADMIN_ID : Z.

(** [int(s)]: [None] is its [ValueError]. *)
Variable to_int : pystr -> option Z.

(** [check_access] *)
Definition check_access (allowed_users : gset Z) (user_id : Z) : bool :=
  (user_id =? ADMIN_ID)%Z || bool_decide (user_id ∈ allowed_users).

Inductive UserReply :=
  | ReplyAddUsage
  | ReplyAdded (new_id : Z)
  | ReplyDelUsage
  | ReplyDeleted (target_id : Z)
  | ReplyNotListed
  | ReplyNotNumber.

(** [add_user]: [caller] is [update.effective_user.id], [args] is
    [context.args].  Returns the set and what is replied; the set is also
    written to the users file. *)
Definition add_user (caller : Z) (args : list pystr) (allowed_users : gset Z)
  : gset Z * list UserReply :=
  if negb (caller =? ADMIN_ID)%Z then (allowed_users, [])
  else
    match args with
    | [] => (allowed_users, [ReplyAddUsage])
    | arg :: _ =>
        match to_int arg with
        | Some new_id => ({[new_id]} ∪ allowed_users, [ReplyAdded new_id])
        | None => (allowed_users, [ReplyNotNumber])
        end
    end.

(** [del_user] *)
Definition del_user (caller : Z) (args : list pystr) (allowed_users : gset Z)
  : gset Z * list UserReply :=
  if negb (caller =? ADMIN_ID)%Z then (allowed_users, [])
  else
    match args with
    | [] => (allowed_users, [ReplyDelUsage])
    | arg :: _ =>
        match to_int arg with
        | Some target_id =>
            if bool_decide (target_id ∈ allowed_users)
            then (allowed_users ∖ {[target_id]}, [ReplyDeleted target_id])
            else (allowed_users, [ReplyNotListed])
        | None => (allowed_users, [ReplyNotNumber])
        end
    end.

End Users.

(** ** Activity log *)

(** An entry of [user_activity]. *)
Record Activity := {
  activity_timestamp : Q;
  activity_user_id : Z;
  activity_username : pystr;
  activity_action : pystr;
  activity_details : pystr
}.

Definition ACTIVITY_LOG_MAX_ENTRIES : nat := 500.

(** [get_day_start] when the clock reads [now]: midnight of the current
    day in the fixed zone [KYIV_TZ], two hours east of UTC, as a
    timestamp. *)
Definition get_day_start (now : Q) : Q :=
  inject_Z (Qfloor ((now + 7200) / 86400) * 86400 - 7200).

(** [log_activity]: [now] is the reading of [time.time()] for the entry,
    [later] the clock when [get_day_start] is called; [username] is [None]
    for a user without one.  Returns the log and whether
    [save_activity_log] is called. *)
Definition log_activity (now later : Q) (user_id : Z)
    (username : option pystr) (action details : pystr)
    (user_activity : list Activity) : list Activity * bool :=
  let entry :=
    {| activity_timestamp := now; activity_user_id := user_id;
       activity_username :=
         match username with
         | Some name => if is_empty name then u "Unknown" else name
         | None => u "Unknown"
         end;
       activity_action := action; activity_details := details |} in
  let user_activity := user_activity ++ [entry] in
  let day_start := get_day_start later in
  let user_activity :=
    List.filter (fun a => Qle_bool day_start (activity_timestamp a))
                user_activity in
  let user_activity :=
    if (ACTIVITY_LOG_MAX_ENTRIES <? length user_activity)%nat
    then drop (length user_activity - ACTIVITY_LOG_MAX_ENTRIES) user_activity
    else user_activity in
  (user_activity, (length user_activity mod 10 =? 0)%nat).

(** ** Error messages *)

(** The kinds of failure that [format_gemini_error] tells apart. *)
Inductive ErrorClass :=
  | QUOTA | SAFETY | AUTH | MODEL | TOKEN_LIMIT | NETWORK | SERVER | FORMAT
  | ERROR.

(** [key in error_str] *)
Definition has (error_str : pystr) (key : string) : bool :=
  contains error_str (u key).

(** The chain of tests of [format_gemini_error] on [str(error).lower()],
    in its order. *)
Definition error_class (error_str : pystr) : ErrorClass :=
  if has error_str "quota" || has error_str "rate limit"
     || has error_str "429" then QUOTA
  else if has error_str "blocked" || has error_str "safety"
          || has error_str "harmful" || has error_str "finish_reason"
  then SAFETY
  else if has error_str "api key" || has error_str "invalid"
          || has error_str "401" || has error_str "403" then AUTH
  else if has error_str "model"
          && (has error_str "not found" || has error_str "unavailable"
              || has error_str "does not exist") then MODEL
  else if has error_str "token"
          && (has error_str "limit" || has error_str "exceed"
              || has error_str "too long") then TOKEN_LIMIT
  else if has error_str "connection" || has error_str "timeout"
          || has error_str "network" then NETWORK
  else if has error_str "500" || has error_str "503"
          || has error_str "internal" || has error_str "server" then SERVER
  else if has error_str "unsupported" || has error_str "invalid format"
          || has error_str "mime" then FORMAT
  else ERROR.

Section ErrorMessage.

Context {C : Type} `{Char C}.

Variable lower_other : pystr -> nat -> pystr.

(** [format_gemini_error(error, context_info)]: [error] is [str(error)]. *)
Definition format_gemini_error (error context_info : list C) : list C :=
  let error_str := lower lower_other (map code error) in
  let error_full := error in
  let error_safe := escape_html error_full in
  let prefix :=
    if negb (is_empty context_info) then w "[" ++ context_info ++ w "] "
    else [] in
  let code_of (n : nat) :=
    [lit NL] ++ w "<code>" ++ slice_to n error_safe ++ w "</code>" in
  match error_class error_str with
  | QUOTA =>
      w "🚦 " ++ prefix
        ++ w "[QUOTA] Превышен лимит запросов. Попробуй позже."
        ++ code_of 120%nat
  | SAFETY =>
      w "🛡️ " ++ prefix
        ++ w "[SAFETY] Контент заблокирован фильтром безопасности."
        ++ code_of 120%nat
  | AUTH =>
      w "🔑 " ++ prefix ++ w "[AUTH] Проблема с API ключом."
        ++ code_of 150%nat
  | MODEL =>
      w "🤖 " ++ prefix ++ w "[MODEL] Модель недоступна." ++ code_of 120%nat
  | TOKEN_LIMIT =>
      w "📏 " ++ prefix ++ w "[TOKEN LIMIT] Запрос слишком длинный."
        ++ code_of 100%nat
  | NETWORK =>
      w "🌐 " ++ prefix ++ w "[NETWORK] Ошибка сети." ++ code_of 100%nat
  | SERVER =>
      w "💥 " ++ prefix ++ w "[SERVER] Ошибка сервера Google."
        ++ code_of 100%nat
  | FORMAT =>
      w "📄 " ++ prefix ++ w "[FORMAT] Неподдерживаемый формат."
        ++ code_of 120%nat
  | ERROR => prefix ++ w "[ERROR]" ++ code_of 250%nat
  end.

End ErrorMessage.

(** ** YouTube links *)

Section Youtube.

Variable unicode_word : N -> bool.

(* ( [\w-]+ ) *)
Definition video_id_group : regex :=
  Group 1 (Plus (Chr (fun c => is_word unicode_word c || (c =? 45)))).

(** The patterns of [extract_video_id], each a literal followed by the
    group of the identifier. *)
Definition video_patterns : list regex :=
  [ Seq (Lit (u "youtube.com/watch?v=")) video_id_group;
    Seq (Lit (u "youtu.be/")) video_id_group;
    Seq (Lit (u "youtube.com/embed/")) video_id_group;
    Seq (Lit (u "youtube.com/shorts/")) video_id_group ].

(** The loop over the patterns: the first that is found anywhere in the
    text gives its group 1. *)
Fixpoint first_found (patterns : list regex) (url : pystr) : option pystr :=
  match patterns with
  | [] => None
  | pattern :: patterns' =>
      match search pattern url 0 with
      | Some f => Some (group url f 1)
      | None => first_found patterns' url
      end
  end.

(** [extract_video_id] *)
Definition extract_video_id (url : pystr) : option pystr :=
  first_found video_patterns url.

(** What [get_transcript] returns. *)
Inductive Transcript :=
  | TranscriptText (full_text language : pystr)
  | TranscriptError (error error_type : pystr).

(** What [summarize_youtube] returns. *)
Inductive Summary :=
  | SummaryText (summary language : pystr)
  | SummaryError (error : pystr) (error_type : option pystr).

(** The collaborators of [summarize_youtube]: the transcript service and
    the model that writes the summary. *)
Variable get_transcript : pystr -> Transcript.
Variable create_summary : pystr -> pystr.

(** [summarize_youtube] *)
Definition summarize_youtube (url : pystr) : Summary :=
  match extract_video_id url with
  | None => SummaryError (u "🔗 Не удалось распознать ссылку YouTube") None
  | Some video_id =>
      if is_empty video_id
      then SummaryError (u "🔗 Не удалось распознать ссылку YouTube") None
      else
        match get_transcript video_id with
        | TranscriptError error error_type =>
            SummaryError error (Some error_type)
        | TranscriptText full_text language =>
            SummaryText (create_summary full_text) language
        end
  end.

End Youtube.

(** The texts that announce a video identifier. *)
Definition VIDEO_PREFIXES : list pystr :=
  [u "youtube.com/watch?v="; u "youtu.be/"; u "youtube.com/embed/";
   u "youtube.com/shorts/"].

(** ** Photos outside the buffer *)

(** How the fallback of the image translation (text recognition by the
    model, under [asyncio.wait_for]) ends. *)
Inductive OcrOutcome :=
  | OcrResponds (response_text : option pystr)
  | OcrTimesOut
  | OcrThrows.

(** What the photo handlers send or ask of a collaborator. *)
Inductive PhotoAction :=
  | PhotoNoAccess
  | PhotoFailed                     (* the download raised; an error reply *)
  | TranslateOnImage (imgs : list image) (key : Tier) (ok : bool)
  | OcrTranslate (img : image) (outcome : OcrOutcome)
  | AskEditPrompt (count : nat)     (* photo(s) received, describe the edit *)
  | PhotoMenu (count : nat)         (* the two buttons *)
  | EditPhotos (imgs : list image) (prompt : pystr) (key : Tier) (ok : bool).

(** A photo message without [media_group_id], as [handle_photo] reads
    it. *)
Record PhotoMessage := {
  photo_access : bool;              (* check_access(user_id) *)
  photo_caption : pystr;            (* update.message.caption or "" *)
  downloaded : option image;        (* the download; None when it raises *)
  photo_message_id : Z
}.

Record PhotoEnv := {
  photo_clock : Q;                  (* time.time() when the photo is stored *)
  edit_ok : bool;                   (* edit_image returns normally *)
  ocr : OcrOutcome
}.

Section Photos.

Variable lower_other : pystr -> nat -> pystr.

Variable env : PhotoEnv.

(** The tests for the edit command in a caption and the prompt that
    follows it. *)
Definition is_edit_short (caption_lower : pystr) : bool :=
  startswith caption_lower (u "р ") || str_eqb caption_lower (u "р").

Definition is_edit_long (caption_lower : pystr) : bool :=
  startswith caption_lower (u "редактировать ")
  || str_eqb caption_lower (u "редактировать").

Definition edit_prompt (caption caption_lower : pystr) : pystr :=
  if is_edit_long caption_lower then strip (slice_from 13 (strip caption))
  else strip (slice_from 1 (strip caption)).

Definition store_photos (imgs : list image) (id : Z) (d : user_data)
  : user_data :=
  set_photo_task
    (Some {| photos := imgs; message_id := id; timestamp := photo_clock env |})
    d.

(** [handle_photo] for a single photo (no [media_group_id]). *)
Definition handle_single_photo (m : PhotoMessage) (d : user_data)
  : user_data * list PhotoAction :=
  if negb (photo_access m) then (d, [PhotoNoAccess])
  else
    let caption := photo_caption m in
    let caption_lower := lower lower_other (strip caption) in
    let model_key := image_key d in
    match mode d with
    | Some translate =>
        match downloaded m with
        | None => (set_mode None d, [PhotoFailed])
        | Some photo_bytes =>
            if edit_ok env then
              (set_mode None d, [TranslateOnImage [photo_bytes] model_key true])
            else
              (set_mode None d,
               [TranslateOnImage [photo_bytes] model_key false;
                OcrTranslate photo_bytes (ocr env)])
        end
    | Some awaiting_edit_photo =>
        match downloaded m with
        | None => (set_mode None d, [PhotoFailed])
        | Some photo_bytes =>
            (set_mode (Some awaiting_edit_prompt)
               (store_photos [photo_bytes] (photo_message_id m) d),
             [AskEditPrompt 1])
        end
    | _ =>
        if negb (is_edit_short caption_lower || is_edit_long caption_lower)
        then
          match downloaded m with
          | None => (d, [PhotoFailed])
          | Some photo_bytes =>
              (store_photos [photo_bytes] (photo_message_id m) d,
               [PhotoMenu 1])
          end
        else
          let prompt := edit_prompt caption caption_lower in
          if is_empty prompt then
            match downloaded m with
            | None => (d, [PhotoFailed])
            | Some photo_bytes =>
                (set_mode (Some awaiting_edit_prompt)
                   (store_photos [photo_bytes] (photo_message_id m) d),
                 [AskEditPrompt 1])
            end
          else
            match downloaded m with
            | None => (d, [PhotoFailed])
            | Some photo_bytes =>
                (d, [EditPhotos [photo_bytes] prompt model_key (edit_ok env)])
            end
    end.

(** [process_album_delayed] after the entry is popped: the album goes the
    way the mode and its caption say. *)
Definition route_album (album_data : Album) (d : user_data)
  : user_data * list PhotoAction :=
  let photos_bytes := album_photos album_data in
  let caption := album_caption album_data in
  let message_id := album_message_id album_data in
  let caption_lower := lower lower_other (strip caption) in
  let photos_count := length photos_bytes in
  match mode d with
  | Some awaiting_edit_photo =>
      (set_mode (Some awaiting_edit_prompt)
         (store_photos photos_bytes message_id d),
       [AskEditPrompt photos_count])
  | _ =>
      if is_edit_short caption_lower || is_edit_long caption_lower then
        let prompt := edit_prompt caption caption_lower in
        if is_empty prompt then
          (set_mode (Some awaiting_edit_prompt)
             (store_photos photos_bytes message_id d),
           [AskEditPrompt photos_count])
        else
          (d, [EditPhotos photos_bytes prompt (image_key d) (edit_ok env)])
      else
        (store_photos photos_bytes message_id d, [PhotoMenu photos_count])
  end.

End Photos.

(** An edit that waits for its prompt has its photos. *)
Definition edit_ready (d : user_data) : Prop :=
  mode d = Some awaiting_edit_prompt -> photo_task d <> None.

(** * Properties *)

(** ** Session store *)

Lemma reset_session_fields now next d :
  reset_session now next d =
    ({| chat_session := Some {| chat_id := next; chat_model := get_model_key d |};
        last_activity := Some now; model := model d;
        image_model := image_model d; mode := None;
        photo_task := photo_task d; active_image := None |},
     S next, {| chat_id := next; chat_model := get_model_key d |}).
Proof. reflexivity. Qed.

(** C9. For every session state, [reset_session] installs the chat object
    that the client creates at that moment (the newest identity, after which
    the client moves on), clears [mode] and [active_image], and leaves the
    text-model and image-model selections as they were. *)
Theorem reset_session_spec (now : Q) (next : nat) (d : user_data) :
  let '(d', next', chat) := reset_session now next d in
  chat_session d' = Some chat
  /\ chat_id chat = next /\ next' = S next
  /\ mode d' = None
  /\ active_image d' = None
  /\ model d' = model d
  /\ image_model d' = image_model d.
Proof. rewrite reset_session_fields. cbn. repeat split. Qed.

Lemma Qgtb_true (a b : Q) : (b < a)%Q -> Qgtb a b = true.
Proof.
  intros H. unfold Qgtb. destruct (Qle_bool a b) eqn:E; [|reflexivity].
  apply Qle_bool_iff in E. exfalso. exact (Qlt_not_le _ _ H E).
Qed.

Lemma Qgtb_false (a b : Q) : (a <= b)%Q -> Qgtb a b = false.
Proof.
  intros H. unfold Qgtb. apply Qle_bool_iff in H. now rewrite H.
Qed.

Lemma get_or_create_session_stale current_time reset_time next d :
  (MEMORY_TIMEOUT < current_time - last_seen d)%Q ->
  get_or_create_session current_time reset_time next d =
    (let '(d', next', chat) := reset_session reset_time next d in
     (d', next', Some chat)).
Proof.
  intros H. unfold get_or_create_session.
  rewrite (Qgtb_true _ _ H), orb_true_r. reflexivity.
Qed.

(** C8. A session that holds a chat object created earlier and whose last
    activity lies more than [MEMORY_TIMEOUT] before the current time: the
    read itself stores and returns a new chat object, different from the one
    held; and the conversational turn of [handle_message], which calls the
    read without looking at the time, sends to that new object. *)
Theorem get_or_create_session_timeout
    (env : Env) (m : Message) (next : nat) (d : user_data) (c : Chat) :
  chat_session d = Some c ->
  (chat_id c < next)%nat ->
  (MEMORY_TIMEOUT < clock env - last_seen d)%Q ->
  exists (c' : Chat) (d' : user_data),
    get_or_create_session (clock env) (later_clock env) next d
      = (d', S next, Some c')
    /\ chat_session d' = Some c'
    /\ c' <> c
    /\ (exists txt,
          sent (chat_turn env m next (set_active_image None d))
            = [ReplyThinking; ChatTurn (Some c') txt (ai_ok env)])
    /\ chat_session (data (chat_turn env m next (set_active_image None d)))
         = Some c'.
Proof.
  intros Hc Hfresh Hold.
  assert (Hne : {| chat_id := next; chat_model := get_model_key d |} <> c).
  { intros <-. cbn in Hfresh. lia. }
  eexists _, _.
  rewrite (get_or_create_session_stale _ _ _ _ Hold), reset_session_fields.
  split; [reflexivity|]. cbn [chat_session].
  split; [reflexivity|]. split; [exact Hne|].
  unfold chat_turn. cbn [active_image set_active_image].
  assert (Hold' : (MEMORY_TIMEOUT < clock env - last_seen (set_active_image None d))%Q)
    by exact Hold.
  rewrite (get_or_create_session_stale _ _ _ _ Hold'), reset_session_fields.
  cbn [sent data chat_session]. split; [eexists; reflexivity | reflexivity].
Qed.

Lemma get_or_create_session_timeout_witness :
  exists (c' : Chat) (d' : user_data),
    get_or_create_session 301 301 1 stale_session = (d', 2%nat, Some c')
    /\ chat_session d' = Some c'
    /\ c' <> {| chat_id := 0; chat_model := flash |}
    /\ (exists txt,
          sent (chat_turn (env_at 301 true) (private_text (u "hello")) 1
                  (set_active_image None stale_session))
            = [ReplyThinking; ChatTurn (Some c') txt true])
    /\ chat_session
         (data (chat_turn (env_at 301 true) (private_text (u "hello")) 1
                  (set_active_image None stale_session)))
       = Some c'.
Proof.
  apply (get_or_create_session_timeout (env_at 301 true)
           (private_text (u "hello")) 1 stale_session
           {| chat_id := 0; chat_model := flash |}).
  - reflexivity.
  - cbn. lia.
  - reflexivity.
Defined.

(** ** Mode dispatcher *)

Ltac split_ifs :=
  repeat match goal with
         | |- context [if ?b then _ else _] => destruct b
         end.

Lemma fast_commands_photo_task env stripped lower_text next d :
  photo_task (data (_process_fast_commands env stripped lower_text next d))
  = photo_task d.
Proof.
  unfold _process_fast_commands, handle_image_generation.
  rewrite !reset_session_fields.
  split_ifs; reflexivity.
Qed.



Lemma handle_message_admitted lower_other env m next d :
  admitted env m = true ->
  handle_message lower_other env m next d = dispatch lower_other env m next d.
Proof.
  unfold admitted, handle_message. intros H.
  apply andb_prop in H as [H Haddr]. apply andb_prop in H as [Htxt Hacc].
  apply negb_true_iff in Htxt. rewrite Htxt, Hacc. cbn [negb].
  destruct (chat_private m); [reflexivity|]. cbn [negb andb orb] in *.
  rewrite Haddr. reflexivity.
Qed.

Lemma fast_commands_unhandled env stripped lower_text next d :
  handled (_process_fast_commands env stripped lower_text next d) = false ->
  _process_fast_commands env stripped lower_text next d
  = {| handled := false; data := d; chats := next; sent := [] |}.
Proof.
  unfold _process_fast_commands, handle_image_generation.
  rewrite !reset_session_fields.
  split_ifs; cbn [handled]; intros H; try discriminate H; reflexivity.
Qed.

(** An edit that fails leaves the pending photo task in place. *)
Lemma edit_failure_keeps_photo_task :
  let r := handle_message keep_case (env_at 1 false)
             (private_text (u "make it blue")) 0 awaiting_prompt in
  sent r = [EditImage (photos sample_task) (u "make it blue") pro false]
  /\ mode (data r) = None
  /\ photo_task (data r) = Some sample_task
  /\ ~ (mode (data r) = None /\ photo_task (data r) = None).
Proof.
  vm_compute. repeat split. intros [_ H]. discriminate H.
Qed.

(** C2 (amended). In [awaiting_edit_prompt] with a pending photo task the
    whole text is the edit instruction and the mode is cleared whether the
    edit succeeds or fails; the photo task is removed when the edit succeeds
    and kept when it fails.  Without a pending photo task the mode is
    cleared and the data-lost reply is the only thing sent. *)
Theorem edit_prompt_dispatch
    (lower_other : pystr -> nat -> pystr) (env : Env) (m : Message)
    (next : nat) (d : user_data) :
  admitted env m = true ->
  mode d = Some awaiting_edit_prompt ->
  let r := handle_message lower_other env m next d in
  match photo_task d with
  | Some task =>
      sent r = [EditImage (photos task) (text m) (image_key d) (ai_ok env)]
      /\ mode (data r) = None
      /\ photo_task (data r) = (if ai_ok env then None else Some task)
  | None =>
      sent r = [ReplyDataLost]
      /\ mode (data r) = None
      /\ photo_task (data r) = None
  end.
Proof.
  intros Hadm Hmode r. subst r.
  rewrite (handle_message_admitted _ _ _ _ _ Hadm).
  unfold dispatch, _process_photo_edit_prompt. rewrite Hmode.
  destruct (photo_task d) as [task|] eqn:Htask.
  - destruct (ai_ok env); cbn; auto.
  - cbn. auto.
Qed.

Lemma edit_prompt_dispatch_witness :
  let r := handle_message keep_case (env_at 1 true)
             (private_text (u "make it blue")) 0 awaiting_prompt in
  sent r = [EditImage (photos sample_task) (u "make it blue") pro true]
  /\ mode (data r) = None
  /\ photo_task (data r) = None.
Proof.
  apply (edit_prompt_dispatch keep_case (env_at 1 true)
           (private_text (u "make it blue")) 0 awaiting_prompt);
    reflexivity.
Defined.

Lemma str_eqb_eq (a b : pystr) : str_eqb a b = true <-> a = b.
Proof.
  revert b. induction a as [|x a IH]; intros [|y b]; cbn; try easy.
  rewrite andb_true_iff, N.eqb_eq, IH. split.
  - intros [-> ->]. reflexivity.
  - intros [= -> ->]. auto.
Qed.

Lemma str_in_In (x : pystr) (l : list pystr) : str_in x l = true <-> In x l.
Proof.
  unfold str_in. rewrite existsb_exists. split.
  - intros [y [Hy E]]. apply str_eqb_eq in E. now subst.
  - intros H. exists x. split; [exact H | now apply str_eqb_eq].
Qed.

Lemma unhandled_steps lower_other env m next d :
  reaches_modes lower_other env m next d = true ->
  mode d <> Some awaiting_edit_prompt ->
  dispatch lower_other env m next d =
    match mode d with
    | Some image_gen => _process_image_gen_mode env (text m) next (set_mode None d)
    | Some youtube_mode => _process_youtube_mode env (text m) next (set_mode None d)
    | Some translate => _process_translation_mode env (text m) next d
    | _ => chat_turn env m next d
    end.
Proof.
  unfold reaches_modes. intros H Hmode.
  apply andb_prop in H as [H Hreply]. apply andb_prop in H as [H Hfast].
  apply andb_prop in H as [_ Hexit].
  apply negb_true_iff in Hreply, Hfast.
  unfold dispatch.
  assert (E1 : _process_photo_edit_prompt env m next d
               = {| handled := false; data := d; chats := next; sent := [] |}).
  { unfold _process_photo_edit_prompt.
    destruct (mode d) as [[]|]; try reflexivity. now destruct Hmode. }
  rewrite E1. cbn [handled data chats].
  unfold _process_exit_commands. rewrite Hexit. cbn [handled data chats].
  rewrite (fast_commands_unhandled _ _ _ _ _ Hfast). cbn [handled data chats].
  unfold _process_reply_to_photo. rewrite Hreply. cbn [negb handled data chats].
  reflexivity.
Qed.

(** One successful translation ends the translate mode. *)
Lemma translate_mode_cleared_on_success :
  let d := in_mode translate in
  let r := handle_message keep_case (env_at 1 true)
             (private_text (u "guten Tag")) 0 d in
  mode d = Some translate
  /\ sent r = [TranslateText (u "guten Tag") true]
  /\ mode (data r) = None
  /\ mode (data r) <> Some translate.
Proof. vm_compute. repeat split. discriminate. Qed.

(** C1 (amended). For a text message that the exit step, the shorthand
    commands and the reply-to-photo step leave unhandled: in [image_gen] the
    stripped text is the image prompt and the mode is cleared; in
    [youtube_mode] the text is the video reference and the mode is cleared;
    in [translate] the text is translated, and the mode is cleared when the
    translation succeeds and kept when it fails. *)
Theorem mode_consumption
    (lower_other : pystr -> nat -> pystr) (env : Env) (m : Message)
    (next : nat) (d : user_data) :
  reaches_modes lower_other env m next d = true ->
  let r := handle_message lower_other env m next d in
  match mode d with
  | Some image_gen =>
      sent r = [GenerateImage (strip (text m)) (image_key d) (ai_ok env)]
      /\ mode (data r) = None
  | Some youtube_mode =>
      sent r = [SummarizeYoutube (text m) (ai_ok env)]
      /\ mode (data r) = None
  | Some translate =>
      sent r = [TranslateText (text m) (ai_ok env)]
      /\ mode (data r) = (if ai_ok env then None else Some translate)
  | Some awaiting_edit_prompt =>
      r = _process_photo_edit_prompt env m next d
  | Some awaiting_edit_photo | None =>
      r = chat_turn env m next d
  end.
Proof.
  intros H r. subst r.
  assert (Hadm : admitted env m = true).
  { unfold reaches_modes in H. now do 3 (apply andb_prop in H as [H _]). }
  rewrite (handle_message_admitted _ _ _ _ _ Hadm).
  destruct (mode d) as [mo|] eqn:Hmode.
  - destruct mo.
    + rewrite (unhandled_steps _ _ _ _ _ H) by (rewrite Hmode; discriminate).
      rewrite Hmode. unfold _process_translation_mode.
      destruct (ai_ok env); cbn; auto.
    + rewrite (unhandled_steps _ _ _ _ _ H) by (rewrite Hmode; discriminate).
      rewrite Hmode. cbn. auto.
    + rewrite (unhandled_steps _ _ _ _ _ H) by (rewrite Hmode; discriminate).
      rewrite Hmode. cbn. auto.
    + rewrite (unhandled_steps _ _ _ _ _ H) by (rewrite Hmode; discriminate).
      rewrite Hmode. reflexivity.
    + unfold dispatch, _process_photo_edit_prompt. rewrite Hmode.
      destruct (photo_task d); [destruct (ai_ok env)|]; reflexivity.
  - rewrite (unhandled_steps _ _ _ _ _ H) by (rewrite Hmode; discriminate).
    rewrite Hmode. reflexivity.
Qed.

Lemma mode_consumption_witness :
  let r := handle_message keep_case (env_at 1 false)
             (private_text (u "guten Tag")) 0 (in_mode translate) in
  sent r = [TranslateText (u "guten Tag") false]
  /\ mode (data r) = Some translate.
Proof.
  apply (mode_consumption keep_case (env_at 1 false)
           (private_text (u "guten Tag")) 0 (in_mode translate)).
  vm_compute. reflexivity.
Defined.

Ltac eval_closed_tests :=
  repeat match goal with
         | |- context [str_in ?a ?l] =>
             let v := eval vm_compute in (str_in a l) in
             lazymatch v with
             | true => change (str_in a l) with true
             | false => change (str_in a l) with false
             end
         | |- context [startswith ?a ?l] =>
             let v := eval vm_compute in (startswith a l) in
             lazymatch v with
             | true => change (startswith a l) with true
             | false => change (startswith a l) with false
             end
         | |- context [str_eqb ?a ?l] =>
             let v := eval vm_compute in (str_eqb a l) in
             lazymatch v with
             | true => change (str_eqb a l) with true
             | false => change (str_eqb a l) with false
             end
         end.

Lemma lower_dot lower_other : lower lower_other (u ".") = u ".".
Proof. reflexivity. Qed.

Lemma exit_word_not_fast lower_other env stripped next d :
  In (lower lower_other stripped) EXIT_WORDS ->
  _process_fast_commands env stripped (lower lower_other stripped) next d
  = {| handled := false; data := d; chats := next; sent := [] |}.
Proof.
  intros Hin.
  assert (Hdot : str_eqb stripped (u ".") = false).
  { destruct (str_eqb stripped (u ".")) eqn:E; [|reflexivity].
    apply str_eqb_eq in E. subst stripped. rewrite lower_dot in Hin.
    exfalso. vm_compute in Hin.
    repeat (destruct Hin as [Hin|Hin]; [discriminate Hin|]). exact Hin. }
  unfold _process_fast_commands. rewrite Hdot.
  cbn [EXIT_WORDS In] in Hin.
  destruct Hin as [E|[E|[E|[E|[]]]]]; rewrite <- E;
    eval_closed_tests; reflexivity.
Qed.

Lemma get_or_create_session_mode current_time reset_time next d :
  mode d = None ->
  mode (fst (fst (get_or_create_session current_time reset_time next d))) = None.
Proof.
  intros Hmode. unfold get_or_create_session.
  destruct (_ || _).
  - rewrite reset_session_fields. reflexivity.
  - exact Hmode.
Qed.

Lemma chat_turn_mode env m next d :
  mode d = None -> mode (data (chat_turn env m next d)) = None.
Proof.
  intros Hmode. unfold chat_turn.
  set (expired := match active_image d with
                  | Some a => Qgtb (clock env - image_timestamp a) IMAGE_CONTEXT_TIMEOUT
                  | None => false
                  end).
  set (d1 := if expired then set_active_image None d else d).
  assert (Hm1 : mode d1 = None) by (subst d1; destruct expired; exact Hmode).
  destruct (if expired then None else active_image d1) as [a|].
  - exact Hm1.
  - pose proof (get_or_create_session_mode (clock env) (later_clock env) next d1 Hm1) as H.
    destruct (get_or_create_session (clock env) (later_clock env) next d1)
      as [[d' n'] chat].
    exact H.
Qed.

(** An exit keyword sent while no mode is set is an ordinary turn of the
    conversation: a chat object is created for it and the word is sent to
    the model. *)
Lemma exit_without_mode_is_chat_turn :
  let r := handle_message keep_case (env_at 1 true)
             (private_text (u "exit")) 0 empty_user_data in
  mode empty_user_data = None
  /\ data r <> empty_user_data
  /\ chat_session (data r) = Some {| chat_id := 0; chat_model := flash |}
  /\ sent r = [ReplyThinking;
               ChatTurn (Some {| chat_id := 0; chat_model := flash |})
                        (u "exit") true].
Proof.
  vm_compute. repeat split. intros H. discriminate H.
Qed.

(** C3 (amended). With no mode set, the exit step does nothing on an exit
    keyword: it reports the message as not handled, leaves the dictionary as
    it is and sends nothing.  The message then goes on through the
    dispatcher like any other text: it is answered as a reply to a photo or
    as a turn of the conversation, and the mode is still unset afterwards. *)
Theorem exit_without_mode
    (lower_other : pystr -> nat -> pystr) (env : Env) (m : Message)
    (next : nat) (d : user_data) :
  admitted env m = true ->
  mode d = None ->
  str_in (lower lower_other (strip (text m))) EXIT_WORDS = true ->
  _process_exit_commands (lower lower_other (strip (text m))) next d
    = {| handled := false; data := d; chats := next; sent := [] |}
  /\ handle_message lower_other env m next d
     = (if reply_has_photo m then _process_reply_to_photo env m next d
        else chat_turn env m next d)
  /\ mode (data (handle_message lower_other env m next d)) = None.
Proof.
  intros Hadm Hmode Hexit.
  assert (E2 : _process_exit_commands (lower lower_other (strip (text m))) next d
               = {| handled := false; data := d; chats := next; sent := [] |}).
  { unfold _process_exit_commands. rewrite Hexit, Hmode. reflexivity. }
  assert (E : handle_message lower_other env m next d
              = (if reply_has_photo m then _process_reply_to_photo env m next d
                 else chat_turn env m next d)).
  { rewrite (handle_message_admitted _ _ _ _ _ Hadm). unfold dispatch.
    assert (E1 : _process_photo_edit_prompt env m next d
                 = {| handled := false; data := d; chats := next; sent := [] |}).
    { unfold _process_photo_edit_prompt. rewrite Hmode. reflexivity. }
    rewrite E1. cbn [handled data chats]. rewrite E2. cbn [handled data chats].
    rewrite exit_word_not_fast by (now apply str_in_In).
    cbn [handled data chats].
    destruct (reply_has_photo m) eqn:Hr.
    - unfold _process_reply_to_photo. rewrite Hr. reflexivity.
    - unfold _process_reply_to_photo. rewrite Hr. cbn [negb handled data chats].
      rewrite Hmode. reflexivity. }
  split; [exact E2|]. split; [exact E|]. rewrite E.
  destruct (reply_has_photo m) eqn:Hr.
  - unfold _process_reply_to_photo. rewrite Hr. cbn [negb data]. exact Hmode.
  - now apply chat_turn_mode.
Qed.

Lemma exit_without_mode_witness :
  _process_exit_commands (lower keep_case (strip (u "Exit"))) 0 empty_user_data
    = {| handled := false; data := empty_user_data; chats := 0%nat; sent := [] |}
  /\ handle_message keep_case (env_at 1 true) (private_text (u "Exit")) 0
       empty_user_data
     = chat_turn (env_at 1 true) (private_text (u "Exit")) 0 empty_user_data
  /\ mode (data (handle_message keep_case (env_at 1 true)
                   (private_text (u "Exit")) 0 empty_user_data)) = None.
Proof.
  apply (exit_without_mode keep_case (env_at 1 true) (private_text (u "Exit"))
           0 empty_user_data); reflexivity.
Defined.

(** ** Retry policy *)

Lemma send_loop_spec (chat_send : nat -> Attempt) (retries : nat) :
  forall (left attempt : nat) (last : option SendError) (slept : list nat),
    (left + attempt = retries + 1)%nat ->
    (0 < left)%nat ->
    let tr := send_loop chat_send retries left attempt last slept in
    (attempt < calls tr /\ calls tr <= retries + 1)%nat
    /\ result tr = outcome (chat_send (calls tr - 1)%nat)
    /\ forallb (fun k => retriable (chat_send k))
               (seq attempt (calls tr - 1 - attempt)) = true
    /\ sleeps tr
       = slept ++ map (fun k => backoff (chat_send k) k)
                      (seq attempt (calls tr - 1 - attempt))
    /\ ((calls tr <? retries + 1)%nat
        && retriable (chat_send (calls tr - 1)%nat)) = false.
Proof.
  induction left as [|left IH]; intros attempt last slept Hinv Hpos; [lia|].
  cbn [send_loop].
  assert (Hstop : forall r,
    r = outcome (chat_send attempt) ->
    ((attempt <? retries)%nat && retriable (chat_send attempt)) = false ->
    let tr := {| result := r; sleeps := slept; calls := S attempt |} in
    (attempt < calls tr /\ calls tr <= retries + 1)%nat
    /\ result tr = outcome (chat_send (calls tr - 1)%nat)
    /\ forallb (fun k => retriable (chat_send k))
               (seq attempt (calls tr - 1 - attempt)) = true
    /\ sleeps tr
       = slept ++ map (fun k => backoff (chat_send k) k)
                      (seq attempt (calls tr - 1 - attempt))
    /\ ((calls tr <? retries + 1)%nat
        && retriable (chat_send (calls tr - 1)%nat)) = false).
  { intros r Hr Hwhy. cbn [calls result sleeps].
    replace (S attempt - 1)%nat with attempt by lia.
    replace (attempt - attempt)%nat with 0%nat by lia.
    cbn [seq forallb map]. rewrite app_nil_r.
    repeat split; try lia; try assumption.
    destruct (attempt <? retries)%nat eqn:E.
    - cbn [andb] in Hwhy. rewrite Hwhy. apply andb_false_r.
    - apply Nat.ltb_ge in E.
      assert ((S attempt <? retries + 1)%nat = false) as -> by (apply Nat.ltb_ge; lia).
      reflexivity. }
  assert (Hgo : forall e w,
    (attempt <? retries)%nat = true ->
    retriable (chat_send attempt) = true ->
    w = backoff (chat_send attempt) attempt ->
    let tr := send_loop chat_send retries left (S attempt) e (slept ++ [w]) in
    (attempt < calls tr /\ calls tr <= retries + 1)%nat
    /\ result tr = outcome (chat_send (calls tr - 1)%nat)
    /\ forallb (fun k => retriable (chat_send k))
               (seq attempt (calls tr - 1 - attempt)) = true
    /\ sleeps tr
       = slept ++ map (fun k => backoff (chat_send k) k)
                      (seq attempt (calls tr - 1 - attempt))
    /\ ((calls tr <? retries + 1)%nat
        && retriable (chat_send (calls tr - 1)%nat)) = false).
  { intros e w Hlt Hretr Hw. apply Nat.ltb_lt in Hlt.
    destruct (IH (S attempt) e (slept ++ [w])) as (Hc & Hres & Hall & Hsl & Hend);
      [lia | lia |].
    cbv zeta.
    set (tr := send_loop chat_send retries left (S attempt) e (slept ++ [w])) in *.
    replace (calls tr - 1 - attempt)%nat with (S (calls tr - 1 - S attempt)) by lia.
    cbn [seq forallb map]. rewrite Hretr, Hall, Hsl, <- app_assoc, Hw.
    repeat split; try lia; try assumption. }
  destruct (chat_send attempt) as [t| |error_str] eqn:Hat.
  - destruct (has_text t) eqn:Ht.
    + apply Hstop.
      * cbn [outcome]. now rewrite Ht.
      * cbn [retriable]. rewrite Ht. apply andb_false_r.
    + destruct (attempt <? retries)%nat eqn:E.
      * apply Hgo; [reflexivity | cbn [retriable]; now rewrite Ht | reflexivity].
      * apply Hstop; [cbn [outcome]; now rewrite Ht | reflexivity].
  - destruct (attempt <? retries)%nat eqn:E.
    + apply Hgo; reflexivity.
    + apply Hstop; reflexivity.
  - destruct (is_transient_code error_str) eqn:Hcode.
    + destruct (attempt <? retries)%nat eqn:E; cbn [andb].
      * apply Hgo; [reflexivity | exact Hcode | reflexivity].
      * apply Hstop; reflexivity.
    + cbn [andb]. apply Hstop; [reflexivity|].
      cbn [retriable]. rewrite Hcode. apply andb_false_r.
Qed.

(** Three empty responses in a row: the two pauses are both of 2 seconds,
    not an attempt index times a constant. *)
Lemma empty_response_pause_is_constant :
  let tr := send_with_retry (fun _ => Responds (Some [])) MAX_RETRIES in
  retriable (Responds (Some [])) = true
  /\ calls tr = 3%nat
  /\ sleeps tr = [2; 2]%nat
  /\ ~ (exists c : nat, sleeps tr = [c * 1; c * 2]%nat).
Proof.
  cbv zeta.
  assert (E : sleeps (send_with_retry (fun _ => Responds (Some [])) MAX_RETRIES)
              = [2; 2]%nat) by (vm_compute; reflexivity).
  rewrite E. repeat split; try (vm_compute; reflexivity).
  intros [c H]. injection H as H1 H2. lia.
Qed.

(** C6 (amended). [send_with_retry] calls the conversation at least once and
    at most [retries + 1] times (three with the default of 2 retries); the
    caller gets the outcome of the last call; every earlier call failed in a
    retriable way (a status code 429, 503 or 500 in the error text, an empty
    response, or a timeout); the pause before retry number [k + 1] is
    [3 * (k + 1)] seconds after a status-code failure and 2 seconds after an
    empty response or a timeout; and the loop stops before the last allowed
    call only on a response with text or a failure that is not retriable. *)
Theorem send_with_retry_policy (chat_send : nat -> Attempt) (retries : nat) :
  let tr := send_with_retry chat_send retries in
  (1 <= calls tr /\ calls tr <= retries + 1)%nat
  /\ result tr = outcome (chat_send (calls tr - 1)%nat)
  /\ forallb (fun k => retriable (chat_send k)) (seq 0 (calls tr - 1)) = true
  /\ sleeps tr = map (fun k => backoff (chat_send k) k) (seq 0 (calls tr - 1))
  /\ ((calls tr <? retries + 1)%nat
      && retriable (chat_send (calls tr - 1)%nat)) = false.
Proof.
  unfold send_with_retry.
  destruct (send_loop_spec chat_send retries (retries + 1) 0 None [])
    as (Hc & Hres & Hall & Hsl & Hend); [lia | lia |].
  cbv zeta.
  set (tr := send_loop chat_send retries (retries + 1) 0 None []) in *.
  rewrite Nat.sub_0_r in Hall, Hsl.
  repeat split; try lia; assumption.
Qed.

(** ** Album coalescer *)

Lemma Qle_bool_false (a b : Q) : (b < a)%Q -> Qle_bool a b = false.
Proof.
  intros H. destruct (Qle_bool a b) eqn:E; [|reflexivity].
  apply Qle_bool_iff in E. exfalso. exact (Qlt_not_le _ _ H E).
Qed.

Lemma Qle_bool_true (a b : Q) : (a <= b)%Q -> Qle_bool a b = true.
Proof. intros H. now apply Qle_bool_iff. Qed.

Section Group.

Variable g : string.

Lemma process_other group st :
  group <> g ->
  pending_albums (process_album_delayed group st) !! g = pending_albums st !! g
  /\ for_group g (flushed (process_album_delayed group st))
     = for_group g (flushed st).
Proof.
  intros Hne. unfold process_album_delayed.
  destruct (pending_albums st !! group) as [a|]; [|auto].
  cbn [pending_albums flushed]. split.
  - now apply lookup_delete_ne.
  - unfold for_group. rewrite filter_app, filter_cons_False by (cbn; congruence).
    now rewrite filter_nil, app_nil_r.
Qed.

(** Waking tasks of other groups does not touch the group. *)
Lemma wake_other now ts :
  forall st,
    tasks_of g ts = [] ->
    pending_albums (wake now ts st) !! g = pending_albums st !! g
    /\ for_group g (flushed (wake now ts st)) = for_group g (flushed st)
    /\ tasks_of g (tasks (wake now ts st)) = [].
Proof.
  induction ts as [|[due group] ts IH]; intros st Hts; [cbn; auto|].
  unfold tasks_of in Hts.
  destruct (decide (group = g)) as [->|Hne].
  { rewrite filter_cons_True in Hts by reflexivity. discriminate Hts. }
  rewrite filter_cons_False in Hts by (cbn; congruence).
  cbn [wake]. destruct (Qle_bool due now).
  - destruct (IH (process_album_delayed group st) Hts) as (Hp & Hf & Ht).
    destruct (process_other group st Hne) as [Hp' Hf'].
    rewrite Hp, Hf, Hp', Hf'. auto.
  - destruct (IH st Hts) as (Hp & Hf & Ht). cbn [pending_albums flushed tasks].
    repeat split; try assumption.
    unfold tasks_of. rewrite filter_cons_False by (cbn; congruence). exact Ht.
Qed.

(** Waking while the group is buffered and has its one task asleep: the
    task flushes the buffer if its sleep is over and stays asleep if not. *)
Lemma wake_own now due a ts :
  forall st,
    tasks_of g ts = [(due, g)] ->
    pending_albums st !! g = Some a ->
    let st' := wake now ts st in
    if Qle_bool due now then
      pending_albums st' !! g = None
      /\ for_group g (flushed st') = for_group g (flushed st) ++ [(g, a)]
      /\ tasks_of g (tasks st') = []
    else
      pending_albums st' !! g = Some a
      /\ for_group g (flushed st') = for_group g (flushed st)
      /\ tasks_of g (tasks st') = [(due, g)].
Proof.
  induction ts as [|[due' group] ts IH]; intros st Hts Hpend; [discriminate Hts|].
  unfold tasks_of in Hts. cbv zeta.
  destruct (decide (group = g)) as [->|Hne].
  - rewrite filter_cons_True in Hts by reflexivity.
    injection Hts as -> Hts. cbn [wake].
    destruct (Qle_bool due now).
    + destruct (wake_other now ts (process_album_delayed g st) Hts)
        as (Hp & Hf & Ht).
      rewrite Hp, Hf, Ht. unfold process_album_delayed. rewrite Hpend.
      cbn [pending_albums flushed]. repeat split.
      * apply lookup_delete_eq.
      * unfold for_group. rewrite filter_app, filter_cons_True by reflexivity.
        now rewrite filter_nil.
    + destruct (wake_other now ts st Hts) as (Hp & Hf & Ht).
      cbn [pending_albums flushed tasks]. rewrite Hp, Hf.
      repeat split; try assumption.
      unfold tasks_of. rewrite filter_cons_True by reflexivity.
      unfold tasks_of in Ht. now rewrite Ht.
  - rewrite filter_cons_False in Hts by (cbn; congruence).
    cbn [wake]. destruct (Qle_bool due' now).
    + destruct (process_other group st Hne) as [Hp' Hf'].
      assert (Hpend' : pending_albums (process_album_delayed group st) !! g = Some a)
        by (now rewrite Hp').
      specialize (IH (process_album_delayed group st) Hts Hpend').
      cbv zeta in IH. rewrite Hf' in IH. exact IH.
    + specialize (IH st Hts Hpend). cbv zeta in IH.
      cbn [pending_albums flushed tasks].
      destruct (Qle_bool due now); destruct IH as (Hp & Hf & Ht);
        repeat split; try assumption;
        unfold tasks_of; rewrite filter_cons_False by (cbn; congruence);
        exact Ht.
Qed.

(** The first fragment of a group opens the buffer and creates the task. *)
Lemma handle_photo_first now f st :
  media_group_id f = g ->
  pending_albums st !! g = None ->
  tasks_of g (tasks st) = [] ->
  let st' := handle_photo now f st in
  pending_albums st' !! g
    = Some {| album_photos := [photo f]; album_caption := caption f;
              album_user_id := user_id f; album_chat_id := chat_id_of f;
              album_message_id := fragment_message_id f;
              album_timestamp := now |}
  /\ flushed st' = flushed st
  /\ tasks_of g (tasks st') = [((now + ALBUM_WAIT_TIME)%Q, g)].
Proof.
  intros Hg Hpend Hts. unfold handle_photo. rewrite Hg, Hpend.
  cbn [pending_albums flushed tasks]. repeat split.
  - apply lookup_insert_eq.
  - unfold tasks_of in *. rewrite filter_app, Hts.
    now rewrite filter_cons_True by reflexivity.
Qed.

(** A later fragment is appended (below the cap) and creates no task. *)
Lemma handle_photo_next now f a st :
  media_group_id f = g ->
  pending_albums st !! g = Some a ->
  (length (album_photos a) < MAX_ALBUM_PHOTOS)%nat ->
  let st' := handle_photo now f st in
  (exists a', pending_albums st' !! g = Some a'
              /\ album_photos a' = album_photos a ++ [photo f])
  /\ flushed st' = flushed st
  /\ tasks st' = tasks st.
Proof.
  intros Hg Hpend Hlen. unfold handle_photo. rewrite Hg, Hpend.
  apply Nat.ltb_lt in Hlen. rewrite Hlen.
  cbn [pending_albums flushed tasks]. repeat split.
  eexists. split; [apply lookup_insert_eq|].
  destruct (_ && _); reflexivity.
Qed.

End Group.

(** A fourth fragment that arrives after the flush is not dropped: it opens
    a new buffer for the group and creates a task of its own, whose flush
    hands the fourth image on as an album of one. *)
Lemma fourth_fragment_opens_new_album :
  let st3 :=
    arrive 1 (fragment "g" Byte.x03 3)
      (arrive 0.5 (fragment "g" Byte.x02 2)
         (arrive 0 (fragment "g" Byte.x01 1) idle)) in
  let st4 := arrive 2 (fragment "g" Byte.x04 4) st3 in
  map (fun x => album_photos (snd x)) (flushed (run_until 2 st3))
    = [[[Byte.x01]; [Byte.x02]; [Byte.x03]]]
  /\ pending_albums (run_until 2 st3) !! "g"%string = None
  /\ (album_photos <$> pending_albums st4 !! "g"%string) = Some [[Byte.x04]]
  /\ map snd (tasks st4) = ["g"%string]
  /\ map (fun x => album_photos (snd x)) (flushed (run_until 4 st4))
     = [[[Byte.x01]; [Byte.x02]; [Byte.x03]]; [[Byte.x04]]]
  /\ st4 <> run_until 2 st3.
Proof.
  cbv zeta. repeat split; try (vm_compute; reflexivity).
  intros H.
  apply (f_equal (fun s => album_photos <$> pending_albums s !! "g"%string)) in H.
  vm_compute in H. discriminate H.
Qed.

(** C4 (amended). Three fragments of a group that has no buffer, the second
    and third arriving before the quiet period that started at the first is
    over: one task is created, at the first fragment, due one quiet period
    after it, and later fragments leave it as it is; when it wakes, the
    group is flushed once, with the three images in arrival order, and its
    buffer is removed.  A fourth fragment arriving after that opens a new
    buffer holding its image alone and creates a new task. *)
Theorem album_coalescing
    (g : string) (f1 f2 f3 f4 : Fragment) (t1 t2 t3 t4 : Q) (st : Coalescer) :
  media_group_id f1 = g -> media_group_id f2 = g ->
  media_group_id f3 = g -> media_group_id f4 = g ->
  pending_albums st !! g = None ->
  tasks_of g (tasks st) = [] ->
  (t1 <= t2)%Q -> (t2 <= t3)%Q ->
  (t3 < t1 + ALBUM_WAIT_TIME)%Q ->
  (t1 + ALBUM_WAIT_TIME <= t4)%Q ->
  let st3 := arrive t3 f3 (arrive t2 f2 (arrive t1 f1 st)) in
  let st4 := arrive t4 f4 st3 in
  tasks_of g (tasks st3) = [((t1 + ALBUM_WAIT_TIME)%Q, g)]
  /\ for_group g (flushed st3) = for_group g (flushed st)
  /\ (exists a,
        for_group g (flushed (run_until t4 st3))
          = for_group g (flushed st) ++ [(g, a)]
        /\ album_photos a = [photo f1; photo f2; photo f3])
  /\ pending_albums (run_until t4 st3) !! g = None
  /\ tasks_of g (tasks (run_until t4 st3)) = []
  /\ (exists a4,
        pending_albums st4 !! g = Some a4 /\ album_photos a4 = [photo f4])
  /\ tasks_of g (tasks st4) = [((t4 + ALBUM_WAIT_TIME)%Q, g)].
Proof.
  intros G1 G2 G3 G4 Hpend Hts H12 H23 H3 H4. cbv zeta.
  assert (Hlate2 : Qle_bool (t1 + ALBUM_WAIT_TIME) t2 = false).
  { apply Qle_bool_false. eapply Qle_lt_trans; eassumption. }
  assert (Hlate3 : Qle_bool (t1 + ALBUM_WAIT_TIME) t3 = false)
    by (now apply Qle_bool_false).
  assert (Hdue : Qle_bool (t1 + ALBUM_WAIT_TIME) t4 = true)
    by (now apply Qle_bool_true).
  (* first fragment *)
  destruct (wake_other g t1 (tasks st) st Hts) as (P0 & F0 & T0).
  fold (run_until t1 st) in P0, F0, T0. rewrite Hpend in P0.
  destruct (handle_photo_first g t1 f1 (run_until t1 st) G1 P0 T0)
    as (P1 & F1 & T1).
  fold (arrive t1 f1 st) in P1, F1, T1.
  set (s1 := arrive t1 f1 st) in *.
  (* second fragment *)
  pose proof (wake_own g t2 _ _ (tasks s1) s1 T1 P1) as W2.
  cbv zeta in W2. rewrite Hlate2 in W2. destruct W2 as (P2 & F2 & T2).
  fold (run_until t2 s1) in P2, F2, T2.
  destruct (handle_photo_next g t2 f2 _ (run_until t2 s1) G2 P2)
    as ((a2 & P2' & A2) & F2' & T2'); [cbn; unfold MAX_ALBUM_PHOTOS; lia|].
  fold (arrive t2 f2 s1) in P2', F2', T2'.
  set (s2 := arrive t2 f2 s1) in *. cbn [album_photos] in A2.
  rewrite <- T2' in T2.
  (* third fragment *)
  pose proof (wake_own g t3 _ _ (tasks s2) s2 T2 P2') as W3.
  cbv zeta in W3. rewrite Hlate3 in W3. destruct W3 as (P3 & F3 & T3).
  fold (run_until t3 s2) in P3, F3, T3.
  destruct (handle_photo_next g t3 f3 _ (run_until t3 s2) G3 P3)
    as ((a3 & P3' & A3) & F3' & T3');
    [rewrite A2; cbn; unfold MAX_ALBUM_PHOTOS; lia|].
  fold (arrive t3 f3 s2) in P3', F3', T3'.
  set (s3 := arrive t3 f3 s2) in *. rewrite A2 in A3. cbn [app] in A3.
  rewrite <- T3' in T3.
  (* the flush, and the fourth fragment *)
  pose proof (wake_own g t4 _ _ (tasks s3) s3 T3 P3') as W4.
  cbv zeta in W4. rewrite Hdue in W4. destruct W4 as (P4 & F4 & T4).
  fold (run_until t4 s3) in P4, F4, T4.
  destruct (handle_photo_first g t4 f4 (run_until t4 s3) G4 P4 T4)
    as (P5 & F5 & T5).
  fold (arrive t4 f4 s3) in P5, F5, T5.
  assert (Fs3 : for_group g (flushed s3) = for_group g (flushed st)).
  { rewrite F3', F3, F2', F2, F1. exact F0. }
  split; [exact T3|]. split; [exact Fs3|].
  split; [exists a3; split; [rewrite F4, Fs3; reflexivity | exact A3]|].
  split; [exact P4|]. split; [exact T4|].
  split; [eexists; split; [exact P5 | reflexivity]|]. exact T5.
Qed.

Lemma album_coalescing_witness :
  let st3 :=
    arrive 1 (fragment "g" Byte.x03 3)
      (arrive 0.5 (fragment "g" Byte.x02 2)
         (arrive 0 (fragment "g" Byte.x01 1) idle)) in
  let st4 := arrive 2 (fragment "g" Byte.x04 4) st3 in
  tasks_of "g" (tasks st3) = [((0 + ALBUM_WAIT_TIME)%Q, "g"%string)]
  /\ for_group "g" (flushed st3) = for_group "g" (flushed idle)
  /\ (exists a,
        for_group "g" (flushed (run_until 2 st3))
          = for_group "g" (flushed idle) ++ [("g"%string, a)]
        /\ album_photos a = [[Byte.x01]; [Byte.x02]; [Byte.x03]])
  /\ pending_albums (run_until 2 st3) !! "g"%string = None
  /\ tasks_of "g" (tasks (run_until 2 st3)) = []
  /\ (exists a4,
        pending_albums st4 !! "g"%string = Some a4
        /\ album_photos a4 = [[Byte.x04]])
  /\ tasks_of "g" (tasks st4) = [((2 + ALBUM_WAIT_TIME)%Q, "g"%string)].
Proof.
  apply (album_coalescing "g" (fragment "g" Byte.x01 1)
           (fragment "g" Byte.x02 2) (fragment "g" Byte.x03 3)
           (fragment "g" Byte.x04 4) 0 0.5 1 2 idle);
    try reflexivity; try (vm_compute; discriminate).
Defined.

(** ** Chunking *)

Lemma visible_app (a b : pystr) : visible (a ++ b) = visible a ++ visible b.
Proof. apply List.filter_app. Qed.

Lemma visible_rev (s : pystr) : visible (rev s) = rev (visible s).
Proof.
  induction s as [|c s IH]; [reflexivity|].
  cbn [rev]. rewrite visible_app, IH. unfold visible at 2 3. cbn [List.filter].
  destruct (negb (is_space c)); cbn [rev app]; [reflexivity|].
  now rewrite app_nil_r.
Qed.

Lemma visible_lstrip (s : pystr) : visible (lstrip_set is_space s) = visible s.
Proof.
  induction s as [|c s IH]; [reflexivity|].
  cbn [lstrip_set]. change (code c) with c.
  destruct (is_space c) eqn:E; [|reflexivity].
  rewrite IH. unfold visible. cbn [List.filter]. now rewrite E.
Qed.

Lemma visible_strip (s : pystr) : visible (strip s) = visible s.
Proof.
  unfold strip, strip_set, rstrip_set.
  now rewrite visible_rev, visible_lstrip, visible_rev, rev_involutive, visible_lstrip.
Qed.

Lemma visible_blank (s : pystr) : strip s = [] -> visible s = [].
Proof. intros E. now rewrite <- visible_strip, E. Qed.

Lemma startswith_take (s : pystr) (p : pystr) :
  startswith s p = true -> take (length p) s = p.
Proof.
  revert s. induction p as [|y p IH]; intros [|x s]; cbn; try easy.
  change (code x) with x. intros H. apply andb_prop in H as [E H].
  apply N.eqb_eq in E. subst. now rewrite IH.
Qed.

(** Splitting on a separator made of whitespace loses no visible
    character. *)
Lemma visible_split_go (sep : pystr) :
  sep <> [] ->
  Forall (fun c => is_space c = true) sep ->
  forall (s : pystr) (skip : nat),
    Forall (fun c => is_space c = true) (take skip s) ->
    visible (concat (split_go sep skip s)) = visible s.
Proof.
  intros Hne Hsep. induction s as [|c s IH]; intros skip Hskip; [reflexivity|].
  cbn [split_go]. destruct skip as [|k].
  - destruct (startswith (c :: s) sep) eqn:E.
    + apply startswith_take in E.
      destruct sep as [|y sep]; [now destruct Hne|].
      cbn [length take] in E. injection E as -> E.
      cbn [concat app Nat.pred length].
      rewrite IH by (rewrite E; now inversion Hsep).
      unfold visible. cbn [List.filter]. inversion Hsep as [|? ? Hy _]; subst.
      now rewrite Hy.
    + specialize (IH 0%nat ltac:(cbn [take]; constructor)).
      destruct (split_go sep 0 s) as [|piece pieces]; cbn [concat app] in *.
      * unfold visible in *. cbn [List.filter]. now rewrite <- IH.
      * unfold visible in *. cbn [List.filter]. rewrite <- IH.
        now destruct (negb (is_space c)).
  - cbn [take] in Hskip. inversion Hskip as [|? ? Hc Hrest]; subst.
    rewrite IH by exact Hrest. unfold visible. cbn [List.filter]. now rewrite Hc.
Qed.

Lemma visible_split (sep s : pystr) :
  sep <> [] ->
  Forall (fun c => is_space c = true) sep ->
  visible (concat (split sep s)) = visible s.
Proof.
  intros Hne Hsep. unfold split. apply visible_split_go; [exact Hne|exact Hsep|].
  cbn [take]. constructor.
Qed.

Ltac visible_norm :=
  repeat (rewrite ?concat_app, ?visible_app, ?visible_strip; cbn [concat]);
  change (visible [NL]) with (@nil N);
  change (visible [NL; NL]) with (@nil N);
  change (visible []) with (@nil N);
  rewrite ?app_nil_r, <- ?app_assoc.

Lemma add_line_visible max_length parts current_part line :
  (length line <= max_length)%nat ->
  exists parts' current_part',
    add_line max_length (parts, current_part) line = Some (parts', current_part')
    /\ visible (concat parts' ++ current_part')
       = visible (concat parts ++ current_part) ++ visible line.
Proof.
  intros Hfit. unfold add_line.
  assert ((max_length <? length line)%nat = false) as ->
    by (apply Nat.ltb_ge; exact Hfit).
  destruct (max_length <? _)%nat; eexists _, _; (split; [reflexivity|]);
    visible_norm; reflexivity.
Qed.

Lemma add_lines_visible max_length lines :
  Forall (fun line => (length line <= max_length)%nat) lines ->
  forall parts current_part,
  exists parts' current_part',
    add_lines max_length (parts, current_part) lines = Some (parts', current_part')
    /\ visible (concat parts' ++ current_part')
       = visible (concat parts ++ current_part) ++ visible (concat lines).
Proof.
  induction 1 as [|line lines Hfit _ IH]; intros parts current_part.
  - eexists _, _. split; [reflexivity|]. visible_norm. reflexivity.
  - destruct (add_line_visible max_length parts current_part line Hfit)
      as (p1 & c1 & E1 & V1).
    destruct (IH p1 c1) as (p2 & c2 & E2 & V2).
    exists p2, c2. cbn [add_lines]. rewrite E1. split; [exact E2|].
    rewrite V2, V1. visible_norm. reflexivity.
Qed.

Lemma add_paragraph_visible max_length parts current_part paragraph :
  Forall (fun line => (length line <= max_length)%nat) (split [NL] paragraph) ->
  exists parts' current_part',
    add_paragraph max_length (parts, current_part) paragraph
      = Some (parts', current_part')
    /\ visible (concat parts' ++ current_part')
       = visible (concat parts ++ current_part) ++ visible paragraph.
Proof.
  intros Hfit. unfold add_paragraph.
  destruct (max_length <? length paragraph)%nat.
  - assert (Hnl : Forall (fun c => is_space c = true) [NL])
      by (repeat constructor).
    destruct (negb (is_empty current_part)) eqn:E.
    + destruct (add_lines_visible max_length _ Hfit
                  (parts ++ [strip current_part]) [])
        as (p & c & E1 & V1).
      exists p, c. split; [exact E1|].
      rewrite V1, (visible_split [NL] _ ltac:(discriminate) Hnl).
      visible_norm. reflexivity.
    + destruct (add_lines_visible max_length _ Hfit parts current_part)
        as (p & c & E1 & V1).
      exists p, c. split; [exact E1|]. now rewrite V1, (visible_split [NL] _ ltac:(discriminate) Hnl).
  - destruct (max_length <? _)%nat; eexists _, _; (split; [reflexivity|]);
      visible_norm; reflexivity.
Qed.

Lemma add_paragraphs_visible max_length paragraphs :
  Forall (fun paragraph =>
            Forall (fun line => (length line <= max_length)%nat)
                   (split [NL] paragraph)) paragraphs ->
  forall parts current_part,
  exists parts' current_part',
    add_paragraphs max_length (parts, current_part) paragraphs
      = Some (parts', current_part')
    /\ visible (concat parts' ++ current_part')
       = visible (concat parts ++ current_part) ++ visible (concat paragraphs).
Proof.
  induction 1 as [|paragraph paragraphs Hfit _ IH]; intros parts current_part.
  - eexists _, _. split; [reflexivity|]. visible_norm. reflexivity.
  - destruct (add_paragraph_visible max_length parts current_part paragraph Hfit)
      as (p1 & c1 & E1 & V1).
    destruct (IH p1 c1) as (p2 & c2 & E2 & V2).
    exists p2, c2. cbn [add_paragraphs]. rewrite E1. split; [exact E2|].
    rewrite V2, V1. visible_norm. reflexivity.
Qed.

Lemma visible_take (n : nat) (s : pystr) : visible s = [] -> visible (take n s) = [].
Proof.
  revert n. induction s as [|c s IH]; intros [|n] Hs; try reflexivity.
  unfold visible in *. cbn [take List.filter] in *.
  destruct (negb (is_space c)); [discriminate Hs|]. now apply IH.
Qed.

(** Whitespace that ends a chunk is lost, so the chunks cannot be joined
    back into the input; the paragraph break after a paragraph that does
    not fit is a single line break inside a chunk; and the pieces of a line
    that does not fit come before the lines read ahead of it. *)
Lemma chunks_lose_whitespace :
  split_message [97; 32; 10; 10; 98] 3 = Some [[]; [97]; [98]]
  /\ ~ reconstructs [97; 32; 10; 10; 98] [[]; [97]; [98]]
  /\ split_message [97; 98; 99; 100; 101; 102; 103; 10; 104; 10; 10; 105] 8
     = Some [[97; 98; 99; 100; 101; 102; 103]; [104; 10; 105]]
  /\ ~ reconstructs [97; 98; 99; 100; 101; 102; 103; 10; 104; 10; 10; 105]
         [[97; 98; 99; 100; 101; 102; 103]; [104; 10; 105]]
  /\ split_message [97; 10; 98; 99; 100; 101; 102] 3
     = Some [[98; 99; 100]; [101; 102]; [97]]
  /\ ~ reconstructs [97; 10; 98; 99; 100; 101; 102]
         [[98; 99; 100]; [101; 102]; [97]]
  /\ visible (concat [[98; 99; 100]; [101; 102]; [97]])
     <> visible [97; 10; 98; 99; 100; 101; 102].
Proof.
  assert (Hsep : forall sep : pystr,
             In sep [[]; [NL]; [NL; NL]] ->
             sep = [] \/ sep = [NL] \/ sep = [NL; NL]).
  { intros sep [<-|[<-|[<-|[]]]]; auto. }
  repeat split; try (vm_compute; reflexivity);
    try (vm_compute; discriminate);
    intros (seps & Hseps & Hjoin);
    destruct seps as [|s1 [|s2 seps]];
    repeat match goal with
           | H : Forall _ (_ :: _) |- _ => inversion H; clear H; subst
           end;
    repeat match goal with
           | H : In _ _ |- _ => apply Hsep in H; destruct H as [-> | [-> | ->]]
           end;
    discriminate Hjoin.
Qed.

(** When no line of the text is longer than the limit, the chunker returns
    chunks that carry, in order, exactly the characters of the input other
    than whitespace. *)
Lemma split_message_visible (text : pystr) (max_length : nat) :
  lines_fit text max_length ->
  exists chunks,
    split_message text max_length = Some chunks
    /\ visible (concat chunks) = visible text.
Proof.
  intros Hfit. unfold split_message.
  destruct (is_empty text) eqn:Hempty.
  { destruct text; [|discriminate Hempty]. eexists. split; reflexivity. }
  destruct (length text <=? max_length)%nat.
  { eexists. split; [reflexivity|]. cbn. now rewrite app_nil_r. }
  destruct (add_paragraphs_visible max_length _ Hfit [] [])
    as (parts & current_part & E & V).
  unfold pystr in E |- *. rewrite E.
  assert (Hsep : Forall (fun c => is_space c = true) [NL; NL])
    by (repeat constructor).
  assert (V' : visible (concat parts) ++ visible current_part = visible text).
  { rewrite <- visible_app, V.
    rewrite (visible_split [NL; NL] _ ltac:(discriminate) Hsep). reflexivity. }
  clear V. eexists. split; [reflexivity|].
  destruct (is_empty (strip current_part)) eqn:Hblank; cbn [negb].
  - assert (Hcur : visible current_part = []).
    { apply visible_blank. now destruct (strip current_part). }
    rewrite Hcur, app_nil_r in V'.
    destruct parts as [|part parts]; cbn [is_empty negb].
    + cbn [concat]. rewrite app_nil_r. cbn [concat] in V'.
      rewrite <- V'. apply visible_take. now rewrite <- V'.
    + exact V'.
  - destruct parts as [|part parts]; cbn [app is_empty negb];
      visible_norm; cbn [concat] in V';
      rewrite ?visible_app, <- ?app_assoc in V'; exact V'.
Qed.

(** *** The chunks lie in the text *)

Lemma split_go_nonempty (sep : pystr) :
  forall (s : pystr) skip, split_go sep skip s <> [].
Proof.
  induction s as [|c s IH]; intros skip; cbn [split_go]; [discriminate|].
  destruct skip; [|apply IH].
  destruct (startswith (c :: s) sep); [discriminate|].
  destruct (split_go sep 0 s); discriminate.
Qed.

Lemma join_cons (sep piece : pystr) pieces :
  pieces <> [] -> join sep (piece :: pieces) = piece ++ sep ++ join sep pieces.
Proof. destruct pieces; [congruence|reflexivity]. Qed.

(** Joining the pieces of a split gives the string back. *)
Lemma join_split_go (sep : pystr) :
  sep <> [] ->
  forall (s : pystr) skip, join sep (split_go sep skip s) = drop skip s.
Proof.
  intros Hne. induction s as [|c s IH]; intros skip.
  { now destruct skip. }
  cbn [split_go]. destruct skip as [|k]; [|apply IH].
  destruct (startswith (c :: s) sep) eqn:E.
  - rewrite join_cons by apply split_go_nonempty. rewrite IH.
    apply startswith_take in E.
    destruct sep as [|y sep]; [now destruct Hne|].
    cbn [length Nat.pred app]. cbn [length take] in E.
    injection E as -> E. cbn [drop]. f_equal.
    rewrite <- E at 1. apply take_drop.
  - specialize (IH 0%nat). pose proof (split_go_nonempty sep s 0) as Hs.
    destruct (split_go sep 0 s) as [|piece pieces]; [now destruct Hs|].
    change (drop 0 s) with s in IH. change (drop 0 (c :: s)) with (c :: s).
    rewrite <- IH. destruct pieces; reflexivity.
Qed.

Lemma join_split (sep s : pystr) : sep <> [] -> join sep (split sep s) = s.
Proof. intros Hne. unfold split. now rewrite join_split_go. Qed.

(** Pieces each followed by the separator: the joined pieces and one more
    separator. *)
Lemma closed_pieces (sep : pystr) (pieces : list pystr) :
  pieces <> [] ->
  flat_map (fun piece => piece ++ sep) pieces = join sep pieces ++ sep.
Proof.
  induction pieces as [|piece pieces IH]; [congruence|]. intros _.
  destruct pieces as [|piece' pieces].
  - cbn. now rewrite app_nil_r.
  - rewrite join_cons by discriminate. cbn [flat_map] in *.
    rewrite IH by discriminate. now rewrite <- !app_assoc.
Qed.

Lemma closed_lines (paragraph : pystr) :
  flat_map (fun line => line ++ [NL]) (split [NL] paragraph)
  = paragraph ++ [NL].
Proof.
  rewrite closed_pieces by apply split_go_nonempty.
  now rewrite join_split by discriminate.
Qed.

Lemma piece_length (sep : pystr) (pieces : list pystr) (piece : pystr) :
  In piece pieces -> (length piece <= length (join sep pieces))%nat.
Proof.
  induction pieces as [|p pieces IH]; [intros []|].
  intros [->|Hin].
  - destruct pieces; cbn [join]; rewrite ?length_app; lia.
  - specialize (IH Hin). destruct pieces as [|p' pieces]; [destruct Hin|].
    rewrite join_cons by discriminate. rewrite !length_app. lia.
Qed.

(** When every paragraph fits, the separated text is the text and a
    closing blank line. *)
Lemma separated_short (max_length : nat) (text : pystr) :
  Forall (fun paragraph => (length paragraph <= max_length)%nat)
         (split [NL; NL] text) ->
  separated max_length text = text ++ [NL; NL].
Proof.
  intros Hshort. unfold separated.
  rewrite <- (join_split [NL; NL] text) at 2 by discriminate.
  rewrite <- closed_pieces by apply split_go_nonempty.
  induction Hshort as [|p ps Hp _ IH]; [reflexivity|].
  cbn [flat_map]. rewrite IH. unfold separator_after.
  now replace (max_length <? length p)%nat with false
    by (symmetry; apply Nat.ltb_ge; exact Hp).
Qed.

(** A text over the limit stays over the limit when separated. *)
Lemma separated_long (max_length : nat) (text : pystr) :
  (max_length < length text)%nat ->
  (max_length < length (separated max_length text))%nat.
Proof.
  intros Hlong.
  destruct (forallb (fun p => length p <=? max_length)%nat
                    (split [NL; NL] text)) eqn:E.
  - rewrite separated_short, length_app; [lia|].
    rewrite forallb_forall in E. apply List.Forall_forall.
    intros p Hp. apply Nat.leb_le. now apply E.
  - unfold separated. clear Hlong.
    induction (split [NL; NL] text) as [|p ps IH]; [discriminate E|].
    cbn [forallb flat_map] in *. rewrite !length_app.
    destruct (length p <=? max_length)%nat eqn:Ep.
    + specialize (IH E). lia.
    + apply Nat.leb_gt in Ep. lia.
Qed.

Lemma lstrip_leading (s : pystr) :
  exists l, blank l /\ s = l ++ lstrip_set is_space s.
Proof.
  induction s as [|c s (l & Hl & E)]; [exists []; split; [constructor|reflexivity]|].
  cbn [lstrip_set]. change (code c) with c.
  destruct (is_space c) eqn:Hc.
  - exists (c :: l). split; [now constructor|]. cbn [app]. now f_equal.
  - exists []. split; [constructor|reflexivity].
Qed.

(** A string is its stripped form with whitespace around it. *)
Lemma strip_inside (s : pystr) :
  exists l r, blank l /\ blank r /\ s = l ++ strip s ++ r.
Proof.
  destruct (lstrip_leading s) as (l & Hl & El).
  destruct (lstrip_leading (rev (lstrip_set is_space s))) as (r & Hr & Er).
  exists l, (rev r). split; [exact Hl|]. split; [now apply Forall_rev|].
  unfold strip, strip_set, rstrip_set.
  rewrite <- rev_app_distr, <- Er, rev_involutive. exact El.
Qed.

Lemma blank_app (a b : pystr) : blank a -> blank b -> blank (a ++ b).
Proof. intros Ha Hb. apply Forall_app. now split. Qed.

Lemma weave_last (r : pystr) :
  forall parts gaps gap,
    length gaps = length parts ->
    weave (gaps ++ [gap ++ r]) parts = weave (gaps ++ [gap]) parts ++ r.
Proof.
  induction parts as [|part parts IH]; intros [|g gaps] gap Hlen;
    try discriminate Hlen; [reflexivity|].
  cbn [app weave]. rewrite IH by (cbn in Hlen; lia).
  now rewrite <- !app_assoc.
Qed.

Lemma weave_snoc (part r : pystr) :
  forall parts gaps gap,
    length gaps = length parts ->
    weave ((gaps ++ [gap]) ++ [r]) (parts ++ [part])
    = weave (gaps ++ [gap]) parts ++ part ++ r.
Proof.
  induction parts as [|p parts IH]; intros [|g gaps] gap Hlen;
    try discriminate Hlen; [reflexivity|].
  cbn [app weave]. rewrite IH by (cbn in Hlen; lia).
  now rewrite <- !app_assoc.
Qed.

(** The chunker closes the current part and starts the next with
    [piece]. *)
Lemma chunked_flush max_length parts current_part done (piece : pystr) :
  chunked max_length (parts, current_part) done ->
  chunked max_length (parts ++ [strip current_part], piece) (done ++ piece).
Proof.
  intros [(gaps & gap & Hlen & Hgaps & Hgap & E) _]. cbn [fst snd] in *.
  split; [|intros Hnil; now destruct parts].
  destruct (strip_inside current_part) as (l & r & Hl & Hr & Ecur).
  exists (gaps ++ [gap ++ l]), r. cbn [fst snd].
  split; [rewrite !length_app; cbn [length]; lia|].
  split; [apply Forall_app; split;
          [exact Hgaps|constructor; [now apply blank_app|constructor]]|].
  split; [exact Hr|].
  rewrite weave_snoc, weave_last by exact Hlen.
  rewrite <- E. rewrite Ecur at 2. now rewrite <- !app_assoc.
Qed.

(** The chunker adds [piece] to the current part. *)
Lemma chunked_append max_length parts current_part done (piece : pystr) :
  chunked max_length (parts, current_part) done ->
  (length current_part + length piece <= max_length)%nat ->
  chunked max_length (parts, current_part ++ piece) (done ++ piece).
Proof.
  intros [(gaps & gap & Hlen & Hgaps & Hgap & E) Hfirst] Hfit.
  cbn [fst snd] in *. split.
  - exists gaps, gap. cbn [fst snd]. repeat (split; [assumption|]).
    now rewrite <- E, <- !app_assoc.
  - cbn [fst snd]. intros Hnil. destruct (Hfirst Hnil) as [<- _].
    split; [reflexivity|]. rewrite length_app. lia.
Qed.

Lemma add_line_chunked max_length st (line : pystr) :
  (length line <= max_length)%nat ->
  exists st',
    add_line max_length st line = Some st'
    /\ forall done, chunked max_length st done ->
                    chunked max_length st' (done ++ line ++ [NL]).
Proof.
  intros Hfit. destruct st as [parts current_part]. unfold add_line.
  replace (max_length <? length line)%nat with false
    by (symmetry; apply Nat.ltb_ge; exact Hfit).
  destruct (max_length <? length current_part + length line + 1)%nat eqn:E;
    eexists; (split; [reflexivity|]); intros done Hinv.
  - now apply chunked_flush.
  - apply chunked_append; [exact Hinv|].
    apply Nat.ltb_ge in E. rewrite length_app. cbn [length]. lia.
Qed.

Lemma add_lines_chunked max_length (lines : list pystr) :
  Forall (fun line => (length line <= max_length)%nat) lines ->
  forall st,
  exists st',
    add_lines max_length st lines = Some st'
    /\ forall done, chunked max_length st done ->
         chunked max_length st'
                 (done ++ flat_map (fun line => line ++ [NL]) lines).
Proof.
  induction 1 as [|line lines Hfit _ IH]; intros st.
  - exists st. split; [reflexivity|]. intros done Hinv.
    cbn [flat_map]. now rewrite app_nil_r.
  - destruct (add_line_chunked max_length st line Hfit) as (st1 & E1 & H1).
    destruct (IH st1) as (st2 & E2 & H2).
    exists st2. cbn [add_lines]. rewrite E1. split; [exact E2|].
    intros done Hinv. cbn [flat_map].
    rewrite app_assoc. apply H2. now apply H1.
Qed.

Lemma add_paragraph_chunked max_length st (paragraph : pystr) :
  Forall (fun line => (length line <= max_length)%nat) (split [NL] paragraph) ->
  exists st',
    add_paragraph max_length st paragraph = Some st'
    /\ forall done, chunked max_length st done ->
         chunked max_length st'
                 (done ++ paragraph ++ separator_after max_length paragraph).
Proof.
  intros Hfit. destruct st as [parts current_part].
  unfold add_paragraph, separator_after.
  destruct (max_length <? length paragraph)%nat.
  - destruct (add_lines_chunked max_length _ Hfit
                (if negb (is_empty current_part)
                 then (parts ++ [strip current_part], [])
                 else (parts, current_part))) as (st' & E & H).
    exists st'. split; [exact E|]. intros done Hinv.
    rewrite <- closed_lines. apply H.
    destruct current_part as [|c current_part]; cbn [is_empty negb];
      [exact Hinv|].
    rewrite <- (app_nil_r done). now apply chunked_flush.
  - destruct (max_length <? length current_part + length paragraph + 2)%nat
      eqn:E; eexists; (split; [reflexivity|]); intros done Hinv.
    + now apply chunked_flush.
    + apply chunked_append; [exact Hinv|].
      apply Nat.ltb_ge in E. rewrite length_app. cbn [length]. lia.
Qed.

Lemma add_paragraphs_chunked max_length (paragraphs : list pystr) :
  Forall (fun paragraph =>
            Forall (fun line => (length line <= max_length)%nat)
                   (split [NL] paragraph)) paragraphs ->
  forall st,
  exists st',
    add_paragraphs max_length st paragraphs = Some st'
    /\ forall done, chunked max_length st done ->
         chunked max_length st'
           (done ++ flat_map (fun paragraph =>
                                paragraph ++ separator_after max_length paragraph)
                             paragraphs).
Proof.
  induction 1 as [|paragraph paragraphs Hfit _ IH]; intros st.
  - exists st. split; [reflexivity|]. intros done Hinv.
    cbn [flat_map]. now rewrite app_nil_r.
  - destruct (add_paragraph_chunked max_length st paragraph Hfit)
      as (st1 & E1 & H1).
    destruct (IH st1) as (st2 & E2 & H2).
    exists st2. cbn [add_paragraphs]. rewrite E1. split; [exact E2|].
    intros done Hinv. cbn [flat_map].
    rewrite app_assoc. apply H2. now apply H1.
Qed.

Lemma paragraphs_of_short (text : pystr) (max_length : nat) :
  (length text <= max_length)%nat ->
  Forall (fun paragraph => (length paragraph <= max_length)%nat)
         (split [NL; NL] text).
Proof.
  intros Hfit. apply List.Forall_forall. intros p Hp.
  pose proof (piece_length [NL; NL] _ _ Hp) as Hlen.
  rewrite join_split in Hlen by discriminate. lia.
Qed.

Lemma chunked_start (max_length : nat) : chunked max_length ([], []) [].
Proof.
  split; [|intros _; split; [reflexivity|apply Nat.le_0_l]].
  exists [], []. repeat split; constructor.
Qed.

(** C5 (amended). When no line of the text is longer than the limit, the
    chunks lie in the text, in their order, whole and untouched, and what
    lies before, between and after them is whitespace only.  The text is
    read here with every paragraph followed by the separator the chunker
    writes after it: the text itself with a closing blank line when every
    paragraph fits, and the text with a single line break in place of the
    blank line after each paragraph that does not fit.  So no character
    other than whitespace is lost, moved or joined to another, and every
    line break and blank inside a chunk is one of the text; whitespace is
    lost at the ends of the chunks only. *)
Theorem split_message_keeps_text (text : pystr) (max_length : nat) :
  lines_fit text max_length ->
  exists chunks gaps,
    split_message text max_length = Some chunks
    /\ length gaps = S (length chunks)
    /\ Forall blank gaps
    /\ weave gaps chunks = separated max_length text
    /\ join [NL; NL] (split [NL; NL] text) = text
    /\ (Forall (fun paragraph => (length paragraph <= max_length)%nat)
               (split [NL; NL] text) ->
        separated max_length text = text ++ [NL; NL])
    /\ visible (concat chunks) = visible text.
Proof.
  intros Hfit.
  destruct (split_message_visible text max_length Hfit) as (chunks & E & Hvis).
  exists chunks.
  assert (Hblank2 : blank [NL; NL]) by (repeat constructor).
  assert (Hgaps : exists gaps,
             length gaps = S (length chunks) /\ Forall blank gaps
             /\ weave gaps chunks = separated max_length text).
  { revert E. unfold split_message.
    destruct (is_empty text) eqn:Hempty.
    { destruct text; [|discriminate Hempty]. intros [= <-].
      exists [[]; [NL; NL]]. repeat split. repeat constructor. }
    destruct (length text <=? max_length)%nat eqn:Hshort.
    { apply Nat.leb_le in Hshort. intros [= <-].
      exists [[]; [NL; NL]]. split; [reflexivity|].
      split; [repeat constructor|].
      rewrite separated_short by now apply paragraphs_of_short.
      reflexivity. }
    apply Nat.leb_gt in Hshort.
    destruct (add_paragraphs_chunked max_length _ Hfit ([], []))
      as ([parts current_part] & Erun & Hinv).
    specialize (Hinv [] (chunked_start max_length)). cbn [app] in Hinv.
    fold (separated max_length text) in Hinv.
    unfold pystr in Erun |- *. rewrite Erun.
    destruct Hinv as [(gaps & gap & Hlen & Hg & Hgap & Eweave) Hfirst].
    cbn [fst snd] in *.
    destruct (strip_inside current_part) as (l & r & Hl & Hr & Ecur).
    destruct (is_empty (strip current_part)) eqn:Hstrip; cbn [negb].
    - destruct (strip current_part); [|discriminate Hstrip].
      cbn [app] in Ecur.
      destruct parts as [|part parts]; cbn [is_empty negb].
      + destruct (Hfirst eq_refl) as [_ Hle].
        pose proof (separated_long max_length text Hshort). lia.
      + intros [= <-]. exists (gaps ++ [gap ++ current_part]).
        split; [rewrite length_app; unfold pystr in *; cbn [length] in *; lia|].
        split.
        { apply Forall_app. split; [exact Hg|].
          constructor; [|constructor]. apply blank_app; [exact Hgap|].
          rewrite Ecur. now apply blank_app. }
        rewrite weave_last by exact Hlen. exact Eweave.
    - assert (Hne : is_empty (parts ++ [strip current_part]) = false)
        by now destruct parts.
      unfold pystr in *. rewrite Hne. cbn [negb]. intros [= <-].
      exists ((gaps ++ [gap ++ l]) ++ [r]).
      split; [rewrite !length_app; unfold pystr in *; cbn [length]; lia|].
      split.
      { apply Forall_app. split; [|now repeat constructor].
        apply Forall_app. split; [exact Hg|].
        constructor; [now apply blank_app|constructor]. }
      rewrite weave_snoc, weave_last by exact Hlen.
      rewrite <- Eweave. rewrite Ecur at 2. now rewrite <- !app_assoc. }
  destruct Hgaps as (gaps & Hlen & Hg & Hw).
  exists gaps. split; [exact E|]. split; [exact Hlen|]. split; [exact Hg|].
  split; [exact Hw|]. split; [now apply join_split|].
  split; [apply separated_short|exact Hvis].
Qed.

Lemma split_message_keeps_text_witness :
  let text := [97; 98; 10; 99; 100; 10; 10; 101; 102; 32; 103; 104] in
  exists chunks gaps,
    split_message text 8 = Some chunks
    /\ length gaps = S (length chunks)
    /\ Forall blank gaps
    /\ weave gaps chunks = separated 8 text
    /\ join [NL; NL] (split [NL; NL] text) = text
    /\ (Forall (fun paragraph => (length paragraph <= 8)%nat)
               (split [NL; NL] text) ->
        separated 8 text = text ++ [NL; NL])
    /\ visible (concat chunks) = visible text.
Proof.
  apply (split_message_keeps_text
           [97; 98; 10; 99; 100; 10; 10; 101; 102; 32; 103; 104] 8).
  unfold lines_fit. vm_compute.
  repeat constructor.
Defined.

(** ** Text formatter *)

Section Preserve.

Context {C : Type} `{Char C}.
Variable P : C -> Prop.

Lemma lstrip_set_keeps p (s : list C) : Forall P s -> Forall P (lstrip_set p s).
Proof.
  induction 1 as [|c s Hc Hs IH]; cbn [lstrip_set]; [constructor|].
  destruct (p (code c)); [exact IH | now constructor].
Qed.

Lemma strip_set_keeps p (s : list C) : Forall P s -> Forall P (strip_set p s).
Proof.
  intros Hs. unfold strip_set, rstrip_set.
  apply List.Forall_rev, lstrip_set_keeps, List.Forall_rev, lstrip_set_keeps, Hs.
Qed.

Lemma rstrip_keeps (s : list C) : Forall P s -> Forall P (rstrip s).
Proof.
  intros Hs. unfold rstrip, rstrip_set.
  apply List.Forall_rev, lstrip_set_keeps, List.Forall_rev, Hs.
Qed.

Lemma replace_go_keeps old (new : list C) :
  Forall P new ->
  forall (s : list C) skip, Forall P s -> Forall P (replace_go old new skip s).
Proof.
  intros Hnew. induction s as [|c s IH]; intros skip Hs; [constructor|].
  inversion Hs as [|? ? Hc Hs']; subst. cbn [replace_go].
  destruct skip; [|now apply IH].
  destruct (startswith (c :: s) old).
  - apply Forall_app. split; [exact Hnew | now apply IH].
  - constructor; [exact Hc | now apply IH].
Qed.

Lemma replace_keeps old (new s : list C) :
  Forall P new -> Forall P s -> Forall P (replace old new s).
Proof. intros. now apply replace_go_keeps. Qed.

Lemma split_go_keeps sep :
  forall (s : list C) skip,
    Forall P s -> Forall (Forall P) (split_go sep skip s).
Proof.
  induction s as [|c s IH]; intros skip Hs; [repeat constructor|].
  inversion Hs as [|? ? Hc Hs']; subst. cbn [split_go].
  destruct skip; [|now apply IH].
  destruct (startswith (c :: s) sep).
  - constructor; [constructor | now apply IH].
  - specialize (IH 0%nat Hs').
    destruct (split_go sep 0 s) as [|piece pieces].
    + repeat constructor. exact Hc.
    + inversion IH; subst. constructor; [now constructor | assumption].
Qed.

Lemma splitlines_go_keeps :
  forall (s : list C) after_cr,
    Forall P s -> Forall (Forall P) (splitlines_go after_cr s).
Proof.
  induction s as [|c s IH]; intros after_cr Hs; [constructor|].
  inversion Hs as [|? ? Hc Hs']; subst. cbn [splitlines_go].
  destruct (after_cr && _); [now apply IH|].
  destruct (is_linebreak (code c)).
  - constructor; [constructor | now apply IH].
  - specialize (IH false Hs').
    destruct (splitlines_go false s) as [|line lines].
    + repeat constructor. exact Hc.
    + inversion IH; subst. constructor; [now constructor | assumption].
Qed.








End Preserve.

Section Sound.

Context {C : Type} `{Char C}.
Variable s : list C.

Lemma star_loop_sound g a
    (body : nat -> captures -> (nat -> captures -> matched) -> matched) k :
  (forall i caps k' res,
      body i caps k' = Some res ->
      exists j caps', matches s a i caps j caps' /\ k' j caps' = Some res) ->
  forall fuel i caps res,
    star_loop body g k fuel i caps = Some res ->
    exists j caps', matches s (Star g a) i caps j caps' /\ k j caps' = Some res.
Proof.
  intros Hbody. induction fuel as [|fuel IH]; intros i caps res Hrun;
    cbn [star_loop] in Hrun.
  { exists i, caps. split; [constructor | exact Hrun]. }
  assert (Hagain : forall res',
    body i caps
         (fun j caps' =>
            if (i <? j)%nat then star_loop body g k fuel j caps' else None)
    = Some res' ->
    exists j caps', matches s (Star g a) i caps j caps' /\ k j caps' = Some res').
  { intros res' E. apply Hbody in E as (j & caps' & Hm & Hk).
    destruct (i <? j)%nat; [|discriminate Hk].
    apply IH in Hk as (l & caps'' & Hm' & Hk').
    exists l, caps''. split; [|exact Hk']. eapply M_star_more; eassumption. }
  destruct g.
  - destruct (body i caps _) as [res'|] eqn:E.
    + injection Hrun as <-. now apply Hagain.
    + exists i, caps. split; [constructor | exact Hrun].
  - destruct (k i caps) as [res'|] eqn:E.
    + injection Hrun as <-. exists i, caps. split; [constructor | exact E].
    + now apply Hagain.
Qed.

(** Whatever the matcher reports is a match. *)
Lemma mexec_sound r :
  forall i caps k res,
    mexec r s i caps k = Some res ->
    exists j caps', matches s r i caps j caps' /\ k j caps' = Some res.
Proof.
  induction r as [|p|a IHa b IHb|a IHa b IHb|g a IHa|n a IHa|n| | |p|p];
    intros i caps k res Hrun; cbn [mexec] in Hrun.
  - exists i, caps. split; [constructor | exact Hrun].
  - destruct (s !! i) as [c|] eqn:Hc; [|discriminate Hrun].
    destruct (p (code c)) eqn:Hp; [|discriminate Hrun].
    exists (S i), caps. split; [econstructor; eassumption | exact Hrun].
  - apply IHa in Hrun as (j & caps' & Hm & Hrun).
    apply IHb in Hrun as (l & caps'' & Hm' & Hk).
    exists l, caps''. split; [econstructor; eassumption | exact Hk].
  - destruct (mexec a s i caps k) as [res'|] eqn:E.
    + injection Hrun as <-. apply IHa in E as (j & caps' & Hm & Hk).
      exists j, caps'. split; [now apply M_alt_l | exact Hk].
    + apply IHb in Hrun as (j & caps' & Hm & Hk).
      exists j, caps'. split; [now apply M_alt_r | exact Hk].
  - eapply star_loop_sound; [|exact Hrun].
    intros i' caps' k' res' E. now apply IHa.
  - apply IHa in Hrun as (j & caps' & Hm & Hk).
    exists j, ((n, (i, j)) :: caps'). split; [now constructor | exact Hk].
  - destruct (cap_get n caps) as [[a b]|]; [|discriminate Hrun].
    destruct (same_codes _ _); [|discriminate Hrun].
    eexists _, caps. split; [constructor | exact Hrun].
  - exists i, caps. split; [constructor|].
    destruct i as [|i']; [exact Hrun|].
    destruct (s !! i') as [c|]; [|discriminate Hrun].
    now destruct (code c =? NL).
  - exists i, caps. split; [constructor|].
    destruct (s !! i) as [c|].
    + now destruct (code c =? NL).
    + now destruct (i =? length s)%nat.
  - exists i, caps. split; [constructor|].
    destruct (s !! i) as [c|]; [|exact Hrun].
    now destruct (p (code c)).
  - exists i, caps. split; [constructor|].
    destruct i as [|i']; [exact Hrun|].
    destruct (s !! i') as [c|]; [|exact Hrun].
    now destruct (p (code c)).
Qed.

(** A starred class takes characters of the class only and captures
    nothing. *)
Lemma matches_star_class g p i caps j caps' :
  matches s (Star g (Chr p)) i caps j caps' ->
  caps' = caps /\ (i <= j)%nat
  /\ forall x, (i <= x < j)%nat ->
               exists c, s !! x = Some c /\ p (code c) = true.
Proof.
  intros Hm. remember (Star g (Chr p)) as r eqn:Hr.
  induction Hm as [| | | | | |g' a i caps j caps' l caps'' Hbody _ Hrest IH
                   | | | | | |]; try discriminate Hr.
  - repeat split; [lia|]. intros x Hx. lia.
  - injection Hr as -> ->. specialize (IH eq_refl) as (-> & Hle & Hall).
    inversion Hbody as [|p' i' caps0 c Hc Hp| | | | | | | | | | |]; subst.
    repeat split; [lia|]. intros x Hx.
    destruct (decide (x = i)) as [->|Hne]; [eauto|].
    apply Hall. lia.
Qed.

Lemma matches_lit l :
  forall i caps j caps', matches s (Lit l) i caps j caps' -> caps' = caps.
Proof.
  induction l as [|c l IH]; intros i caps j caps' Hm; cbn [Lit] in Hm.
  - now inversion Hm.
  - inversion Hm as [| |a b i' caps0 j' caps1 l' caps2 Ha Hb| | | | | | | | | |];
      subst.
    inversion Ha; subst. now apply IH in Hb.
Qed.

Lemma slice_all (Q : C -> Prop) a b :
  (forall x, (a <= x < b)%nat -> exists c, s !! x = Some c /\ Q c) ->
  Forall Q (slice s a b).
Proof.
  intros Hall. unfold slice. apply Forall_lookup. intros y c Hy.
  apply lookup_take_Some in Hy as [Hy Hlt]. rewrite lookup_drop in Hy.
  destruct (Hall (a + y)%nat) as (c' & Hc' & HQ); [lia|]. congruence.
Qed.

End Sound.


Lemma written_harmless (l : pystr) : Forall harmless (map lit l).
Proof.
  induction l as [|c l IH]; [constructor|].
  cbn [map]. constructor; [|exact IH]. intros _. reflexivity.
Qed.

Lemma w_harmless (t : string) : Forall harmless (w t).
Proof. apply written_harmless. Qed.

(** Replacing a character by written text leaves no input occurrence of
    it. *)
Lemma replace_char_gone (x : N) (new : list marked) :
  Forall (fun c => m_origin c = Written) new ->
  forall s : list marked,
    Forall (fun c => m_origin c = Written \/ m_code c <> x)
           (replace [x] new s).
Proof.
  intros Hnew. unfold replace.
  induction s as [|c s IH]; [constructor|].
  cbn [replace_go startswith length Nat.pred code marked_char].
  replace (startswith s []) with true by (now destruct s).
  rewrite andb_true_r. destruct (m_code c =? x) eqn:E.
  - apply Forall_app. split; [|exact IH].
    eapply Forall_impl; [exact Hnew|]. cbn. auto.
  - apply N.eqb_neq in E. constructor; [now right | exact IH].
Qed.

Lemma written_all (l : pystr) :
  Forall (fun c : marked => m_origin c = Written) (map lit l).
Proof. induction l; cbn [map]; constructor; auto. Qed.

(** Whatever it is given, [escape_html] returns text without an angle
    bracket of the input. *)
Lemma escape_html_harmless (text : list marked) :
  Forall harmless (escape_html text).
Proof.
  unfold escape_html.
  set (s1 := replace (u "&") (w "&amp;") text).
  assert (H2 : Forall (fun c => m_origin c = Written \/ m_code c <> 60)
                      (replace (u "<") (w "&lt;") s1))
    by (apply replace_char_gone, written_all).
  set (s2 := replace (u "<") (w "&lt;") s1) in *.
  assert (H3 : Forall (fun c => m_origin c = Written \/ m_code c <> 62)
                      (replace (u ">") (w "&gt;") s2))
    by (apply replace_char_gone, written_all).
  assert (H3' : Forall (fun c => m_origin c = Written \/ m_code c <> 60)
                       (replace (u ">") (w "&gt;") s2)).
  { apply replace_keeps; [|exact H2].
    eapply Forall_impl; [apply written_all|]. cbn. auto. }
  set (s3 := replace (u ">") (w "&gt;") s2) in *.
  apply Forall_forall. intros c Hin.
  rewrite Forall_forall in H3, H3'.
  specialize (H3 c Hin). specialize (H3' c Hin).
  intros Hangle. unfold is_angle in Hangle.
  apply orb_prop in Hangle as [E|E]; apply N.eqb_eq in E;
    destruct H3 as [?|?], H3' as [?|?]; congruence.
Qed.


Ltac harmless_parts :=
  repeat (apply Forall_app; split);
  try apply w_harmless;
  try apply (written_harmless [_]);
  try apply escape_html_harmless.









(** *** The same program runs on plain and on marked characters *)

Section Erase.

Context {C1 C2 : Type} `{Char C1} `{Char C2}.
Variable h : C1 -> C2.
Hypothesis h_code : forall c, code (h c) = code c.
Hypothesis h_lit : forall n, h (lit n) = lit n.


Lemma startswith_map (s : list C1) p : startswith (map h s) p = startswith s p.
Proof.
  revert s. induction p as [|y p IH]; intros [|x s]; cbn; auto.
  now rewrite h_code, IH.
Qed.






Lemma replace_go_map old (new : list C1) :
  forall (s : list C1) skip,
    replace_go old (map h new) skip (map h s)
    = map h (replace_go old new skip s).
Proof.
  induction s as [|c s IH]; intros skip; [reflexivity|].
  cbn [map replace_go]. destruct skip; [|apply IH].
  change (h c :: map h s) with (map h (c :: s)). rewrite startswith_map.
  destruct (startswith (c :: s) old).
  - now rewrite List.map_app, IH.
  - cbn [map]. now rewrite IH.
Qed.

Lemma replace_map old (new s : list C1) :
  replace old (map h new) (map h s) = map h (replace old new s).
Proof. apply replace_go_map. Qed.
















Lemma w_map t : map h (w t) = w t.
Proof.
  unfold w. induction (u t) as [|c l IH]; [reflexivity|].
  cbn [map]. now rewrite h_lit, IH.
Qed.



Lemma replace_w_map old t (s : list C1) :
  replace old (w t) (map h s) = map h (replace old (w t) s).
Proof.
  rewrite <- replace_map. f_equal. symmetry. apply w_map.
Qed.

Lemma escape_html_map (s : list C1) :
  escape_html (map h s) = map h (escape_html s).
Proof. unfold escape_html. now rewrite !replace_w_map. Qed.

Variable unicode_word : N -> bool.

Lemma is_empty_map {A B : Type} (f : A -> B) (l : list A) :
  is_empty (map f l) = is_empty l.
Proof. now destruct l. Qed.

















End Erase.

Lemma m_code_reads (c : marked) : code (m_code c) = code c.
Proof. reflexivity. Qed.

Lemma m_code_writes (n : N) : m_code (lit n) = lit n.
Proof. reflexivity. Qed.

(** *** Escaped text reaches the output *)

Lemma replace_single (x : N) (new : pystr) (s : pystr) :
  replace [x] new s = flat_map (fun c => if c =? x then new else [c]) s.
Proof.
  unfold replace. induction s as [|c s IH]; [reflexivity|].
  cbn [replace_go startswith code plain_char flat_map length Nat.pred].
  replace (startswith s []) with true by (now destruct s).
  rewrite andb_true_r, IH. destruct (c =? x); reflexivity.
Qed.

Lemma escape_html_flat_map (s : pystr) :
  escape_html s = flat_map escape_char s.
Proof.
  unfold escape_html.
  change (u ">") with [62]. change (u "<") with [60].
  change (u "&") with [38]. rewrite !replace_single.
  induction s as [|c s IH]; [reflexivity|].
  cbn [flat_map]. rewrite !flat_map_app, IH. f_equal.
  unfold escape_char.
  destruct (N.eqb_spec c 38) as [->|H38]; [reflexivity|].
  cbn [flat_map app].
  destruct (N.eqb_spec c 60) as [->|H60]; [reflexivity|].
  cbn [flat_map app].
  destruct (N.eqb_spec c 62) as [->|H62]; reflexivity.
Qed.

Lemma matches_requires (Q : N -> Prop) (s : pystr) r i caps j caps' :
  matches s r i caps j caps' ->
  requires Q r ->
  exists c, In c s /\ Q c.
Proof.
  induction 1; cbn [requires]; try contradiction.
  - intros Hq. exists c. split; [|now apply Hq].
    apply list_elem_of_In. eapply list_elem_of_lookup_2. eassumption.
  - intros [Hq|Hq]; auto.
  - intros [Hq _]. auto.
  - intros [_ Hq]. auto.
  - auto.
Qed.

Lemma search_go_sound r (s : pystr) :
  forall fuel pos i j caps,
    search_go fuel r s pos = Some (i, j, caps) -> matches s r i [] j caps.
Proof.
  induction fuel as [|fuel IH]; intros pos i j caps; cbn [search_go];
    unfold match_at;
    destruct (mexec r s pos [] (fun j caps => Some (j, caps)))
      as [[j' caps']|] eqn:E; try discriminate; try apply IH.
  all: intros [= <- <- <-];
    apply mexec_sound in E as (j0 & caps0 & Hm & [= <- <-]); exact Hm.
Qed.

Lemma search_absent (Q : N -> Prop) r (s : pystr) pos :
  requires Q r ->
  (forall c, In c s -> ~ Q c) ->
  search r s pos = None.
Proof.
  intros Hr Hs. destruct (search r s pos) as [[[i j] caps]|] eqn:E;
    [|reflexivity].
  exfalso. unfold search in E. destruct (pos <=? length s)%nat; [|discriminate E].
  apply search_go_sound in E.
  destruct (matches_requires Q s r i [] j caps E Hr) as (c & Hin & Hq).
  exact (Hs c Hin Hq).
Qed.

Lemma sub_absent r (repl : pystr -> found -> pystr) (s : pystr) :
  search r s 0 = None -> sub r repl s = s.
Proof.
  intros E. unfold sub, sub_with.
  destruct (length s); cbn [sub_go]; rewrite E; reflexivity.
Qed.






























Example format_script_in_text :
  format_for_telegram (fun _ => false) (u "a <script> b")
  = u "a &lt;script&gt; b".
Proof. vm_compute. reflexivity. Qed.

Example format_script_in_code :
  format_for_telegram (fun _ => false) (u "`<script>` **x**")
  = u "<code>&lt;script&gt;</code> <b>x</b>".
Proof. vm_compute. reflexivity. Qed.

Example format_script_in_table :
  format_for_telegram (fun _ => false) (u "|<script>|b|")
  = u "<pre>&lt;script&gt; | b</pre>".
Proof. vm_compute. reflexivity. Qed.

(** * Further properties *)

(** ** Session store: inside the timeout *)

(** X1. While a chat is stored and the last activity is at most
    [MEMORY_TIMEOUT] seconds old, [get_or_create_session] hands out the stored
    chat, creates nothing, and changes nothing of the dictionary but
    [last_activity], which becomes the time of the call. *)
Theorem get_or_create_session_fresh
    (current_time reset_time : Q) (next : nat) (d : user_data) (c : Chat) :
  chat_session d = Some c ->
  (current_time - last_seen d <= MEMORY_TIMEOUT)%Q ->
  get_or_create_session current_time reset_time next d
  = (set_last_activity (Some current_time) d, next, Some c).
Proof.
  intros Hc Hfresh. unfold get_or_create_session.
  rewrite Hc, (Qgtb_false _ _ Hfresh). cbn [orb chat_session set_last_activity].
  rewrite Hc. reflexivity.
Qed.

Lemma get_or_create_session_fresh_witness :
  get_or_create_session 300 300 1 stale_session
  = (set_last_activity (Some 300%Q) stale_session, 1%nat,
     Some {| chat_id := 0; chat_model := flash |}).
Proof.
  apply (get_or_create_session_fresh 300 300 1 stale_session
           {| chat_id := 0; chat_model := flash |}).
  - reflexivity.
  - vm_compute. discriminate.
Defined.

Lemma get_or_create_session_known current_time reset_time next d :
  known_chat next d ->
  let '(d', next', chat) :=
    get_or_create_session current_time reset_time next d in
  known_chat next' d' /\ (next <= next')%nat /\ chat = chat_session d'
  /\ chat <> None.
Proof.
  unfold get_or_create_session, known_chat. intros Hk.
  destruct (chat_session d) as [c|] eqn:Hc; cbn [orb].
  - destruct (Qgtb _ _).
    + rewrite reset_session_fields. cbn. repeat split; try lia. discriminate.
    + cbn. rewrite Hc. repeat split; try lia; try exact Hk. discriminate.
  - rewrite reset_session_fields. cbn. repeat split; try lia. discriminate.
Qed.

(** ** Mode dispatcher: what the steps keep *)

Lemma edit_prompt_unhandled env m next d :
  handled (_process_photo_edit_prompt env m next d) = false ->
  mode d <> Some awaiting_edit_prompt
  /\ _process_photo_edit_prompt env m next d
     = {| handled := false; data := d; chats := next; sent := [] |}.
Proof.
  unfold _process_photo_edit_prompt.
  destruct (mode d) as [[]|]; cbn [handled]; intros Hh;
    try (split; [discriminate|reflexivity]).
  destruct (photo_task d); [destruct (ai_ok env)|]; discriminate Hh.
Qed.

Lemma edit_prompt_skipped env m next d :
  mode d <> Some awaiting_edit_prompt ->
  _process_photo_edit_prompt env m next d
  = {| handled := false; data := d; chats := next; sent := [] |}.
Proof.
  unfold _process_photo_edit_prompt. intros Hmode.
  destruct (mode d) as [[]|]; try reflexivity. now destruct Hmode.
Qed.

(** The dispatcher by cases: the edit-prompt step takes every message in
    [awaiting_edit_prompt]; otherwise the message goes to the first of the
    exit step, the shorthand commands, the reply-to-photo step and the mode
    branches that takes it. *)
Lemma dispatch_cases lower_other env m next d (P : Outcome -> Prop) :
  (mode d = Some awaiting_edit_prompt ->
   P (_process_photo_edit_prompt env m next d)) ->
  (forall mo, mode d = Some mo -> mo <> awaiting_edit_prompt ->
     str_in (lower lower_other (strip (text m))) EXIT_WORDS = true ->
     P {| handled := true; data := set_mode None d; chats := next;
          sent := [ReplyModeOff (mode_off_message mo)] |}) ->
  (mode d <> Some awaiting_edit_prompt ->
   handled (_process_fast_commands env (strip (text m))
              (lower lower_other (strip (text m))) next d) = true ->
   P (_process_fast_commands env (strip (text m))
        (lower lower_other (strip (text m))) next d)) ->
  (mode d <> Some awaiting_edit_prompt ->
   reply_has_photo m = true -> P (_process_reply_to_photo env m next d)) ->
  (mode d <> Some awaiting_edit_prompt ->
   P (match mode d with
      | Some image_gen => _process_image_gen_mode env (text m) next (set_mode None d)
      | Some youtube_mode => _process_youtube_mode env (text m) next (set_mode None d)
      | Some translate => _process_translation_mode env (text m) next d
      | _ => chat_turn env m next d
      end)) ->
  P (dispatch lower_other env m next d).
Proof.
  intros H1 H2 H3 H4 H5. unfold dispatch.
  destruct (handled (_process_photo_edit_prompt env m next d)) eqn:E1.
  - apply H1. unfold _process_photo_edit_prompt in E1.
    destruct (mode d) as [[]|]; try discriminate E1. reflexivity.
  - apply edit_prompt_unhandled in E1 as [Hmode E1]. rewrite E1.
    cbn [handled data chats].
    destruct (handled (_process_exit_commands _ next d)) eqn:E2.
    + unfold _process_exit_commands in E2 |- *.
      destruct (str_in _ EXIT_WORDS) eqn:Hexit; cbn [negb] in E2 |- *;
        [|discriminate E2].
      destruct (mode d) as [mo|] eqn:Hmo; [|discriminate E2].
      apply (H2 mo eq_refl); [congruence|reflexivity].
    + assert (E2' : _process_exit_commands (lower lower_other (strip (text m)))
                      next d
                    = {| handled := false; data := d; chats := next; sent := [] |}).
      { unfold _process_exit_commands in E2 |- *.
        destruct (negb _); [reflexivity|].
        destruct (mode d); [discriminate E2|reflexivity]. }
      rewrite E2'. cbn [handled data chats].
      destruct (handled (_process_fast_commands _ _ _ next d)) eqn:E3.
      * now apply H3.
      * rewrite (fast_commands_unhandled _ _ _ _ _ E3). cbn [handled data chats].
        destruct (reply_has_photo m) eqn:Hr.
        -- assert (E4 : handled (_process_reply_to_photo env m next d) = true).
           { unfold _process_reply_to_photo. rewrite Hr. reflexivity. }
           rewrite E4. now apply H4.
        -- unfold _process_reply_to_photo. rewrite Hr.
           cbn [negb handled data chats]. now apply H5.
Qed.

(** [handle_message] by cases: a message that is not admitted changes
    nothing. *)
Lemma handle_message_cases lower_other env m next d (P : Outcome -> Prop) :
  (admitted env m = false ->
   P {| handled := false; data := d; chats := next;
        sent := if negb (is_empty (text m)) && negb (has_access m)
                   && chat_private m
                then [ReplyNoAccess] else [] |}) ->
  (admitted env m = true -> P (dispatch lower_other env m next d)) ->
  P (handle_message lower_other env m next d).
Proof.
  intros Hno Hyes. destruct (admitted env m) eqn:Hadm.
  - rewrite (handle_message_admitted _ _ _ _ _ Hadm). now apply Hyes.
  - specialize (Hno eq_refl). unfold handle_message. unfold admitted in Hadm.
    destruct (is_empty (text m)); cbn [negb andb] in *; [exact Hno|].
    destruct (has_access m); cbn [negb andb] in *.
    + destruct (chat_private m); cbn [negb andb orb] in *; [discriminate Hadm|].
      rewrite Hadm. cbn [negb]. exact Hno.
    + destruct (chat_private m); exact Hno.
Qed.

(** X2. A message that [handle_message] does not admit (no text, a sender
    without access, or a group message that neither replies to the bot nor
    names it) leaves the dictionary and the client as they are and reaches no
    collaborator; the only thing ever sent is the no-access reply, to a
    sender without access in a private chat. *)
Theorem handle_message_not_admitted
    (lower_other : pystr -> nat -> pystr) (env : Env) (m : Message)
    (next : nat) (d : user_data) :
  admitted env m = false ->
  handle_message lower_other env m next d
  = {| handled := false; data := d; chats := next;
       sent := if negb (is_empty (text m)) && negb (has_access m)
                  && chat_private m
               then [ReplyNoAccess] else [] |}.
Proof.
  intros Hadm. apply handle_message_cases; [reflexivity|congruence].
Qed.

Lemma handle_message_not_admitted_witness :
  handle_message keep_case (env_at 1 true)
    {| text := u "hello"; has_access := false; chat_private := true;
       is_reply_to_bot := false; reply_has_photo := false |} 0 awaiting_prompt
  = {| handled := false; data := awaiting_prompt; chats := 0%nat;
       sent := [ReplyNoAccess] |}.
Proof.
  apply (handle_message_not_admitted keep_case (env_at 1 true)
           {| text := u "hello"; has_access := false; chat_private := true;
              is_reply_to_bot := false; reply_has_photo := false |}
           0 awaiting_prompt).
  reflexivity.
Defined.

(** X3. An exit keyword sent while a mode other than [awaiting_edit_prompt]
    is set ends that mode and does nothing else: the rest of the dictionary
    and the client are untouched, no collaborator is called, and the one
    reply is the text [messages.get(current_mode, ...)] picks.  That text
    names the mode for [translate], [image_gen] and [youtube_mode], each
    with a text of its own; for [awaiting_edit_photo] it is the general
    text, which names no mode. *)
Theorem exit_with_mode
    (lower_other : pystr -> nat -> pystr) (env : Env) (m : Message)
    (next : nat) (d : user_data) (mo : Mode) :
  admitted env m = true ->
  mode d = Some mo ->
  mo <> awaiting_edit_prompt ->
  str_in (lower lower_other (strip (text m))) EXIT_WORDS = true ->
  handle_message lower_other env m next d
  = {| handled := true; data := set_mode None d; chats := next;
       sent := [ReplyModeOff (mode_off_message mo)] |}
  /\ (mode_off_message mo = u "✅ Режим выключен." <-> mo = awaiting_edit_photo)
  /\ (forall mo', mo' <> awaiting_edit_prompt ->
        mode_off_message mo' = mode_off_message mo -> mo' = mo).
Proof.
  intros Hadm Hmode Hmo Hexit. split; [|split].
  - rewrite (handle_message_admitted _ _ _ _ _ Hadm). unfold dispatch.
    rewrite edit_prompt_skipped by congruence. cbn [handled data chats].
    unfold _process_exit_commands. rewrite Hexit, Hmode. reflexivity.
  - destruct mo; try (now destruct Hmo);
      (split; [intros E; vm_compute in E; discriminate E | discriminate])
      || (split; reflexivity).
  - intros mo' Hmo' E.
    destruct mo, mo'; try reflexivity; try (now destruct Hmo);
      try (now destruct Hmo'); vm_compute in E; discriminate E.
Qed.

Lemma exit_with_mode_witness :
  handle_message keep_case (env_at 1 true) (private_text (u "Stop")) 0
    (in_mode awaiting_edit_photo)
  = {| handled := true; data := set_mode None (in_mode awaiting_edit_photo);
       chats := 0%nat;
       sent := [ReplyModeOff (mode_off_message awaiting_edit_photo)] |}
  /\ (mode_off_message awaiting_edit_photo = u "✅ Режим выключен."
      <-> awaiting_edit_photo = awaiting_edit_photo)
  /\ (forall mo', mo' <> awaiting_edit_prompt ->
        mode_off_message mo' = mode_off_message awaiting_edit_photo ->
        mo' = awaiting_edit_photo).
Proof.
  apply (exit_with_mode keep_case (env_at 1 true) (private_text (u "Stop")) 0
           (in_mode awaiting_edit_photo) awaiting_edit_photo);
    [reflexivity | reflexivity | discriminate | reflexivity].
Defined.

Lemma fast_commands_known env stripped lower_text next d :
  known_chat next d ->
  keeps_known_chat next (_process_fast_commands env stripped lower_text next d).
Proof.
  intros Hk. unfold _process_fast_commands, handle_image_generation.
  rewrite !reset_session_fields.
  split_ifs; split; cbn; try exact Hk; unfold known_chat; cbn; lia.
Qed.

Lemma chat_turn_known env m next d :
  known_chat next d -> keeps_known_chat next (chat_turn env m next d).
Proof.
  intros Hk. unfold chat_turn.
  set (expired := match active_image d with
                  | Some a => Qgtb (clock env - image_timestamp a) IMAGE_CONTEXT_TIMEOUT
                  | None => false
                  end).
  set (d1 := if expired then set_active_image None d else d).
  assert (Hk1 : known_chat next d1) by (subst d1; destruct expired; exact Hk).
  destruct (if expired then None else active_image d1) as [a|].
  - split; [exact Hk1|cbn; lia].
  - pose proof (get_or_create_session_known (clock env) (later_clock env)
                  next d1 Hk1) as H.
    destruct (get_or_create_session (clock env) (later_clock env) next d1)
      as [[d' n'] chat].
    destruct H as (H1 & H2 & _). split; assumption.
Qed.

(** X4. The chat a dictionary stores is always one the client has already
    created: every handler that can touch the conversation ([handle_message],
    [start], the two model switches, [button_callback]) keeps the stored
    chat's identity below the client's next one, and none of them takes an
    identity back.  This is what makes the chat created after a timeout or
    a reset differ from every chat stored before. *)
Theorem handlers_keep_known_chat
    (lower_other : pystr -> nat -> pystr) (env : Env) (m : Message)
    (access : bool) (b : Button) (next : nat) (d : user_data) :
  known_chat next d ->
  keeps_known_chat next (handle_message lower_other env m next d)
  /\ keeps_known_chat next (start env access next d)
  /\ keeps_known_chat next (set_pro_model env access next d)
  /\ keeps_known_chat next (set_flash_model env access next d)
  /\ keeps_known_chat next (button_callback env access b next d).
Proof.
  intros Hk.
  assert (Hsame : forall d' h a,
             chat_session d' = chat_session d ->
             keeps_known_chat next
               {| handled := h; data := d'; chats := next; sent := a |}).
  { intros d' h a E. split; [|cbn; lia]. unfold known_chat in *. cbn.
    rewrite E. exact Hk. }
  split; [|split; [|split; [|split]]].
  - apply handle_message_cases; intros Hadm; [now apply Hsame|].
    apply dispatch_cases.
    + intros _. unfold _process_photo_edit_prompt.
      destruct (mode d) as [[]|]; try now apply Hsame.
      destruct (photo_task d); [destruct (ai_ok env)|]; now apply Hsame.
    + intros mo _ _ _. now apply Hsame.
    + intros _ _. now apply fast_commands_known.
    + intros _ _. unfold _process_reply_to_photo.
      destruct (negb _); now apply Hsame.
    + intros _. destruct (mode d) as [[]|]; try now apply chat_turn_known.
      * unfold _process_translation_mode. destruct (ai_ok env); now apply Hsame.
      * now apply Hsame.
      * now apply Hsame.
  - unfold start. rewrite reset_session_fields.
    destruct access; cbn [negb]; [|now apply Hsame].
    split; cbn; [unfold known_chat; cbn|]; lia.
  - unfold set_pro_model. rewrite reset_session_fields.
    destruct access; cbn [negb]; [|now apply Hsame].
    split; cbn; [unfold known_chat; cbn|]; lia.
  - unfold set_flash_model. rewrite reset_session_fields.
    destruct access; cbn [negb]; [|now apply Hsame].
    split; cbn; [unfold known_chat; cbn|]; lia.
  - unfold button_callback.
    destruct access; cbn [negb]; [|now apply Hsame].
    destruct (photo_task d) as [task|]; [|now apply Hsame].
    destruct (Qgtb _ _); [now apply Hsame|].
    destruct b; try now apply Hsame.
    destruct (ai_ok env), (photos task); now apply Hsame.
Qed.

Lemma handlers_keep_known_chat_witness :
  keeps_known_chat 1
    (handle_message keep_case (env_at 301 true) (private_text (u "hello")) 1
       stale_session).
Proof.
  apply (handlers_keep_known_chat keep_case (env_at 301 true)
           (private_text (u "hello")) true other_button 1 stale_session).
  unfold known_chat. cbn. lia.
Defined.

Lemma get_or_create_session_frame current_time reset_time next d :
  let d' := fst (fst (get_or_create_session current_time reset_time next d)) in
  photo_task d' = photo_task d
  /\ model d' = model d
  /\ image_model d' = image_model d
  /\ (mode d' = None \/ mode d' = mode d).
Proof.
  unfold get_or_create_session. destruct (_ || _).
  - rewrite reset_session_fields. cbn. auto.
  - cbn. auto.
Qed.

Lemma chat_turn_frame env m next d :
  let d' := data (chat_turn env m next d) in
  photo_task d' = photo_task d
  /\ model d' = model d
  /\ image_model d' = image_model d
  /\ (mode d' = None \/ mode d' = mode d).
Proof.
  unfold chat_turn.
  set (expired := match active_image d with
                  | Some a => Qgtb (clock env - image_timestamp a) IMAGE_CONTEXT_TIMEOUT
                  | None => false
                  end).
  set (d1 := if expired then set_active_image None d else d).
  assert (H1 : photo_task d1 = photo_task d /\ model d1 = model d
               /\ image_model d1 = image_model d /\ mode d1 = mode d)
    by (subst d1; destruct expired; cbn; auto).
  destruct H1 as (Hp & Hm & Hi & Hmo).
  destruct (if expired then None else active_image d1) as [a|].
  - cbn [data]. auto.
  - pose proof (get_or_create_session_frame (clock env) (later_clock env)
                  next d1) as H.
    destruct (get_or_create_session (clock env) (later_clock env) next d1)
      as [[d' n'] chat].
    cbn [fst data] in *. destruct H as (H1 & H2 & H3 & H4).
    rewrite H1, H2, H3, Hp, Hm, Hi, <- Hmo. auto.
Qed.

Lemma fast_commands_mode env stripped lower_text next d :
  mode d <> Some awaiting_edit_prompt ->
  mode (data (_process_fast_commands env stripped lower_text next d))
  <> Some awaiting_edit_prompt.
Proof.
  intros Hmode. unfold _process_fast_commands, handle_image_generation.
  rewrite !reset_session_fields.
  split_ifs; cbn; try exact Hmode; discriminate.
Qed.

(** X5. [handle_message] never enters [awaiting_edit_prompt] and never
    leaves it standing: if the mode is [awaiting_edit_prompt] after the
    handler ran, then it was so before and the message was not admitted.  So
    every admitted text ends a pending edit, whatever the text is and
    whether or not the photo is still there. *)
Theorem handle_message_ends_edit_prompt
    (lower_other : pystr -> nat -> pystr) (env : Env) (m : Message)
    (next : nat) (d : user_data) :
  mode (data (handle_message lower_other env m next d))
  = Some awaiting_edit_prompt ->
  admitted env m = false /\ mode d = Some awaiting_edit_prompt.
Proof.
  apply handle_message_cases; intros Hadm; [cbn [data]; auto|].
  apply dispatch_cases.
  - intros Hmode. unfold _process_photo_edit_prompt. rewrite Hmode.
    destruct (photo_task d); [destruct (ai_ok env)|]; cbn; discriminate.
  - intros mo _ _ _. cbn. discriminate.
  - intros Hmode _ H. now apply fast_commands_mode in H.
  - intros Hmode _. unfold _process_reply_to_photo.
    destruct (negb _); cbn [data]; intros H; now destruct Hmode.
  - intros Hmode H. exfalso. apply Hmode.
    destruct (mode d) as [[]|] eqn:Hmo; try reflexivity; exfalso.
    + unfold _process_translation_mode in H.
      destruct (ai_ok env); cbn in H; congruence.
    + discriminate H.
    + discriminate H.
    + destruct (chat_turn_frame env m next d) as (_ & _ & _ & [E|E]);
        rewrite E in H; congruence.
    + destruct (chat_turn_frame env m next d) as (_ & _ & _ & [E|E]);
        rewrite E in H; congruence.
Qed.

Lemma handle_message_ends_edit_prompt_witness :
  admitted (env_at 1 true)
    {| text := u "hello"; has_access := false; chat_private := true;
       is_reply_to_bot := false; reply_has_photo := false |} = false
  /\ mode awaiting_prompt = Some awaiting_edit_prompt.
Proof.
  apply (handle_message_ends_edit_prompt keep_case (env_at 1 true)
           {| text := u "hello"; has_access := false; chat_private := true;
              is_reply_to_bot := false; reply_has_photo := false |}
           0 awaiting_prompt).
  reflexivity.
Defined.

(** X6. [handle_message] touches the pending photo task in one case only:
    an admitted message in [awaiting_edit_prompt] whose edit succeeds
    removes it.  In every other case, whatever the text, the mode and the
    outcome of the collaborators, the photo task is after the handler what
    it was before. *)
Theorem handle_message_photo_task
    (lower_other : pystr -> nat -> pystr) (env : Env) (m : Message)
    (next : nat) (d : user_data) :
  let r := handle_message lower_other env m next d in
  photo_task (data r) = photo_task d
  \/ (admitted env m = true /\ mode d = Some awaiting_edit_prompt
      /\ ai_ok env = true /\ photo_task d <> None
      /\ photo_task (data r) = None).
Proof.
  cbn zeta. apply handle_message_cases; intros Hadm; [left; reflexivity|].
  apply dispatch_cases.
  - intros Hmode. unfold _process_photo_edit_prompt. rewrite Hmode.
    destruct (photo_task d) as [task|] eqn:Ht; [|left; cbn; now rewrite Ht].
    destruct (ai_ok env) eqn:Hok; [|left; cbn; now rewrite Ht].
    right. cbn. repeat split; auto; try discriminate.
  - intros mo _ _ _. left. reflexivity.
  - intros _ _. left. apply fast_commands_photo_task.
  - intros _ _. left. unfold _process_reply_to_photo.
    destruct (negb _); reflexivity.
  - intros _. left.
    destruct (mode d) as [[]|]; try apply chat_turn_frame; try reflexivity.
    unfold _process_translation_mode. destruct (ai_ok env); reflexivity.
Qed.

(** ** Retry policy: what the caller can get *)

Lemma send_with_retry_last (chat_send : nat -> Attempt) (retries : nat) :
  let tr := send_with_retry chat_send retries in
  (1 <= calls tr <= retries + 1)%nat
  /\ result tr = outcome (chat_send (calls tr - 1)%nat)
  /\ sleeps tr = map (fun k => backoff (chat_send k) k) (seq 0 (calls tr - 1)).
Proof.
  unfold send_with_retry.
  destruct (send_loop_spec chat_send retries (retries + 1) 0 None [])
    as (Hc & Hres & _ & Hsl & _); [lia | lia |].
  cbv zeta.
  set (tr := send_loop chat_send retries (retries + 1) 0 None []) in *.
  rewrite Nat.sub_0_r in Hsl. repeat split; try lia; assumption.
Qed.

(** X7. What [send_with_retry] returns is never blank: a returned text is
    the text of the last call's response and has a character that is not
    whitespace.  And the error raised after the loop for the case that no
    attempt left an error behind is never raised: every failure the caller
    sees is the failure of the last call. *)
Theorem send_with_retry_result (chat_send : nat -> Attempt) (retries : nat) :
  let tr := send_with_retry chat_send retries in
  match result tr with
  | Returned t =>
      chat_send (calls tr - 1)%nat = Responds (Some t)
      /\ strip t <> []
  | Raised e => e <> NoAttempt
  end.
Proof.
  cbv zeta.
  destruct (send_with_retry_last chat_send retries) as (_ & Hres & _).
  rewrite Hres. destruct (chat_send _) as [t| |error_str]; cbn [outcome].
  - destruct (has_text t) eqn:Ht; [|discriminate].
    destruct t as [s|]; [|discriminate Ht]. split; [reflexivity|].
    cbn [has_text] in Ht. apply andb_prop in Ht as [_ Ht].
    intros E. rewrite E in Ht. discriminate Ht.
  - discriminate.
  - discriminate.
Qed.

Lemma backoff_sum (f : nat -> nat) :
  (forall k, f k <= 3 * (k + 1))%nat ->
  forall n, (2 * list_sum (map f (seq 0 n)) <= 3 * n * (n + 1))%nat.
Proof.
  intros Hf. induction n as [|n IH]; [cbn; lia|].
  rewrite seq_S, map_app, list_sum_app.
  change (list_sum (map f [(0 + n)%nat])) with (f n + 0)%nat.
  specialize (Hf n). nia.
Qed.

(** X8. The pauses of one [send_with_retry] are bounded by the retry
    budget alone: there are at most [retries] of them and together they last
    at most [3 * retries * (retries + 1) / 2] seconds, which is nine seconds
    for the default of two retries. *)
Theorem send_with_retry_pauses (chat_send : nat -> Attempt) (retries : nat) :
  let tr := send_with_retry chat_send retries in
  (length (sleeps tr) <= retries)%nat
  /\ (length (sleeps tr) = calls tr - 1)%nat
  /\ (2 * list_sum (sleeps tr) <= 3 * retries * (retries + 1))%nat.
Proof.
  cbv zeta.
  destruct (send_with_retry_last chat_send retries) as (Hc & _ & Hsl).
  rewrite Hsl, length_map, length_seq. split; [lia|]. split; [reflexivity|].
  etransitivity.
  - apply backoff_sum. intros k. destruct (chat_send k); cbn [backoff]; lia.
  - nia.
Qed.

(** ** Chunking: the size of the chunks *)

Lemma lstrip_set_length {C : Type} `{Char C} p (s : list C) :
  (length (lstrip_set p s) <= length s)%nat.
Proof.
  induction s as [|c s IH]; cbn; [lia|]. destruct (p (code c)); cbn; lia.
Qed.

Lemma lstrip_set_all {C : Type} `{Char C} p (ws rest : list C) :
  Forall (fun c => p (code c) = true) ws ->
  lstrip_set p (ws ++ rest) = lstrip_set p rest.
Proof.
  induction 1 as [|c ws Hc _ IH]; [reflexivity|]. cbn. now rewrite Hc.
Qed.

Lemma lstrip_set_app {C : Type} `{Char C} p (s rest : list C) :
  lstrip_set p (s ++ rest)
  = if is_empty (lstrip_set p s) then lstrip_set p rest
    else lstrip_set p s ++ rest.
Proof.
  induction s as [|c s IH]; [reflexivity|]. cbn.
  destruct (p (code c)); [exact IH|reflexivity].
Qed.

Lemma rstrip_set_length {C : Type} `{Char C} p (s : list C) :
  (length (rstrip_set p s) <= length s)%nat.
Proof.
  unfold rstrip_set. rewrite length_rev.
  etransitivity; [apply lstrip_set_length|]. now rewrite length_rev.
Qed.

Lemma rstrip_set_all {C : Type} `{Char C} p (s ws : list C) :
  Forall (fun c => p (code c) = true) ws ->
  rstrip_set p (s ++ ws) = rstrip_set p s.
Proof.
  intros Hws. unfold rstrip_set. rewrite rev_app_distr, lstrip_set_all;
    [reflexivity|]. now apply Forall_rev.
Qed.

Lemma strip_set_length {C : Type} `{Char C} p (s : list C) :
  (length (strip_set p s) <= length s)%nat.
Proof.
  unfold strip_set. etransitivity; [apply rstrip_set_length|].
  apply lstrip_set_length.
Qed.

(** Trailing characters of the stripped set do not count. *)
Lemma strip_set_trailing {C : Type} `{Char C} p (s ws : list C) :
  Forall (fun c => p (code c) = true) ws ->
  (length (strip_set p (s ++ ws)) <= length s)%nat.
Proof.
  intros Hws. unfold strip_set. rewrite lstrip_set_app.
  destruct (is_empty (lstrip_set p s)).
  - rewrite <- (app_nil_r ws), lstrip_set_all by exact Hws. cbn. lia.
  - rewrite rstrip_set_all by exact Hws.
    etransitivity; [apply rstrip_set_length|]. apply lstrip_set_length.
Qed.

Lemma hard_split_fit (n : nat) :
  forall fuel line,
    Forall (fun chunk : pystr => (length chunk <= n)%nat)
           (hard_split fuel n line).
Proof.
  induction fuel as [|fuel IH]; intros line; cbn; [constructor|].
  destruct line as [|c line]; constructor; [|apply IH].
  rewrite length_take. lia.
Qed.

(** What the loops of [split_message] keep: the finished parts fit, and so
    does the part in the making once it is stripped. *)
Definition parts_fit (max_length : nat) (st : list pystr * pystr) : Prop :=
  Forall (fun chunk : pystr => (length chunk <= max_length)%nat) (fst st)
  /\ (length (strip (snd st)) <= max_length)%nat.

Lemma strip_after_line (line : pystr) :
  (length (strip (line ++ [NL])) <= length line)%nat.
Proof. apply strip_set_trailing. repeat constructor. Qed.

Lemma strip_after_paragraph (paragraph : pystr) :
  (length (strip (paragraph ++ [NL; NL])) <= length paragraph)%nat.
Proof. apply strip_set_trailing. repeat constructor. Qed.

Lemma strip_fits (s : pystr) n : (length s <= n)%nat -> (length (strip s) <= n)%nat.
Proof. intros Hs. etransitivity; [apply strip_set_length|exact Hs]. Qed.

Lemma add_line_fit max_length st line st' :
  parts_fit max_length st ->
  add_line max_length st line = Some st' ->
  parts_fit max_length st'.
Proof.
  destruct st as [parts current_part]. intros [Hp Hc]. unfold add_line.
  cbn [fst snd] in *.
  destruct (max_length <? length line)%nat eqn:E1.
  - destruct max_length as [|n]; [discriminate|]. intros [= <-].
    split; cbn [fst snd]; [|exact Hc].
    apply Forall_app. split; [exact Hp|apply hard_split_fit].
  - apply Nat.ltb_ge in E1.
    destruct (max_length <? _)%nat eqn:E2; intros [= <-]; split; cbn [fst snd].
    + apply Forall_app. split; [exact Hp|]. repeat constructor. exact Hc.
    + etransitivity; [apply strip_after_line|exact E1].
    + exact Hp.
    + apply Nat.ltb_ge in E2. apply strip_fits.
      rewrite !length_app. cbn [length]. lia.
Qed.

Lemma add_lines_fit max_length lines :
  forall st st',
    parts_fit max_length st ->
    add_lines max_length st lines = Some st' ->
    parts_fit max_length st'.
Proof.
  induction lines as [|line lines IH]; intros st st' Hst; cbn [add_lines].
  - now intros [= <-].
  - destruct (add_line max_length st line) as [st1|] eqn:E; [|discriminate].
    apply IH. eapply add_line_fit; eassumption.
Qed.

Lemma add_paragraph_fit max_length st paragraph st' :
  parts_fit max_length st ->
  add_paragraph max_length st paragraph = Some st' ->
  parts_fit max_length st'.
Proof.
  destruct st as [parts current_part]. intros [Hp Hc]. unfold add_paragraph.
  cbn [fst snd] in *.
  destruct (max_length <? length paragraph)%nat eqn:E1.
  - apply add_lines_fit.
    destruct (negb (is_empty current_part)); split; cbn [fst snd];
      try assumption.
    + apply Forall_app. split; [exact Hp|]. repeat constructor. exact Hc.
    + cbn. lia.
  - apply Nat.ltb_ge in E1.
    destruct (max_length <? _)%nat eqn:E2; intros [= <-]; split; cbn [fst snd].
    + apply Forall_app. split; [exact Hp|]. repeat constructor. exact Hc.
    + etransitivity; [apply strip_after_paragraph|exact E1].
    + exact Hp.
    + apply Nat.ltb_ge in E2. apply strip_fits.
      rewrite !length_app. cbn [length]. lia.
Qed.

Lemma add_paragraphs_fit max_length paragraphs :
  forall st st',
    parts_fit max_length st ->
    add_paragraphs max_length st paragraphs = Some st' ->
    parts_fit max_length st'.
Proof.
  induction paragraphs as [|paragraph paragraphs IH]; intros st st' Hst;
    cbn [add_paragraphs].
  - now intros [= <-].
  - destruct (add_paragraph max_length st paragraph) as [st1|] eqn:E;
      [|discriminate].
    apply IH. eapply add_paragraph_fit; eassumption.
Qed.

Lemma add_lines_total max_length lines :
  (0 < max_length)%nat ->
  forall st, add_lines max_length st lines <> None.
Proof.
  intros Hpos. induction lines as [|line lines IH]; intros st; cbn [add_lines];
    [discriminate|].
  destruct (add_line max_length st line) as [st1|] eqn:E; [apply IH|].
  exfalso. unfold add_line in E. destruct st as [parts current_part].
  destruct (max_length <? length line)%nat.
  - destruct max_length; [lia|discriminate E].
  - destruct (max_length <? _)%nat; discriminate E.
Qed.

Lemma add_paragraphs_total max_length paragraphs :
  (0 < max_length)%nat ->
  forall st, add_paragraphs max_length st paragraphs <> None.
Proof.
  intros Hpos. induction paragraphs as [|paragraph paragraphs IH]; intros st;
    cbn [add_paragraphs]; [discriminate|].
  destruct (add_paragraph max_length st paragraph) as [st1|] eqn:E; [apply IH|].
  exfalso. unfold add_paragraph in E. destruct st as [parts current_part].
  destruct (max_length <? length paragraph)%nat.
  - now apply add_lines_total in E.
  - destruct (max_length <? _)%nat; discriminate E.
Qed.

(** X9. For a positive limit [split_message] never fails, never returns
    an empty list, and no chunk it returns is longer than the limit; a text
    that is not longer than the limit is returned whole, as the only
    chunk. *)
Theorem split_message_chunks_fit (text : pystr) (max_length : nat) :
  (0 < max_length)%nat ->
  exists chunks,
    split_message text max_length = Some chunks
    /\ chunks <> []
    /\ Forall (fun chunk : pystr => (length chunk <= max_length)%nat) chunks
    /\ ((length text <= max_length)%nat -> chunks = [text]).
Proof.
  intros Hpos. unfold split_message.
  destruct text as [|c text]; cbn [is_empty].
  - exists [[]]. repeat split; [discriminate|repeat constructor; cbn; lia].
  - set (whole := c :: text).
    destruct (length whole <=? max_length)%nat eqn:E.
    + apply Nat.leb_le in E. exists [whole].
      repeat split; [discriminate|repeat constructor; exact E].
    + apply Nat.leb_gt in E.
      destruct (add_paragraphs max_length ([], []) (split [NL; NL] whole))
        as [[parts current_part]|] eqn:Hrun;
        [|now apply add_paragraphs_total in Hrun].
      apply add_paragraphs_fit in Hrun as [Hp Hc];
        [|split; [constructor|cbn; lia]].
      cbn [fst snd] in Hp, Hc.
      eexists. split; [reflexivity|].
      set (all := if negb (is_empty (strip current_part))
                  then parts ++ [strip current_part] else parts).
      assert (Hall : Forall (fun chunk : pystr => (length chunk <= max_length)%nat) all).
      { subst all. destruct (negb _); [|exact Hp].
        apply Forall_app. split; [exact Hp|]. repeat constructor. exact Hc. }
      split; [|split].
      * destruct all; cbn; discriminate.
      * destruct all; cbn [is_empty negb]; [|exact Hall].
        repeat constructor. rewrite length_take. lia.
      * intros Hle. lia.
Qed.

Lemma split_message_chunks_fit_witness :
  exists chunks,
    split_message (u "one two three four") 7 = Some chunks
    /\ chunks <> []
    /\ Forall (fun chunk : pystr => (length chunk <= 7)%nat) chunks
    /\ ((length (u "one two three four") <= 7)%nat
        -> chunks = [u "one two three four"]).
Proof.
  apply (split_message_chunks_fit (u "one two three four") 7). lia.
Defined.

(** ** Chunking: lines longer than the limit *)

Lemma contains_absent (x : N) (p s : pystr) :
  ~ In x s -> contains s (x :: p) = false.
Proof.
  induction s as [|c s IH]; intros Hx; [reflexivity|].
  cbn [contains startswith code plain_char].
  destruct (N.eqb_spec c x) as [->|_]; [destruct Hx; now left|].
  cbn [andb orb]. apply IH. intros Hin. apply Hx. now right.
Qed.

Lemma split_absent (sep s : pystr) :
  contains s sep = false -> split sep s = [s].
Proof.
  unfold split. induction s as [|c s IH]; intros Hc; [reflexivity|].
  cbn [contains] in Hc. apply orb_false_iff in Hc as [Hs Hc].
  cbn [split_go]. rewrite Hs, (IH Hc). reflexivity.
Qed.

Lemma split_at_newline (a b : pystr) :
  ~ In NL a -> split [NL] (a ++ NL :: b) = a :: split [NL] b.
Proof.
  unfold split. induction a as [|c a IH]; intros Ha.
  - cbn [app split_go startswith code plain_char]. rewrite N.eqb_refl.
    replace (startswith b []) with true by (now destruct b). reflexivity.
  - cbn [app split_go startswith code plain_char].
    destruct (N.eqb_spec c NL) as [->|_]; [destruct Ha; now left|].
    cbn [andb]. rewrite IH; [reflexivity|]. intros Hin. apply Ha. now right.
Qed.

Lemma no_blank_line (a b : pystr) :
  ~ In NL a -> ~ In NL b -> contains (a ++ NL :: b) [NL; NL] = false.
Proof.
  intros Ha Hb. induction a as [|c a IH].
  - cbn [app contains startswith code plain_char]. rewrite N.eqb_refl.
    cbn [andb]. rewrite (contains_absent NL [NL] b Hb), orb_false_r.
    destruct b as [|c b]; [reflexivity|]. cbn.
    destruct (N.eqb_spec c NL) as [->|_]; [destruct Hb; now left|reflexivity].
  - cbn [app contains startswith code plain_char].
    destruct (N.eqb_spec c NL) as [->|_]; [destruct Ha; now left|].
    cbn [andb orb]. apply IH. intros Hin. apply Ha. now right.
Qed.

Lemma hard_split_concat (n : nat) :
  (0 < n)%nat ->
  forall fuel line,
    (length line <= fuel)%nat -> concat (hard_split fuel n line) = line.
Proof.
  intros Hn. induction fuel as [|fuel IH]; intros line Hlen.
  - destruct line; [reflexivity|cbn in Hlen; lia].
  - cbn [hard_split]. destruct line as [|c line]; [reflexivity|].
    cbn [concat]. rewrite IH; [apply take_drop|].
    rewrite length_drop. cbn [length] in *. lia.
Qed.

Lemma hard_split_lookup (n : nat) :
  forall fuel line i chunk,
    hard_split fuel n line !! i = Some chunk ->
    chunk = take n (drop (i * n) line).
Proof.
  induction fuel as [|fuel IH]; intros line i chunk; cbn [hard_split];
    [discriminate|].
  destruct line as [|c line]; [discriminate|].
  destruct i as [|i]; cbn [lookup list_lookup].
  - now intros [= <-].
  - intros Hi. apply IH in Hi. rewrite Hi, drop_drop. reflexivity.
Qed.

Lemma strip_trailing_newline (s : pystr) : strip (s ++ [NL]) = strip s.
Proof.
  unfold strip, strip_set. rewrite lstrip_set_app.
  destruct (lstrip_set is_space s) as [|c s'] eqn:E; cbn [is_empty].
  - reflexivity.
  - apply rstrip_set_all. repeat constructor.
Qed.

(** X10. A text without a line break that is longer than a positive limit
    is cut into consecutive slices of the limit's length: chunk number [i]
    is [text[i * limit : (i + 1) * limit]], and the chunks put together are
    the text, character for character. *)
Theorem split_message_unbroken (text : pystr) (max_length : nat) :
  (0 < max_length)%nat ->
  (max_length < length text)%nat ->
  ~ In NL text ->
  exists chunks,
    split_message text max_length = Some chunks
    /\ concat chunks = text
    /\ forall i chunk,
         chunks !! i = Some chunk ->
         chunk = take max_length (drop (i * max_length) text).
Proof.
  intros Hpos Hlong Hnl.
  exists (hard_split (length text) max_length text).
  split; [|split].
  - unfold split_message.
    destruct text as [|c text]; [cbn in Hlong; lia|]. cbn [is_empty].
    set (whole := c :: text) in *.
    assert ((length whole <=? max_length)%nat = false) as ->
      by (apply Nat.leb_gt; exact Hlong).
    rewrite (split_absent [NL; NL] whole (contains_absent NL [NL] whole Hnl)).
    cbn [add_paragraphs add_paragraph is_empty negb].
    assert ((max_length <? length whole)%nat = true) as Hlt
      by (apply Nat.ltb_lt; exact Hlong).
    rewrite Hlt.
    rewrite (split_absent [NL] whole (contains_absent NL [] whole Hnl)).
    cbn [add_lines add_line]. rewrite Hlt.
    destruct max_length as [|n]; [lia|]. cbn [app].
    change (strip (@nil N)) with (@nil N). cbn [is_empty negb].
    subst whole. reflexivity.
  - apply hard_split_concat; [exact Hpos|lia].
  - apply hard_split_lookup.
Qed.

Lemma split_message_unbroken_witness :
  exists chunks,
    split_message (u "abcdefgh") 3 = Some chunks
    /\ concat chunks = u "abcdefgh"
    /\ forall i chunk,
         chunks !! i = Some chunk ->
         chunk = take 3 (drop (i * 3) (u "abcdefgh")).
Proof.
  apply (split_message_unbroken (u "abcdefgh") 3).
  - lia.
  - vm_compute. lia.
  - vm_compute. intros H. repeat (destruct H as [H|H]; [discriminate H|]).
    exact H.
Defined.

(** X11. Inside a paragraph that is over the limit, a line that is itself
    over the limit is cut and emitted at once, past the part in the making:
    when a short line comes first and an over-long line second, the slices
    of the second line are the first chunks and the short line is the last
    one. *)
Theorem split_message_long_line_first (a b : pystr) (max_length : nat) :
  ~ In NL a -> ~ In NL b ->
  strip a <> [] ->
  (length a < max_length)%nat ->
  (max_length < length b)%nat ->
  split_message (a ++ NL :: b) max_length
  = Some (hard_split (length b) max_length b ++ [strip a]).
Proof.
  intros Ha Hb Hvis Hshort Hlong. unfold split_message.
  assert (Hlen : length (a ++ NL :: b) = (length a + S (length b))%nat)
    by (rewrite length_app; reflexivity).
  assert (is_empty (a ++ NL :: b) = false) as -> by (now destruct a).
  assert ((length (a ++ NL :: b) <=? max_length)%nat = false) as ->
    by (apply Nat.leb_gt; lia).
  rewrite (split_absent [NL; NL] _ (no_blank_line a b Ha Hb)).
  cbn [add_paragraphs add_paragraph is_empty negb].
  assert ((max_length <? length (a ++ NL :: b))%nat = true) as ->
    by (apply Nat.ltb_lt; lia).
  rewrite (split_at_newline a b Ha),
          (split_absent [NL] b (contains_absent NL [] b Hb)).
  assert (E1 : add_line max_length ([], []) a = Some ([], a ++ [NL])).
  { unfold add_line. cbn [length].
    assert ((max_length <? length a)%nat = false) as ->
      by (apply Nat.ltb_ge; lia).
    assert ((max_length <? 0 + length a + 1)%nat = false) as ->
      by (apply Nat.ltb_ge; lia).
    reflexivity. }
  assert (E2 : add_line max_length ([], a ++ [NL]) b
               = Some (hard_split (length b) max_length b, a ++ [NL])).
  { unfold add_line.
    assert ((max_length <? length b)%nat = true) as ->
      by (apply Nat.ltb_lt; lia).
    destruct max_length as [|n]; [lia|]. reflexivity. }
  cbn [add_lines]. unfold pystr in E1, E2 |- *. rewrite E1, E2.
  rewrite strip_trailing_newline.
  destruct (strip a) as [|x sa] eqn:Es; [now destruct Hvis|].
  cbn [is_empty negb].
  destruct (hard_split (length b) max_length b); reflexivity.
Qed.

Lemma split_message_long_line_first_witness :
  split_message (u "ab" ++ NL :: u "cdefgh") 3
  = Some (hard_split (length (u "cdefgh")) 3 (u "cdefgh") ++ [strip (u "ab")]).
Proof.
  apply (split_message_long_line_first (u "ab") (u "cdefgh") 3).
  - vm_compute. intros H. repeat (destruct H as [H|H]; [discriminate H|]).
    exact H.
  - vm_compute. intros H. repeat (destruct H as [H|H]; [discriminate H|]).
    exact H.
  - vm_compute. discriminate.
  - vm_compute. lia.
  - vm_compute. lia.
Defined.

(** ** Album coalescer: any run *)

Lemma wake_albums_ok now ts :
  forall st,
    (forall g a, pending_albums st !! g = Some a -> album_ok a) ->
    Forall (fun x => album_ok (snd x)) (flushed st) ->
    (forall g a, pending_albums (wake now ts st) !! g = Some a -> album_ok a)
    /\ Forall (fun x => album_ok (snd x)) (flushed (wake now ts st)).
Proof.
  induction ts as [|[due group] ts IH]; intros st Hp Hf; [cbn; auto|].
  cbn [wake]. destruct (Qle_bool due now).
  - unfold process_album_delayed.
    destruct (pending_albums st !! group) as [a|] eqn:E; [|now apply IH].
    apply IH; cbn [pending_albums flushed].
    + intros g a' Hg. apply lookup_delete_Some in Hg as [_ Hg]. eauto.
    + apply Forall_app. split; [exact Hf|].
      constructor; [|constructor]. cbn [snd]. eauto.
  - cbn [pending_albums flushed]. now apply IH.
Qed.

Lemma run_until_well_formed now st :
  well_formed st -> well_formed (run_until now st).
Proof.
  intros [Hg Hf]. unfold run_until.
  assert (Hp : forall g a, pending_albums st !! g = Some a -> album_ok a).
  { intros g a E. specialize (Hg g). rewrite E in Hg. apply Hg. }
  destruct (wake_albums_ok now (tasks st) st Hp Hf) as [Hp' Hf'].
  split; [|exact Hf']. intros g. specialize (Hg g).
  destruct (pending_albums st !! g) as [a|] eqn:E.
  - destruct Hg as [Hok Hts].
    pose proof (wake_own g now _ a (tasks st) st Hts E) as W. cbv zeta in W.
    destruct (Qle_bool _ now); destruct W as (P & _ & T); rewrite P;
      [exact T|]. split; assumption.
  - destruct (wake_other g now (tasks st) st Hg) as (P & _ & T).
    rewrite P, E. exact T.
Qed.

Lemma tasks_of_other g group due ts :
  group <> g -> tasks_of g (ts ++ [(due, group)]) = tasks_of g ts.
Proof.
  intros Hne. unfold tasks_of.
  rewrite filter_app, filter_cons_False by (cbn; congruence).
  now rewrite filter_nil, app_nil_r.
Qed.

Lemma handle_photo_well_formed now f st :
  well_formed st -> well_formed (handle_photo now f st).
Proof.
  intros [Hg Hf]. unfold handle_photo.
  pose proof (Hg (media_group_id f)) as Hown.
  destruct (pending_albums st !! media_group_id f) as [a|] eqn:E;
    (split; [|exact Hf]); intros g; cbn [pending_albums tasks];
    destruct (decide (media_group_id f = g)) as [<-|Hne].
  - rewrite lookup_insert_eq. destruct Hown as [[Hlo Hhi] Hts].
    split.
    + unfold album_ok.
      destruct (length (album_photos a) <? MAX_ALBUM_PHOTOS)%nat eqn:Hcap;
        [apply Nat.ltb_lt in Hcap|];
        destruct (_ && _); cbn [album_photos set_caption append_photo];
        rewrite ?length_app; cbn [length]; lia.
    + destruct (length (album_photos a) <? MAX_ALBUM_PHOTOS)%nat;
        destruct (_ && _); exact Hts.
  - rewrite lookup_insert_ne by exact Hne. apply Hg.
  - rewrite lookup_insert_eq. split.
    + unfold album_ok, MAX_ALBUM_PHOTOS. cbn. lia.
    + unfold tasks_of in *. rewrite filter_app, Hown.
      now rewrite filter_cons_True by reflexivity.
  - rewrite lookup_insert_ne by exact Hne.
    rewrite tasks_of_other by exact Hne. apply Hg.
Qed.

Lemma step_well_formed st e : well_formed st -> well_formed (step st e).
Proof.
  intros H. destruct e as [now f|now]; cbn [step].
  - unfold arrive. now apply handle_photo_well_formed, run_until_well_formed.
  - now apply run_until_well_formed.
Qed.

Lemma idle_well_formed : well_formed idle.
Proof.
  split; [|constructor]. intros g. cbn. rewrite lookup_empty. reflexivity.
Qed.

Lemma run_keeps_well_formed (events : list Event) :
  forall st, well_formed st -> well_formed (run events st).
Proof.
  unfold run. induction events as [|e events IH]; intros st H.
  - exact H.
  - cbn [fold_left]. apply IH. now apply step_well_formed.
Qed.

(** X12. At every moment of every run of the process, whatever fragments
    arrive and whenever: each album in the buffer holds between one and
    [MAX_ALBUM_PHOTOS] photos and has exactly one flush task asleep, due one
    quiet period after the album was opened; a group that is not in the
    buffer has no task; and each album handed on by a flush holds between
    one and [MAX_ALBUM_PHOTOS] photos. *)
Theorem run_well_formed (events : list Event) :
  well_formed (run events idle).
Proof. apply run_keeps_well_formed, idle_well_formed. Qed.

Lemma wake_all_due now ts :
  Forall (fun task : Q * string => (fst task <= now)%Q) ts ->
  forall st, tasks (wake now ts st) = [].
Proof.
  induction 1 as [|[due group] ts Hd _ IH]; intros st; [reflexivity|].
  cbn [wake fst] in *. rewrite (Qle_bool_true _ _ Hd). apply IH.
Qed.

(** X13. No album stays behind: in a well-formed state, once the sleep of
    every task is over, running the event loop leaves the buffer empty and
    no task asleep. *)
Theorem buffer_drains (now : Q) (st : Coalescer) :
  well_formed st ->
  Forall (fun task => (fst task <= now)%Q) (tasks st) ->
  pending_albums (run_until now st) = ∅
  /\ tasks (run_until now st) = [].
Proof.
  intros [Hg _] Hdue. split.
  - apply map_eq. intros g. rewrite lookup_empty. specialize (Hg g).
    unfold run_until.
    destruct (pending_albums st !! g) as [a|] eqn:E.
    + destruct Hg as [_ Hts].
      pose proof (wake_own g now _ a (tasks st) st Hts E) as W. cbv zeta in W.
      assert (Hin : In ((album_timestamp a + ALBUM_WAIT_TIME)%Q, g) (tasks st)).
      { assert (H : In ((album_timestamp a + ALBUM_WAIT_TIME)%Q, g)
                       (tasks_of g (tasks st))) by (rewrite Hts; now left).
        unfold tasks_of in H. apply list_elem_of_In, list_elem_of_filter in H.
        apply list_elem_of_In, H. }
      rewrite List.Forall_forall in Hdue. apply Hdue in Hin. cbn [fst] in Hin.
      rewrite (Qle_bool_true _ _ Hin) in W. apply W.
    + destruct (wake_other g now (tasks st) st Hg) as (P & _ & _).
      now rewrite P.
  - now apply wake_all_due.
Qed.

Lemma buffer_drains_witness :
  pending_albums
    (run_until 2 (run [Arrives 0 (fragment "g" Byte.x01 1);
                       Arrives 0.5 (fragment "h" Byte.x02 2)] idle)) = ∅
  /\ tasks
       (run_until 2 (run [Arrives 0 (fragment "g" Byte.x01 1);
                          Arrives 0.5 (fragment "h" Byte.x02 2)] idle)) = [].
Proof.
  apply (buffer_drains 2
           (run [Arrives 0 (fragment "g" Byte.x01 1);
                 Arrives 0.5 (fragment "h" Byte.x02 2)] idle)).
  - apply run_keeps_well_formed, idle_well_formed.
  - vm_compute. repeat constructor; discriminate.
Defined.

(** ** Album coalescer: the album of a group *)

Lemma take_cap (n : nat) (ps rest : list image) (p : image) :
  (length ps <= n)%nat ->
  take n ((if (length ps <? n)%nat then ps ++ [p] else ps) ++ rest)
  = take n (ps ++ p :: rest).
Proof.
  intros Hlen. destruct (length ps <? n)%nat eqn:E.
  - now rewrite <- app_assoc.
  - apply Nat.ltb_ge in E. rewrite !take_app_le by lia. reflexivity.
Qed.

Lemma step_in_quiet g due e st a :
  pending_albums st !! g = Some a ->
  tasks_of g (tasks st) = [(due, g)] ->
  (length (album_photos a) <= MAX_ALBUM_PHOTOS)%nat ->
  (event_time e < due)%Q ->
  exists a',
    pending_albums (step st e) !! g = Some a'
    /\ tasks_of g (tasks (step st e)) = [(due, g)]
    /\ for_group g (flushed (step st e)) = for_group g (flushed st)
    /\ (length (album_photos a') <= MAX_ALBUM_PHOTOS)%nat
    /\ (forall rest,
          take MAX_ALBUM_PHOTOS (album_photos a' ++ rest)
          = take MAX_ALBUM_PHOTOS
              (album_photos a ++ group_photos g [e] ++ rest))
    /\ (forall rest,
          first_caption (album_caption a' :: rest)
          = first_caption (album_caption a :: group_captions g [e] ++ rest))
    /\ album_message_id a' = album_message_id a
    /\ album_user_id a' = album_user_id a
    /\ album_chat_id a' = album_chat_id a.
Proof.
  intros Hp Ht Hlen Hquiet.
  pose proof (wake_own g (event_time e) due a (tasks st) st Ht Hp) as W.
  cbv zeta in W. rewrite (Qle_bool_false _ _ Hquiet) in W.
  destruct W as (P & F & T). fold (run_until (event_time e) st) in P, F, T.
  destruct e as [now f|now]; cbn [step event_time] in *.
  - unfold arrive, handle_photo.
    destruct (decide (media_group_id f = g)) as [Hg|Hne].
    + rewrite Hg, P. cbn [pending_albums tasks flushed].
      rewrite lookup_insert_eq. eexists. split; [reflexivity|].
      split; [exact T|]. split; [exact F|].
      unfold group_photos, group_captions. cbn [flat_map].
      rewrite !decide_True by exact Hg. cbn [app].
      assert (Hphotos :
        forall b : Album,
          album_photos
            (if is_empty (album_caption b) && negb (is_empty (caption f))
             then set_caption (caption f) b else b) = album_photos b)
        by (intros b; destruct (_ && _); reflexivity).
      rewrite Hphotos.
      assert (Hsame :
        forall (X : Type) (proj : Album -> X),
          (forall c b, proj (set_caption c b) = proj b) ->
          (forall p b, proj (append_photo p b) = proj b) ->
          proj (if is_empty
                     (album_caption
                        (if (length (album_photos a) <? MAX_ALBUM_PHOTOS)%nat
                         then append_photo (photo f) a else a))
                   && negb (is_empty (caption f))
                then set_caption (caption f)
                       (if (length (album_photos a) <? MAX_ALBUM_PHOTOS)%nat
                        then append_photo (photo f) a else a)
                else if (length (album_photos a) <? MAX_ALBUM_PHOTOS)%nat
                     then append_photo (photo f) a else a)
          = proj a).
      { intros X proj H1 H2.
        destruct (_ && _); rewrite ?H1;
          destruct (_ <? _)%nat; rewrite ?H2; reflexivity. }
      repeat split.
      * destruct (length (album_photos a) <? MAX_ALBUM_PHOTOS)%nat eqn:E;
          [apply Nat.ltb_lt in E|];
          cbn [album_photos append_photo]; rewrite ?length_app; cbn [length];
          lia.
      * intros rest.
        replace (album_photos
                   (if (length (album_photos a) <? MAX_ALBUM_PHOTOS)%nat
                    then append_photo (photo f) a else a))
          with (if (length (album_photos a) <? MAX_ALBUM_PHOTOS)%nat
                then album_photos a ++ [photo f] else album_photos a)
          by (destruct (_ <? _)%nat; reflexivity).
        now apply take_cap.
      * intros rest.
        assert (Hcap : album_caption
                         (if (length (album_photos a) <? MAX_ALBUM_PHOTOS)%nat
                          then append_photo (photo f) a else a)
                       = album_caption a)
          by (destruct (_ <? _)%nat; reflexivity).
        rewrite Hcap. cbn [first_caption].
        destruct (is_empty (album_caption a)) eqn:Ea; cbn [andb].
        -- destruct (is_empty (caption f)) eqn:Ef; cbn [negb].
           ++ rewrite Hcap, Ea. reflexivity.
           ++ cbn [album_caption set_caption]. rewrite Ef. reflexivity.
        -- rewrite Hcap, Ea. reflexivity.
      * apply (Hsame _ album_message_id); reflexivity.
      * apply (Hsame _ album_user_id); reflexivity.
      * apply (Hsame _ album_chat_id); reflexivity.
    + assert (Hframe :
        pending_albums (handle_photo now f (run_until now st)) !! g = Some a
        /\ tasks_of g (tasks (handle_photo now f (run_until now st)))
           = [(due, g)]
        /\ flushed (handle_photo now f (run_until now st))
           = flushed (run_until now st)).
      { unfold handle_photo.
        destruct (pending_albums (run_until now st) !! media_group_id f);
          cbn [pending_albums tasks flushed];
          rewrite lookup_insert_ne by exact Hne;
          rewrite ?tasks_of_other by exact Hne; auto. }
      destruct Hframe as (P' & T' & F'). unfold handle_photo in P', T', F'.
      exists a. rewrite P', T', F'.
      unfold group_photos, group_captions. cbn [flat_map].
      rewrite !decide_False by exact Hne. cbn [app]. repeat split; auto.
  - exists a. cbn. repeat split; auto.
Qed.

Lemma quiet_run g due events :
  forall st a,
    pending_albums st !! g = Some a ->
    tasks_of g (tasks st) = [(due, g)] ->
    (length (album_photos a) <= MAX_ALBUM_PHOTOS)%nat ->
    Forall (fun e => (event_time e < due)%Q) events ->
    exists a',
      pending_albums (run events st) !! g = Some a'
      /\ tasks_of g (tasks (run events st)) = [(due, g)]
      /\ for_group g (flushed (run events st)) = for_group g (flushed st)
      /\ (forall rest,
            take MAX_ALBUM_PHOTOS (album_photos a' ++ rest)
            = take MAX_ALBUM_PHOTOS
                (album_photos a ++ group_photos g events ++ rest))
      /\ (forall rest,
            first_caption (album_caption a' :: rest)
            = first_caption
                (album_caption a :: group_captions g events ++ rest))
      /\ (length (album_photos a') <= MAX_ALBUM_PHOTOS)%nat
      /\ album_message_id a' = album_message_id a
      /\ album_user_id a' = album_user_id a
      /\ album_chat_id a' = album_chat_id a.
Proof.
  induction events as [|e events IH]; intros st a Hp Ht Hlen Hq.
  - exists a. cbn. repeat split; auto.
  - apply Forall_cons in Hq as [He Hq].
    destruct (step_in_quiet g due e st a Hp Ht Hlen He)
      as (a1 & P1 & T1 & F1 & L1 & Ph1 & C1 & M1 & U1 & Ch1).
    destruct (IH (step st e) a1 P1 T1 L1 Hq)
      as (a' & P & T & F & Ph & C & L & M & U & Ch).
    exists a'. unfold run in *. cbn [fold_left].
    split; [exact P|]. split; [exact T|]. split; [now rewrite F|].
    split; [|split; [|split; [exact L|split; [congruence|split; congruence]]]].
    + intros rest. rewrite Ph, Ph1.
      unfold group_photos. cbn [flat_map].
      now rewrite app_nil_r, <- !app_assoc.
    + intros rest. rewrite C, C1.
      unfold group_captions. cbn [flat_map].
      now rewrite app_nil_r, <- !app_assoc.
Qed.

(** X14. The album of a group.  A fragment of a group that has no buffer
    opens one; whatever arrives before the quiet period that starts there is
    over (further fragments of the group, few or many, fragments of other
    groups, wake-ups), the group is flushed exactly once when the period is
    over, and the album handed on carries the photos of the group's
    fragments in arrival order, cut after the first [MAX_ALBUM_PHOTOS]; its
    caption is the first caption of the group that is not empty; and it is
    filed under the message, the user and the chat of the first fragment. *)
Theorem album_collects
    (g : string) (f1 : Fragment) (t1 t_end : Q) (events : list Event)
    (st : Coalescer) :
  media_group_id f1 = g ->
  pending_albums st !! g = None ->
  tasks_of g (tasks st) = [] ->
  Forall (fun e => (event_time e < t1 + ALBUM_WAIT_TIME)%Q) events ->
  (t1 + ALBUM_WAIT_TIME <= t_end)%Q ->
  let st' := run_until t_end (run events (arrive t1 f1 st)) in
  exists a,
    for_group g (flushed st') = for_group g (flushed st) ++ [(g, a)]
    /\ album_photos a
       = take MAX_ALBUM_PHOTOS (photo f1 :: group_photos g events)
    /\ album_caption a = first_caption (caption f1 :: group_captions g events)
    /\ album_message_id a = fragment_message_id f1
    /\ album_user_id a = user_id f1
    /\ album_chat_id a = chat_id_of f1
    /\ pending_albums st' !! g = None
    /\ tasks_of g (tasks st') = [].
Proof.
  intros Hg Hp Ht Hq Hend. cbv zeta.
  destruct (wake_other g t1 (tasks st) st Ht) as (P0 & F0 & T0).
  fold (run_until t1 st) in P0, F0, T0. rewrite Hp in P0.
  destruct (handle_photo_first g t1 f1 (run_until t1 st) Hg P0 T0)
    as (P1 & F1 & T1).
  fold (arrive t1 f1 st) in P1, F1, T1.
  destruct (quiet_run g _ events _ _ P1 T1) as
    (a & P & T & F & Ph & C & L & M & U & Ch);
    [cbn; unfold MAX_ALBUM_PHOTOS; lia | exact Hq |].
  cbn [album_photos album_caption album_message_id album_user_id
       album_chat_id] in *.
  pose proof (wake_own g t_end _ a _ _ T P) as W. cbv zeta in W.
  rewrite (Qle_bool_true _ _ Hend) in W. destruct W as (P' & F' & T').
  fold (run_until t_end (run events (arrive t1 f1 st))) in P', F', T'.
  exists a. rewrite F', F, F1, F0. repeat split; try assumption.
  - specialize (Ph []). rewrite !app_nil_r in Ph.
    rewrite take_ge in Ph by exact L. exact Ph.
  - specialize (C []). rewrite app_nil_r in C. cbn [first_caption] in C.
    destruct (is_empty (album_caption a)) eqn:E; [|exact C].
    destruct (album_caption a); [|discriminate E]. exact C.
Qed.

Lemma album_collects_witness :
  let events :=
    [Arrives 0.5 {| media_group_id := "g"; photo := [Byte.x02];
                    caption := u "sea"; user_id := 1; chat_id_of := 1;
                    fragment_message_id := 2 |};
     Arrives 0.7 (fragment "h" Byte.x09 9);
     Arrives 1 (fragment "g" Byte.x03 3)] in
  let st' := run_until 2 (run events (arrive 0 (fragment "g" Byte.x01 1) idle)) in
  exists a,
    for_group "g" (flushed st') = for_group "g" (flushed idle) ++ [("g"%string, a)]
    /\ album_photos a
       = take MAX_ALBUM_PHOTOS
           (photo (fragment "g" Byte.x01 1) :: group_photos "g" events)
    /\ album_caption a
       = first_caption (caption (fragment "g" Byte.x01 1)
                          :: group_captions "g" events)
    /\ album_message_id a = fragment_message_id (fragment "g" Byte.x01 1)
    /\ album_user_id a = user_id (fragment "g" Byte.x01 1)
    /\ album_chat_id a = chat_id_of (fragment "g" Byte.x01 1)
    /\ pending_albums st' !! "g"%string = None
    /\ tasks_of "g" (tasks st') = [].
Proof.
  intros events.
  apply (album_collects "g" (fragment "g" Byte.x01 1) 0 2 events idle).
  - reflexivity.
  - reflexivity.
  - reflexivity.
  - subst events. repeat constructor.
  - vm_compute. discriminate.
Defined.

(** ** Escaping *)

(** X15. [escape_html] escapes every character of a plain string exactly
    once: the result is the concatenation, character by character, of
    [&amp;] for an ampersand, [&lt;] and [&gt;] for the angle brackets and
    the character itself otherwise.  In particular the ampersands that the
    later replacements write are not escaped again, and the result has no
    angle bracket. *)
Theorem escape_html_each (s : pystr) :
  escape_html s = flat_map escape_char s
  /\ Forall (fun c => is_angle c = false) (escape_html s).
Proof.
  split; [apply escape_html_flat_map|]. rewrite escape_html_flat_map.
  induction s as [|c s IH]; [constructor|].
  cbn [flat_map]. apply Forall_app. split; [|exact IH].
  unfold escape_char.
  destruct (N.eqb_spec c 38); [repeat constructor|].
  destruct (N.eqb_spec c 60); [repeat constructor|].
  destruct (N.eqb_spec c 62); [repeat constructor|].
  constructor; [|constructor]. unfold is_angle.
  apply orb_false_iff. split; now apply N.eqb_neq.
Qed.

Lemma escape_char_inj (x y : N) (a b : pystr) :
  escape_char x ++ a = escape_char y ++ b -> x = y /\ a = b.
Proof.
  unfold escape_char.
  change (u "&amp;") with [38; 97; 109; 112; 59].
  change (u "&lt;") with [38; 108; 116; 59].
  change (u "&gt;") with [38; 103; 116; 59].
  destruct (N.eqb_spec x 38) as [->|Hx1];
    [|destruct (N.eqb_spec x 60) as [->|Hx2];
      [|destruct (N.eqb_spec x 62) as [->|Hx3]]];
    (destruct (N.eqb_spec y 38) as [->|Hy1];
     [|destruct (N.eqb_spec y 60) as [->|Hy2];
       [|destruct (N.eqb_spec y 62) as [->|Hy3]]]);
    cbn [app]; intros E; try discriminate E; injection E; intros; subst;
    try congruence; split; congruence.
Qed.

(** X16. Escaping loses nothing: two plain strings with the same escaped
    form are the same string. *)
Theorem escape_html_injective (a b : pystr) :
  escape_html a = escape_html b -> a = b.
Proof.
  rewrite !escape_html_flat_map. revert b.
  induction a as [|x a IH]; intros [|y b]; cbn [flat_map]; intros E.
  - reflexivity.
  - exfalso. unfold escape_char in E.
    destruct (y =? 38), (y =? 60), (y =? 62); discriminate E.
  - exfalso. unfold escape_char in E.
    destruct (x =? 38), (x =? 60), (x =? 62); discriminate E.
  - apply escape_char_inj in E as [-> E]. f_equal. now apply IH.
Qed.

Lemma escape_html_injective_witness :
  u "a<b" = u "a<b".
Proof.
  apply (escape_html_injective (u "a<b") (u "a<b")). reflexivity.
Defined.

(** ** Text formatter: text without markup *)

Lemma escape_html_plain (s : pystr) :
  Forall (fun c => is_markup c = false) s -> escape_html s = s.
Proof.
  intros Hs. rewrite escape_html_flat_map.
  induction Hs as [|c s Hc _ IH]; [reflexivity|].
  cbn [flat_map]. rewrite IH. unfold escape_char.
  destruct (N.eqb_spec c 38) as [->|_]; [discriminate Hc|].
  destruct (N.eqb_spec c 60) as [->|_]; [discriminate Hc|].
  destruct (N.eqb_spec c 62) as [->|_]; [discriminate Hc|]. reflexivity.
Qed.

Lemma is_char_markup (k : N) :
  is_markup k = true -> forall c, is_char k c = true -> is_markup c = true.
Proof. intros Hk c Hc. apply N.eqb_eq in Hc. now subst. Qed.

Lemma patterns_require_markup :
  let Q := fun c => is_markup c = true in
  requires Q table_pattern /\ requires Q code_span /\ requires Q heading
  /\ requires Q bold /\ requires Q (italic 42) /\ requires Q (italic 95)
  /\ requires Q strike /\ requires Q bullet /\ requires Q link.
Proof.
  cbv zeta. repeat split.
  - left. right. left. exact (is_char_markup 124 eq_refl).
  - left. left. exact (is_char_markup 96 eq_refl).
  - left. exact (is_char_markup 96 eq_refl).
  - right. right. left. left. exact (is_char_markup 35 eq_refl).
  - left. left. exact (is_char_markup 42 eq_refl).
  - right. left. exact (is_char_markup 42 eq_refl).
  - right. left. exact (is_char_markup 95 eq_refl).
  - left. left. exact (is_char_markup 126 eq_refl).
  - right. right. left. intros c Hc. apply orb_prop in Hc as [Hc|Hc];
      apply N.eqb_eq in Hc; now subst.
  - left. exact (is_char_markup 91 eq_refl).
Qed.

(** X17. Text without markup passes through the formatter unchanged: a
    text in which none of the characters [& < > | ` # * _ ~ - \[] occurs is
    its own formatted form. *)
Theorem format_for_telegram_plain (unicode_word : N -> bool) (text : pystr) :
  Forall (fun c => is_markup c = false) text ->
  format_for_telegram unicode_word text = text.
Proof.
  intros Hplain.
  assert (Hno : forall c, In c text -> ~ is_markup c = true).
  { intros c Hin. rewrite List.Forall_forall in Hplain.
    rewrite (Hplain c Hin). discriminate. }
  destruct patterns_require_markup
    as (Rt & Rc & Rh & Rb & Ri1 & Ri2 & Rs & Rbu & Rl).
  assert (Hsearch : forall r,
             requires (fun c => is_markup c = true) r ->
             search r text 0 = None)
    by (intros r Hr; now apply (search_absent _ r text 0 Hr)).
  unfold format_for_telegram. destruct text as [|c text]; [reflexivity|].
  cbn [is_empty]. set (whole := c :: text) in *.
  assert (Etable : sub_with table_pattern (wrap_table whole) whole []
                   = ([], whole)).
  { unfold sub_with. cbn [length sub_go]. subst whole.
    cbn [length sub_go]. rewrite (Hsearch _ Rt). reflexivity. }
  rewrite Etable.
  assert (Esplit : split_re code_span whole = [whole]).
  { unfold split_re. subst whole. cbn [length split_re_go].
    rewrite (Hsearch _ Rc). reflexivity. }
  rewrite Esplit. cbn [format_parts concat restore_tables]. rewrite app_nil_r.
  unfold format_text. rewrite (escape_html_plain whole Hplain).
  rewrite (sub_absent heading _ whole (Hsearch _ Rh)).
  rewrite (sub_absent bold _ whole (Hsearch _ Rb)).
  rewrite (sub_absent (italic 42) _ whole (Hsearch _ Ri1)).
  rewrite (sub_absent (italic 95) _ whole (Hsearch _ Ri2)).
  rewrite (sub_absent strike _ whole (Hsearch _ Rs)).
  rewrite (sub_absent bullet _ whole (Hsearch _ Rbu)).
  apply (sub_absent link _ whole (Hsearch _ Rl)).
Qed.

Lemma format_for_telegram_plain_witness :
  format_for_telegram (fun _ => false) (u "Hello, world. Bye!")
  = u "Hello, world. Bye!".
Proof.
  apply (format_for_telegram_plain (fun _ => false) (u "Hello, world. Bye!")).
  vm_compute. repeat constructor.
Defined.

(** ** Error log *)

Lemma log_error_last time_text error_type error_msg user_id stats :
  let all := last_errors stats
               ++ [logged (time_text, error_type, error_msg, user_id)] in
  (length (last_errors stats) <= 10)%nat ->
  last_errors (log_error time_text error_type error_msg user_id stats)
  = drop (length all - 10) all.
Proof.
  cbv zeta. intros Hlen. unfold log_error, logged. cbn [last_errors].
  rewrite length_app. cbn [length].
  destruct (10 <? _)%nat eqn:E.
  - apply Nat.ltb_lt in E. f_equal. lia.
  - apply Nat.ltb_ge in E.
    replace (length (last_errors stats) + 1 - 10)%nat with 0%nat by lia.
    reflexivity.
Qed.

Lemma drop_last_ten {A : Type} (l : list A) (x : A) :
  let kept := drop (length l - 10) l ++ [x] in
  drop (length kept - 10) kept = drop (length (l ++ [x]) - 10) (l ++ [x]).
Proof.
  cbv zeta. rewrite !length_app, length_drop. cbn [length].
  destruct (le_lt_dec (length l) 10) as [Hle|Hgt].
  - replace (length l - 10)%nat with 0%nat by lia. cbn [drop].
    now rewrite Nat.sub_0_r.
  - replace (length l - (length l - 10) + 1 - 10)%nat with 1%nat by lia.
    replace (length l + 1 - 10)%nat with (S (length l - 10)) by lia.
    rewrite (drop_app_le l [x]) by lia.
    rewrite (drop_app_le (drop _ l) [x]) by (rewrite length_drop; lia).
    rewrite drop_drop. f_equal. f_equal. lia.
Qed.

Lemma log_errors_snoc calls time_text error_type error_msg user_id stats :
  log_errors (calls ++ [(time_text, error_type, error_msg, user_id)]) stats
  = log_error time_text error_type error_msg user_id (log_errors calls stats).
Proof. unfold log_errors. now rewrite fold_left_app. Qed.

(** X18. The error log is a ring of ten: after any number of calls of
    [log_error], starting from a log of at most ten entries, [last_errors]
    holds the ten most recent entries (all of them while there are fewer),
    oldest first, each with its message cut to 100 characters;
    [errors_count] has grown by the number of calls; and the other counters
    are untouched. *)
Theorem log_errors_ring (calls : list ErrorCall) (stats : bot_stats) :
  (length (last_errors stats) <= 10)%nat ->
  let all := last_errors stats ++ map logged calls in
  let stats' := log_errors calls stats in
  last_errors stats' = drop (length all - 10) all
  /\ (length (last_errors stats') <= 10)%nat
  /\ Forall (fun c => (length (entry_msg (logged c)) <= 100)%nat) calls
  /\ errors_count stats' = (errors_count stats + length calls)%nat
  /\ messages_count stats' = messages_count stats
  /\ voice_count stats' = voice_count stats
  /\ start_time stats' = start_time stats.
Proof.
  intros Hlen. cbv zeta.
  assert (Hmsg : Forall (fun c => (length (entry_msg (logged c)) <= 100)%nat)
                        calls).
  { apply List.Forall_forall. intros [[[t ty] msg] us] _. cbn.
    unfold slice_to. rewrite length_take. lia. }
  assert (Hbound : forall (l : list ErrorEntry),
             (length (drop (length l - 10) l) <= 10)%nat)
    by (intros l; rewrite length_drop; lia).
  induction calls as [|c calls IH] using rev_ind.
  - cbn. rewrite app_nil_r.
    replace (length (last_errors stats) - 10)%nat with 0%nat by lia.
    repeat split; auto; lia.
  - pose proof Hmsg as Hall. apply Forall_app in Hmsg as [Hmsg _].
    destruct (IH Hmsg) as (Hl & Hb & _ & Hc & Hm & Hv & Hs).
    destruct c as [[[t ty] msg] us]. rewrite log_errors_snoc.
    rewrite log_error_last by exact Hb. rewrite Hl.
    rewrite map_app, app_assoc. cbn [map].
    rewrite drop_last_ten. split; [reflexivity|]. split; [apply Hbound|].
    split.
    + exact Hall.
    + unfold log_error.
      cbn [errors_count messages_count voice_count start_time].
      rewrite Hc, length_app. cbn [length]. repeat split; auto; lia.
Qed.

Lemma log_errors_ring_witness :
  let stats :=
    {| start_time := 0; messages_count := 3; voice_count := 1;
       errors_count := 0; last_errors := [] |} in
  let calls := repeat (u "01.01 10:00", u "CHAT", u "boom", Some 7%Z) 12 in
  let all := last_errors stats ++ map logged calls in
  let stats' := log_errors calls stats in
  last_errors stats' = drop (length all - 10) all
  /\ (length (last_errors stats') <= 10)%nat
  /\ Forall (fun c => (length (entry_msg (logged c)) <= 100)%nat) calls
  /\ errors_count stats' = (errors_count stats + length calls)%nat
  /\ messages_count stats' = messages_count stats
  /\ voice_count stats' = voice_count stats
  /\ start_time stats' = start_time stats.
Proof.
  intros stats calls. apply (log_errors_ring calls stats). cbn. lia.
Defined.

(** ** Allowed users *)

(** X19. Who has access.  The administrator always has access, whatever
    the set holds.  A caller who is not the administrator changes nothing
    with [/add] or [/del] and gets no reply.  After the administrator adds
    an identifier, that user has access and nobody else's access changes;
    after the administrator deletes one, that user has access only if it is
    the administrator, and nobody else's access changes; and deleting an
    identifier right after adding it to a set that did not hold it gives
    the set back. *)
Theorem user_management
    (ADMIN_ID : Z) (to_int : pystr -> option Z) (caller : Z)
    (arg : pystr) (rest : list pystr) (id : Z) (allowed_users : gset Z) :
  to_int arg = Some id ->
  let added := fst (add_user ADMIN_ID to_int ADMIN_ID (arg :: rest) allowed_users) in
  let deleted := fst (del_user ADMIN_ID to_int ADMIN_ID (arg :: rest) allowed_users) in
  (forall users, check_access ADMIN_ID users ADMIN_ID = true)
  /\ (caller <> ADMIN_ID ->
      add_user ADMIN_ID to_int caller (arg :: rest) allowed_users
      = (allowed_users, [])
      /\ del_user ADMIN_ID to_int caller (arg :: rest) allowed_users
         = (allowed_users, []))
  /\ (forall x, check_access ADMIN_ID added x
                = check_access ADMIN_ID allowed_users x || (x =? id)%Z)
  /\ (forall x, check_access ADMIN_ID deleted x
                = if (x =? id)%Z then (x =? ADMIN_ID)%Z
                  else check_access ADMIN_ID allowed_users x)
  /\ (id ∉ allowed_users ->
      fst (del_user ADMIN_ID to_int ADMIN_ID (arg :: rest) added)
      = allowed_users).
Proof.
  intros Harg. cbv zeta. unfold add_user, del_user, check_access.
  rewrite Z.eqb_refl, Harg. cbn [negb fst orb].
  split; [reflexivity|]. split; [|split; [|split]].
  - intros Hne. apply Z.eqb_neq in Hne. rewrite Hne. auto.
  - intros x. destruct (Z.eqb_spec x ADMIN_ID) as [->|Hx]; [reflexivity|].
    cbn [orb]. destruct (Z.eqb_spec x id) as [->|Hid].
    + rewrite orb_true_r. apply bool_decide_eq_true.
      apply elem_of_union_l, elem_of_singleton. reflexivity.
    + rewrite orb_false_r. apply bool_decide_ext.
      rewrite elem_of_union, elem_of_singleton. tauto.
  - intros x. destruct (bool_decide (id ∈ allowed_users)) eqn:Hin; cbn [fst].
    + destruct (Z.eqb_spec x id) as [->|Hid].
      * rewrite (bool_decide_eq_false_2 (id ∈ allowed_users ∖ {[id]})).
        -- apply orb_false_r.
        -- rewrite elem_of_difference, elem_of_singleton. tauto.
      * f_equal. apply bool_decide_ext.
        rewrite elem_of_difference, elem_of_singleton. tauto.
    + apply bool_decide_eq_false in Hin.
      destruct (Z.eqb_spec x id) as [->|Hid]; [|reflexivity].
      rewrite (bool_decide_eq_false_2 _ Hin). apply orb_false_r.
  - intros Hnot.
    rewrite (bool_decide_eq_true_2 (id ∈ {[id]} ∪ allowed_users))
      by (apply elem_of_union_l, elem_of_singleton; reflexivity).
    cbn [fst]. apply set_eq. intros x.
    rewrite elem_of_difference, elem_of_union, elem_of_singleton.
    split; [tauto|]. intros Hx. split; [tauto|]. intros ->. tauto.
Qed.

Lemma user_management_witness :
  let to_int := fun s : pystr => if str_eqb s (u "42") then Some 42%Z else None in
  let added := fst (add_user 1 to_int 1 [u "42"] ∅) in
  let deleted := fst (del_user 1 to_int 1 [u "42"] ∅) in
  (forall users, check_access 1 users 1 = true)
  /\ (5%Z <> 1%Z ->
      add_user 1 to_int 5 [u "42"] ∅ = (∅, [])
      /\ del_user 1 to_int 5 [u "42"] ∅ = (∅, []))
  /\ (forall x, check_access 1 added x
                = check_access 1 ∅ x || (x =? 42)%Z)
  /\ (forall x, check_access 1 deleted x
                = if (x =? 42)%Z then (x =? 1)%Z else check_access 1 ∅ x)
  /\ (42%Z ∉ (∅ : gset Z) ->
      fst (del_user 1 to_int 1 [u "42"] added) = ∅).
Proof.
  intros to_int.
  apply (user_management 1 to_int 5 (u "42") [] 42 ∅). reflexivity.
Defined.

(** ** Activity log *)

Lemma get_day_start_unfold (now : Q) :
  (get_day_start now
   == inject_Z (Qfloor ((now + 7200) / 86400)) * 86400 - 7200)%Q.
Proof.
  unfold get_day_start, Z.sub.
  rewrite inject_Z_plus, inject_Z_mult. reflexivity.
Qed.

(** X20. [get_day_start] returns the last midnight of the zone two hours
    east of UTC: a time that is a whole number of days after 22:00 UTC of
    the epoch's eve, not after the clock's reading and less than a day
    before it; and it never goes back when the clock goes on. *)
Theorem get_day_start_midnight (now later : Q) :
  (get_day_start now <= now)%Q
  /\ (now < get_day_start now + 86400)%Q
  /\ (exists days : Z,
        (get_day_start now == inject_Z days * 86400 - 7200)%Q)
  /\ ((now <= later)%Q -> (get_day_start now <= get_day_start later)%Q).
Proof.
  pose proof (get_day_start_unfold now) as E.
  set (q := ((now + 7200) / 86400)%Q) in *.
  assert (Hq : (now + 7200 == q * 86400)%Q) by (unfold q; field).
  pose proof (Qfloor_le q) as Hlo. pose proof (Qlt_floor q) as Hhi.
  rewrite inject_Z_plus in Hhi. change (inject_Z 1) with 1%Q in Hhi.
  split; [lra|]. split; [lra|]. split; [now exists (Qfloor q)|].
  intros Hle. rewrite E, (get_day_start_unfold later).
  assert (Hmono : (Qfloor q <= Qfloor ((later + 7200) / 86400))%Z).
  { apply Qfloor_resp_le. unfold q.
    apply Qmult_le_compat_r; [lra|]. vm_compute. discriminate. }
  rewrite Zle_Qle in Hmono. lra.
Qed.

Lemma filter_sublist {A : Type} (f : A -> bool) (l : list A) :
  List.filter f l `sublist_of` l.
Proof.
  induction l as [|x l IH]; cbn [List.filter]; [constructor|].
  destruct (f x); now constructor.
Qed.

Lemma filter_last {A : Type} (f : A -> bool) (l : list A) (x : A) :
  f x = true -> exists l', List.filter f (l ++ [x]) = l' ++ [x].
Proof.
  intros Hx. exists (List.filter f l). rewrite List.filter_app. cbn.
  now rewrite Hx.
Qed.

(** X21. What [log_activity] leaves in the log: at most
    [ACTIVITY_LOG_MAX_ENTRIES] entries, none of them older than the start of
    the current day, all of them entries of the old log or the new entry,
    in their old order; the new entry is the last one unless the day changed
    between the two readings of the clock; and when the old log was all of
    today and below the limit, nothing is dropped. *)
Theorem log_activity_keeps
    (now later : Q) (user_id : Z) (username : option pystr)
    (action details : pystr) (user_activity : list Activity) :
  let log' := fst (log_activity now later user_id username action details
                     user_activity) in
  let entry :=
    {| activity_timestamp := now; activity_user_id := user_id;
       activity_username :=
         match username with
         | Some name => if is_empty name then u "Unknown" else name
         | None => u "Unknown"
         end;
       activity_action := action; activity_details := details |} in
  (length log' <= ACTIVITY_LOG_MAX_ENTRIES)%nat
  /\ Forall (fun a => (get_day_start later <= activity_timestamp a)%Q) log'
  /\ log' `sublist_of` (user_activity ++ [entry])
  /\ ((get_day_start later <= now)%Q -> last log' = Some entry)
  /\ ((get_day_start later <= now)%Q ->
      Forall (fun a => (get_day_start later <= activity_timestamp a)%Q)
             user_activity ->
      (length user_activity < ACTIVITY_LOG_MAX_ENTRIES)%nat ->
      log' = user_activity ++ [entry]).
Proof.
  cbv zeta. unfold log_activity. cbn [fst].
  set (entry := {| activity_timestamp := now |}).
  set (today := List.filter _ (user_activity ++ [entry])).
  assert (Htoday : Forall (fun a => (get_day_start later <= activity_timestamp a)%Q)
                          today).
  { apply List.Forall_forall. intros a Ha. subst today.
    apply List.filter_In in Ha as [_ Ha]. now apply Qle_bool_iff. }
  assert (Hsub : today `sublist_of` (user_activity ++ [entry]))
    by apply filter_sublist.
  split; [|split; [|split; [|split]]].
  - destruct (_ <? _)%nat eqn:E.
    + rewrite length_drop. lia.
    + now apply Nat.ltb_ge in E.
  - destruct (_ <? _)%nat; [|exact Htoday].
    rewrite <- (take_drop (length today - ACTIVITY_LOG_MAX_ENTRIES) today)
      in Htoday.
    now apply Forall_app in Htoday as [_ H].
  - destruct (_ <? _)%nat; [|exact Hsub].
    etransitivity; [apply sublist_drop|exact Hsub].
  - intros Hday.
    destruct (filter_last
                (fun a => Qle_bool (get_day_start later) (activity_timestamp a))
                user_activity entry) as [l' El];
      [now apply Qle_bool_iff|].
    fold today in El. rewrite El.
    destruct (_ <? _)%nat eqn:E; [|apply last_snoc].
    rewrite length_app. cbn [length].
    rewrite drop_app_le by (unfold ACTIVITY_LOG_MAX_ENTRIES; lia).
    apply last_snoc.
  - intros Hday Hold Hsmall.
    assert (Eall : today = user_activity ++ [entry]).
    { subst today entry. rewrite List.filter_app.
      cbn [List.filter activity_timestamp].
      rewrite (proj2 (Qle_bool_iff _ _) Hday). f_equal.
      clear - Hold. induction Hold as [|a l Ha _ IH]; [reflexivity|].
      cbn [List.filter]. rewrite (proj2 (Qle_bool_iff _ _) Ha).
      f_equal. exact IH. }
    rewrite Eall, length_app. cbn [length].
    assert ((ACTIVITY_LOG_MAX_ENTRIES <? length user_activity + 1)%nat = false)
      as -> by (apply Nat.ltb_ge; lia).
    reflexivity.
Qed.

(** ** Error messages *)

Lemma startswith_prefix (s a b : pystr) :
  startswith s (a ++ b) = true -> startswith s a = true.
Proof.
  revert s. induction a as [|x a IH]; intros s; [now destruct s|].
  destruct s as [|c s]; cbn [app startswith]; [discriminate|].
  intros E. apply andb_prop in E as [E1 E2]. rewrite E1. cbn [andb]. auto.
Qed.

Lemma contains_prefix (s a b : pystr) :
  contains s (a ++ b) = true -> contains s a = true.
Proof.
  induction s as [|c s IH]; cbn [contains]; intros E;
    apply orb_prop in E as [E|E];
    try (apply startswith_prefix in E; rewrite E; reflexivity);
    try discriminate E.
  rewrite (IH E). apply orb_true_r.
Qed.

(** X22. The test for [invalid format] in [format_gemini_error] never
    decides anything: a text with [invalid format] in it has [invalid] in
    it, which an earlier test takes.  Such an error is reported as a quota,
    safety or API-key problem, never as an unsupported format. *)
Theorem invalid_format_is_not_format (error_str : pystr) :
  has error_str "invalid format" = true ->
  In (error_class error_str) [QUOTA; SAFETY; AUTH]
  /\ error_class error_str <> FORMAT.
Proof.
  intros Hf.
  assert (Hinv : has error_str "invalid" = true).
  { unfold has in *.
    change (u "invalid format") with (u "invalid" ++ u " format") in Hf.
    now apply contains_prefix in Hf. }
  unfold error_class. rewrite Hinv.
  destruct (_ || _); [cbn; split; [auto|discriminate]|].
  destruct (_ || _); [cbn; split; [auto|discriminate]|].
  rewrite orb_true_r. cbn [orb]. cbn. split; [auto|discriminate].
Qed.

Lemma invalid_format_is_not_format_witness :
  In (error_class (u "invalid format of the image")) [QUOTA; SAFETY; AUTH]
  /\ error_class (u "invalid format of the image") <> FORMAT.
Proof.
  apply (invalid_format_is_not_format (u "invalid format of the image")).
  reflexivity.
Defined.

Lemma format_gemini_error_harmless lower_other (error context_info : list marked) :
  Forall harmless context_info ->
  Forall harmless (format_gemini_error lower_other error context_info).
Proof.
  intros Hctx. unfold format_gemini_error. cbv zeta.
  assert (Hprefix : Forall harmless
            (if negb (is_empty context_info)
             then w "[" ++ context_info ++ w "] " else [])).
  { destruct (negb _); [|constructor]. harmless_parts. exact Hctx. }
  destruct (error_class _); harmless_parts;
    try exact Hprefix;
    try (unfold slice_to; apply Forall_take, escape_html_harmless).
Qed.

Lemma format_gemini_error_map {C1 C2 : Type} `{Char C1} `{Char C2}
    (h : C1 -> C2) lower_other (error context_info : list C1) :
  (forall c, code (h c) = code c) ->
  (forall n, h (lit n) = lit n) ->
  format_gemini_error lower_other (map h error) (map h context_info)
  = map h (format_gemini_error lower_other error context_info).
Proof.
  intros h_code h_lit. unfold format_gemini_error.
  rewrite map_map, (map_ext _ _ h_code), is_empty_map.
  rewrite (escape_html_map h h_code h_lit).
  unfold slice_to. rewrite !List.firstn_map.
  destruct (error_class _), (negb (is_empty context_info));
    rewrite ?map_app, ?(w_map h h_lit); cbn [map]; rewrite ?h_lit;
    reflexivity.
Qed.

(** X23. The message of [format_gemini_error] is safe to send as HTML
    whatever the error text is: computed on the error text marked as input
    (and a context label with no angle bracket of its own), it is the
    message of the plain computation, and every angle bracket in it was
    written by the function itself. *)
Theorem format_gemini_error_escapes
    (lower_other : pystr -> nat -> pystr) (error context_info : pystr) :
  Forall (fun c => is_angle c = false) context_info ->
  map m_code (format_gemini_error lower_other (from_input error)
                (from_input context_info))
  = format_gemini_error lower_other error context_info
  /\ Forall harmless (format_gemini_error lower_other (from_input error)
                        (from_input context_info)).
Proof.
  intros Hctx. split.
  - rewrite <- (format_gemini_error_map m_code lower_other
                  (from_input error) (from_input context_info)
                  m_code_reads m_code_writes).
    unfold from_input. rewrite !map_map. cbn [m_code]. now rewrite !map_id.
  - apply format_gemini_error_harmless. unfold from_input.
    apply Forall_map. eapply Forall_impl; [exact Hctx|].
    intros c Hc Hangle. cbn [m_code] in Hangle. congruence.
Qed.

Lemma format_gemini_error_escapes_witness :
  map m_code (format_gemini_error keep_case (from_input (u "<b>429</b>"))
                (from_input (u "IMAGE_EDIT")))
  = format_gemini_error keep_case (u "<b>429</b>") (u "IMAGE_EDIT")
  /\ Forall harmless (format_gemini_error keep_case
                        (from_input (u "<b>429</b>"))
                        (from_input (u "IMAGE_EDIT"))).
Proof.
  apply (format_gemini_error_escapes keep_case (u "<b>429</b>")
           (u "IMAGE_EDIT")).
  vm_compute. repeat constructor.
Defined.

(** ** YouTube links *)

Lemma matches_seq_inv (s : pystr) a b i caps l caps'' :
  matches s (Seq a b) i caps l caps'' ->
  exists j caps', matches s a i caps j caps' /\ matches s b j caps' l caps''.
Proof. inversion 1; eauto. Qed.

Lemma matches_chr_inv (s : pystr) p i caps j caps' :
  matches s (Chr p) i caps j caps' ->
  j = S i /\ caps' = caps /\ exists c, s !! i = Some c /\ p c = true.
Proof. inversion 1; subst; eauto. Qed.

Lemma matches_group_inv (s : pystr) n a i caps j caps' :
  matches s (Group n a) i caps j caps' ->
  exists caps1, matches s a i caps j caps1 /\ caps' = (n, (i, j)) :: caps1.
Proof. inversion 1; subst; eauto. Qed.

Lemma matches_lit_span (s : pystr) (l : pystr) :
  forall i caps j caps',
    matches s (Lit l) i caps j caps' ->
    j = (i + length l)%nat /\ take (length l) (drop i s) = l.
Proof.
  induction l as [|c l IH]; intros i caps j caps' Hm; cbn [Lit] in Hm.
  - inversion Hm; subst. cbn [length]. split; [lia|reflexivity].
  - apply matches_seq_inv in Hm as (m & caps1 & Hc & Hrest).
    apply matches_chr_inv in Hc as (-> & -> & x & Hx & Hp).
    apply N.eqb_eq in Hp. subst x.
    apply IH in Hrest as [-> Htake]. cbn [length]. split; [lia|].
    rewrite (drop_S s c i Hx). cbn [take]. now rewrite Htake.
Qed.

Lemma matches_video_pattern unicode_word (url prefix : pystr) i j caps :
  matches url (Seq (Lit prefix) (video_id_group unicode_word)) i [] j caps ->
  let start := (i + length prefix)%nat in
  caps = [(1%nat, (start, j))]
  /\ (start < j <= length url)%nat
  /\ take (length prefix) (drop i url) = prefix
  /\ Forall (fun c => is_word unicode_word c || (c =? 45) = true)
            (slice url start j).
Proof.
  intros Hm. cbv zeta.
  apply matches_seq_inv in Hm as (m & caps1 & Hlit & Hgroup).
  pose proof (matches_lit url prefix _ _ _ _ Hlit) as ->.
  apply matches_lit_span in Hlit as [-> Htake].
  apply matches_group_inv in Hgroup as (caps2 & Hplus & ->).
  apply matches_seq_inv in Hplus as (m & caps3 & Hfirst & Hstar).
  apply matches_chr_inv in Hfirst as (-> & -> & x & Hx & Hp).
  apply matches_star_class in Hstar as (-> & Hle & Hall).
  split; [reflexivity|]. split; [|split; [exact Htake|]].
  { split; [lia|].
    destruct (decide (j = S (i + length prefix))) as [->|Hne].
    - apply lookup_lt_Some in Hx. lia.
    - destruct (Hall (j - 1)%nat) as (c & Hc & _); [lia|].
      apply lookup_lt_Some in Hc. lia. }
  apply slice_all. intros k Hk.
  destruct (decide (k = i + length prefix)%nat) as [->|Hne].
  - exists x. split; [exact Hx|exact Hp].
  - apply Hall. lia.
Qed.

Lemma search_sound r (s : pystr) pos i j caps :
  search r s pos = Some (i, j, caps) -> matches s r i [] j caps.
Proof.
  unfold search. destruct (pos <=? length s)%nat; [|discriminate].
  apply search_go_sound.
Qed.

Lemma first_found_video unicode_word (url id : pystr) :
  forall prefixes,
    first_found
      (map (fun prefix => Seq (Lit prefix) (video_id_group unicode_word))
           prefixes) url = Some id ->
    exists prefix i j,
      In prefix prefixes
      /\ (i + length prefix < j <= length url)%nat
      /\ take (length prefix) (drop i url) = prefix
      /\ id = slice url (i + length prefix) j
      /\ Forall (fun c => is_word unicode_word c || (c =? 45) = true) id.
Proof.
  induction prefixes as [|prefix prefixes IH]; cbn [map first_found];
    [discriminate|].
  destruct (search _ url 0) as [[[i j] caps]|] eqn:E.
  - intros [= <-]. apply search_sound, matches_video_pattern in E.
    cbv zeta in E. destruct E as (-> & Hlt & Htake & Hall).
    exists prefix, i, j. cbn [group cap_get Nat.eqb].
    split; [now left|]. split; [exact Hlt|]. split; [exact Htake|].
    split; [reflexivity|exact Hall].
  - intros Hrest. destruct (IH Hrest) as (p & i & j & Hin & H).
    exists p, i, j. split; [now right|exact H].
Qed.

Lemma contains_inside (before p rest : pystr) :
  contains (before ++ p ++ rest) p = true.
Proof.
  induction before as [|c before IH]; cbn [app].
  - assert (Hs : startswith (p ++ rest) p = true).
    { induction p as [|x p IHp]; [now destruct rest|].
      cbn [app startswith code plain_char]. now rewrite N.eqb_refl. }
    destruct (p ++ rest); cbn [contains]; rewrite Hs; reflexivity.
  - cbn [contains]. rewrite IH. apply orb_true_r.
Qed.

Lemma url_around (url prefix : pystr) (i j : nat) :
  (i + length prefix < j <= length url)%nat ->
  take (length prefix) (drop i url) = prefix ->
  slice url (i + length prefix) j <> []
  /\ url = take i url ++ prefix ++ slice url (i + length prefix) j
             ++ drop j url.
Proof.
  intros [Hlt Hj] Htake. split.
  - intros E. apply (f_equal (@length N)) in E. unfold slice in E.
    rewrite length_take, length_drop in E. cbn in E. lia.
  - rewrite <- (take_drop i url) at 1. f_equal.
    rewrite <- (take_drop (length prefix) (drop i url)) at 1.
    rewrite Htake. f_equal. rewrite drop_drop.
    rewrite <- (take_drop (j - (i + length prefix)) (drop (i + length prefix) url))
      at 1.
    unfold slice. f_equal. rewrite drop_drop. f_equal. lia.
Qed.

(** X24. What [extract_video_id] returns is never empty and made of
    letters, digits, underscores and hyphens only, and it stands in the
    text right after one of the four link forms ([youtube.com/watch?v=],
    [youtu.be/], [youtube.com/embed/], [youtube.com/shorts/]). *)
Theorem extract_video_id_sound
    (unicode_word : N -> bool) (url id : pystr) :
  extract_video_id unicode_word url = Some id ->
  id <> []
  /\ Forall (fun c => is_word unicode_word c || (c =? 45) = true) id
  /\ exists before prefix after,
       In prefix VIDEO_PREFIXES /\ url = before ++ prefix ++ id ++ after.
Proof.
  intros Hid.
  destruct (first_found_video unicode_word url id VIDEO_PREFIXES Hid)
    as (prefix & i & j & Hin & Hspan & Htake & -> & Hall).
  destruct (url_around url prefix i j Hspan Htake) as [Hne Hurl].
  split; [exact Hne|]. split; [exact Hall|].
  exists (take i url), prefix, (drop j url). split; [exact Hin|exact Hurl].
Qed.

Lemma extract_video_id_sound_witness :
  u "dQw4w9WgXcQ" <> []
  /\ Forall (fun c => is_word (fun _ => false) c || (c =? 45) = true)
            (u "dQw4w9WgXcQ")
  /\ exists before prefix after,
       In prefix VIDEO_PREFIXES
       /\ u "see https://youtu.be/dQw4w9WgXcQ?t=1"
          = before ++ prefix ++ u "dQw4w9WgXcQ" ++ after.
Proof.
  apply (extract_video_id_sound (fun _ => false)
           (u "see https://youtu.be/dQw4w9WgXcQ?t=1") (u "dQw4w9WgXcQ")).
  vm_compute. reflexivity.
Defined.

(** X25. [summarize_youtube] asks the transcript service only about
    identifiers that are not empty and made of letters, digits, underscores
    and hyphens: two services that agree on those give the same result.
    And a text that holds none of the four link forms is answered with the
    unrecognised-link error, without asking the service or the model. *)
Theorem summarize_youtube_asks
    (unicode_word : N -> bool) (get_transcript get_transcript' : pystr -> Transcript)
    (create_summary create_summary' : pystr -> pystr) (url : pystr) :
  (forall id,
     id <> [] ->
     Forall (fun c => is_word unicode_word c || (c =? 45) = true) id ->
     get_transcript id = get_transcript' id) ->
  summarize_youtube unicode_word get_transcript create_summary url
  = summarize_youtube unicode_word get_transcript' create_summary url
  /\ ((forall prefix, In prefix VIDEO_PREFIXES -> contains url prefix = false) ->
      summarize_youtube unicode_word get_transcript create_summary url
      = SummaryError (u "🔗 Не удалось распознать ссылку YouTube") None
      /\ summarize_youtube unicode_word get_transcript' create_summary' url
         = SummaryError (u "🔗 Не удалось распознать ссылку YouTube") None).
Proof.
  intros Hagree. unfold summarize_youtube.
  destruct (extract_video_id unicode_word url) as [id|] eqn:Hid.
  - destruct (first_found_video unicode_word url id VIDEO_PREFIXES Hid)
      as (prefix & i & j & Hin & Hspan & Htake & -> & Hall).
    destruct (url_around url prefix i j Hspan Htake) as [Hne Hurl].
    rewrite (Hagree _ Hne Hall). split; [reflexivity|].
    intros Hnone. exfalso. specialize (Hnone prefix Hin).
    rewrite Hurl, contains_inside in Hnone. discriminate Hnone.
  - split; [reflexivity|]. intros _. split; reflexivity.
Qed.

Lemma summarize_youtube_asks_witness :
  let service := fun _ : pystr => TranscriptText (u "text") (u "en") in
  let model := fun s : pystr => s in
  summarize_youtube (fun _ => false) service model (u "no link here")
  = summarize_youtube (fun _ => false) service model (u "no link here")
  /\ ((forall prefix, In prefix VIDEO_PREFIXES ->
         contains (u "no link here") prefix = false) ->
      summarize_youtube (fun _ => false) service model (u "no link here")
      = SummaryError (u "🔗 Не удалось распознать ссылку YouTube") None
      /\ summarize_youtube (fun _ => false) service model (u "no link here")
         = SummaryError (u "🔗 Не удалось распознать ссылку YouTube") None).
Proof.
  intros service model.
  apply (summarize_youtube_asks (fun _ => false) service service model model
           (u "no link here")).
  reflexivity.
Defined.

(** ** Photos outside the buffer *)

(** X26. A photo sent in [translate] mode ends the mode whatever happens
    to it: whether the download fails, the translation on the image
    succeeds, or it fails and the text recognition that stands in for it
    answers, times out or fails, the dictionary afterwards is the old one
    without its mode. *)
Theorem photo_ends_translate
    (lower_other : pystr -> nat -> pystr) (env : PhotoEnv) (m : PhotoMessage)
    (d : user_data) :
  photo_access m = true ->
  mode d = Some translate ->
  fst (handle_single_photo lower_other env m d) = set_mode None d.
Proof.
  intros Hacc Hmode. unfold handle_single_photo. rewrite Hacc, Hmode.
  cbn [negb]. destruct (downloaded m); [destruct (edit_ok env)|]; reflexivity.
Qed.

Lemma photo_ends_translate_witness :
  fst (handle_single_photo keep_case
         {| photo_clock := 5; edit_ok := false; ocr := OcrTimesOut |}
         {| photo_access := true; photo_caption := []; downloaded := Some [Byte.x01];
            photo_message_id := 3 |}
         (in_mode translate))
  = set_mode None (in_mode translate).
Proof.
  apply (photo_ends_translate keep_case
           {| photo_clock := 5; edit_ok := false; ocr := OcrTimesOut |}
           {| photo_access := true; photo_caption := [];
              downloaded := Some [Byte.x01]; photo_message_id := 3 |}
           (in_mode translate)); reflexivity.
Defined.

Lemma edit_prompt_mode_after lower_other env m next d :
  mode (data (handle_message lower_other env m next d))
  = Some awaiting_edit_prompt ->
  data (handle_message lower_other env m next d) = d.
Proof.
  apply handle_message_cases; intros Hadm; [reflexivity|].
  apply dispatch_cases.
  - intros Hmode. unfold _process_photo_edit_prompt. rewrite Hmode.
    destruct (photo_task d); [destruct (ai_ok env)|]; cbn; discriminate.
  - intros mo _ _ _. cbn. discriminate.
  - intros Hmode _ H. now apply fast_commands_mode in H.
  - intros Hmode _. unfold _process_reply_to_photo.
    destruct (negb _); reflexivity.
  - intros Hmode H. exfalso. apply Hmode.
    destruct (mode d) as [[]|] eqn:Hmo; try reflexivity; exfalso.
    + unfold _process_translation_mode in H.
      destruct (ai_ok env); cbn in H; congruence.
    + discriminate H.
    + discriminate H.
    + destruct (chat_turn_frame env m next d) as (_ & _ & _ & [E|E]);
        rewrite E in H; congruence.
    + destruct (chat_turn_frame env m next d) as (_ & _ & _ & [E|E]);
        rewrite E in H; congruence.
Qed.

(** X27. An edit that waits for its prompt has its photos, as far as the
    text and photo handlers go: if that holds of the dictionary, it holds
    after [handle_message], after [handle_photo] on a single photo, after an
    album is routed by [process_album_delayed], and after [start] and the
    model switches. *)
Theorem handlers_keep_edit_ready
    (lower_other : pystr -> nat -> pystr) (env : Env) (penv : PhotoEnv)
    (m : Message) (pm : PhotoMessage) (album_data : Album) (access : bool)
    (next : nat) (d : user_data) :
  edit_ready d ->
  edit_ready (data (handle_message lower_other env m next d))
  /\ edit_ready (fst (handle_single_photo lower_other penv pm d))
  /\ edit_ready (fst (route_album lower_other penv album_data d))
  /\ edit_ready (data (start env access next d))
  /\ edit_ready (data (set_pro_model env access next d))
  /\ edit_ready (data (set_flash_model env access next d)).
Proof.
  intros Hd. unfold edit_ready in *.
  split; [|split; [|split; [|split; [|split]]]].
  - intros Hmode.
    pose proof (edit_prompt_mode_after _ _ _ _ _ Hmode) as E.
    rewrite E in Hmode |- *. exact (Hd Hmode).
  - unfold handle_single_photo, store_photos.
    destruct (photo_access pm); cbn [negb]; [|exact Hd].
    destruct (mode d) as [[]|] eqn:Hmo;
      repeat match goal with
             | |- context [match downloaded pm with _ => _ end] =>
                 destruct (downloaded pm)
             | |- context [if ?b then _ else _] => destruct b
             end;
      cbn; try discriminate; try (intros _; discriminate);
      try (rewrite Hmo; discriminate); try exact Hd;
      try (intros H; apply Hd; congruence).
  - unfold route_album, store_photos.
    destruct (mode d) as [[]|] eqn:Hmo;
      repeat match goal with
             | |- context [if ?b then _ else _] => destruct b
             end;
      cbn; try discriminate; try (intros _; discriminate);
      try (rewrite Hmo; discriminate); try exact Hd;
      try (intros H; apply Hd; congruence).
  - unfold start. rewrite reset_session_fields.
    destruct access; cbn; [discriminate|exact Hd].
  - unfold set_pro_model. rewrite reset_session_fields.
    destruct access; cbn; [discriminate|exact Hd].
  - unfold set_flash_model. rewrite reset_session_fields.
    destruct access; cbn; [discriminate|exact Hd].
Qed.

Lemma handlers_keep_edit_ready_witness :
  edit_ready (data (handle_message keep_case (env_at 1 false)
                      (private_text (u "make it blue")) 0 awaiting_prompt)).
Proof.
  apply (handlers_keep_edit_ready keep_case (env_at 1 false)
           {| photo_clock := 5; edit_ok := false; ocr := OcrTimesOut |}
           (private_text (u "make it blue"))
           {| photo_access := true; photo_caption := [];
              downloaded := None; photo_message_id := 3 |}
           {| album_photos := []; album_caption := []; album_user_id := 1;
              album_chat_id := 1; album_message_id := 1;
              album_timestamp := 0 |}
           true 0 awaiting_prompt).
  unfold edit_ready. cbn. discriminate.
Defined.

(** ** Editing a photo, from the command or the button to the prompt *)

Lemma edit_token_lower lower_other :
  lower lower_other (strip (u "р")) = u "р".
Proof. reflexivity. Qed.

Lemma fast_commands_edit_token env next d :
  _process_fast_commands env (strip (u "р")) (u "р") next d
  = {| handled := true; data := set_mode (Some awaiting_edit_photo) d;
       chats := next; sent := [ReplyAskEditPhoto] |}.
Proof.
  unfold _process_fast_commands. eval_closed_tests. reflexivity.
Qed.

Lemma edit_token_sets_mode lower_other env next d :
  mode d <> Some awaiting_edit_prompt ->
  handle_message lower_other env (private_text (u "р")) next d
  = {| handled := true; data := set_mode (Some awaiting_edit_photo) d;
       chats := next; sent := [ReplyAskEditPhoto] |}.
Proof.
  intros Hmode.
  rewrite handle_message_admitted by reflexivity.
  unfold dispatch. rewrite edit_prompt_skipped by exact Hmode.
  cbn [handled data chats text private_text].
  rewrite edit_token_lower.
  unfold _process_exit_commands. eval_closed_tests.
  cbn [negb handled data chats].
  rewrite fast_commands_edit_token. reflexivity.
Qed.

Lemma prompt_edits_stored lower_other env m next d task :
  admitted env m = true ->
  mode d = Some awaiting_edit_prompt ->
  photo_task d = Some task ->
  handle_message lower_other env m next d
  = {| handled := true;
       data := if ai_ok env then set_photo_task None (set_mode None d)
               else set_mode None d;
       chats := next;
       sent := [EditImage (photos task) (text m) (image_key d) (ai_ok env)] |}.
Proof.
  intros Hadm Hmode Htask.
  rewrite (handle_message_admitted _ _ _ _ _ Hadm).
  unfold dispatch, _process_photo_edit_prompt. rewrite Hmode, Htask.
  destruct (ai_ok env); reflexivity.
Qed.

(** X28. The edit command, then the photos, then the prompt.  After the
    bare token [р] (sent while no edit waits for its prompt), a single photo
    or an album is stored whatever its caption says, and the next admitted
    text, whatever it is, is the instruction of one edit on exactly those
    photos, with the image model the dictionary had at the start. *)
Theorem edit_command_round_trip
    (lower_other : pystr -> nat -> pystr) (env1 env3 : Env) (penv : PhotoEnv)
    (next : nat) (d : user_data) (pm : PhotoMessage) (img : image)
    (album_data : Album) (m : Message) :
  mode d <> Some awaiting_edit_prompt ->
  photo_access pm = true ->
  downloaded pm = Some img ->
  admitted env3 m = true ->
  let d1 := data (handle_message lower_other env1 (private_text (u "р")) next d) in
  let single := fst (handle_single_photo lower_other penv pm d1) in
  let album := fst (route_album lower_other penv album_data d1) in
  sent (handle_message lower_other env3 m next single)
  = [EditImage [img] (text m) (image_key d) (ai_ok env3)]
  /\ sent (handle_message lower_other env3 m next album)
     = [EditImage (album_photos album_data) (text m) (image_key d) (ai_ok env3)]
  /\ mode (data (handle_message lower_other env3 m next single)) = None
  /\ mode (data (handle_message lower_other env3 m next album)) = None.
Proof.
  intros Hmode Hacc Hdown Hadm. cbv zeta.
  rewrite (edit_token_sets_mode _ _ _ _ Hmode). cbn [data].
  set (d1 := set_mode (Some awaiting_edit_photo) d).
  assert (E1 : fst (handle_single_photo lower_other penv pm d1)
               = set_mode (Some awaiting_edit_prompt)
                   (store_photos penv [img] (photo_message_id pm) d1)).
  { unfold handle_single_photo. rewrite Hacc, Hdown. reflexivity. }
  assert (E2 : fst (route_album lower_other penv album_data d1)
               = set_mode (Some awaiting_edit_prompt)
                   (store_photos penv (album_photos album_data)
                      (album_message_id album_data) d1))
    by reflexivity.
  rewrite E1, E2.
  rewrite (prompt_edits_stored lower_other env3 m next
             (set_mode (Some awaiting_edit_prompt)
                (store_photos penv [img] (photo_message_id pm) d1))
             {| photos := [img]; message_id := photo_message_id pm;
                timestamp := photo_clock penv |} Hadm eq_refl eq_refl).
  rewrite (prompt_edits_stored lower_other env3 m next
             (set_mode (Some awaiting_edit_prompt)
                (store_photos penv (album_photos album_data)
                   (album_message_id album_data) d1))
             {| photos := album_photos album_data;
                message_id := album_message_id album_data;
                timestamp := photo_clock penv |} Hadm eq_refl eq_refl).
  cbn [sent data photos]. repeat split; destruct (ai_ok env3); reflexivity.
Qed.

Lemma edit_command_round_trip_witness :
  let pm := {| photo_access := true; photo_caption := u "ignored";
               downloaded := Some [Byte.x01]; photo_message_id := 3 |} in
  let penv := {| photo_clock := 5; edit_ok := true; ocr := OcrTimesOut |} in
  let a := {| album_photos := [[Byte.x02]; [Byte.x03]]; album_caption := [];
              album_user_id := 1; album_chat_id := 1; album_message_id := 4;
              album_timestamp := 2 |} in
  let m := private_text (u "make it blue") in
  let d1 := data (handle_message keep_case (env_at 1 true)
                    (private_text (u "р")) 0 empty_user_data) in
  let single := fst (handle_single_photo keep_case penv pm d1) in
  let album := fst (route_album keep_case penv a d1) in
  sent (handle_message keep_case (env_at 9 true) m 0 single)
  = [EditImage [[Byte.x01]] (text m) (image_key empty_user_data) true]
  /\ sent (handle_message keep_case (env_at 9 true) m 0 album)
     = [EditImage (album_photos a) (text m) (image_key empty_user_data) true]
  /\ mode (data (handle_message keep_case (env_at 9 true) m 0 single)) = None
  /\ mode (data (handle_message keep_case (env_at 9 true) m 0 album)) = None.
Proof.
  intros pm penv a m.
  apply (edit_command_round_trip keep_case (env_at 1 true) (env_at 9 true)
           penv 0 empty_user_data pm [Byte.x01] a m);
    try reflexivity. discriminate.
Defined.

(** X29. The edit button.  A single photo whose caption is no edit
    command, sent outside the [translate] and [awaiting_edit_photo] modes,
    is stored; pressing the edit button within [PHOTO_BUTTON_TIMEOUT]
    seconds makes the next admitted text the instruction of one edit on
    that photo.  Pressing the button later than that removes the photo and
    asks nothing of the model. *)
Theorem edit_button_round_trip
    (lower_other : pystr -> nat -> pystr) (env2 env3 : Env) (penv : PhotoEnv)
    (next : nat) (d : user_data) (pm : PhotoMessage) (img : image)
    (m : Message) :
  mode d <> Some translate ->
  mode d <> Some awaiting_edit_photo ->
  mode d <> Some awaiting_edit_prompt ->
  photo_access pm = true ->
  downloaded pm = Some img ->
  is_edit_short (lower lower_other (strip (photo_caption pm)))
  || is_edit_long (lower lower_other (strip (photo_caption pm))) = false ->
  admitted env3 m = true ->
  let d1 := fst (handle_single_photo lower_other penv pm d) in
  let pressed := button_callback env2 true photo_edit next d1 in
  ((clock env2 - photo_clock penv <= PHOTO_BUTTON_TIMEOUT)%Q ->
   sent (handle_message lower_other env3 m next (data pressed))
   = [EditImage [img] (text m) (image_key d) (ai_ok env3)])
  /\ ((PHOTO_BUTTON_TIMEOUT < clock env2 - photo_clock penv)%Q ->
      sent pressed = [ReplyButtonExpired]
      /\ photo_task (data pressed) = None
      /\ mode (data pressed) = mode d).
Proof.
  intros Hm1 Hm2 Hm3 Hacc Hdown Hcap Hadm. cbv zeta.
  assert (E1 : fst (handle_single_photo lower_other penv pm d)
               = store_photos penv [img] (photo_message_id pm) d).
  { unfold handle_single_photo. rewrite Hacc, Hdown, Hcap. cbn [negb].
    destruct (mode d) as [[]|]; try reflexivity; congruence. }
  rewrite E1. unfold button_callback, store_photos.
  cbn [negb photo_task set_photo_task timestamp photos]. split.
  - intros Hfresh. rewrite (Qgtb_false _ _ Hfresh). cbn [data].
    rewrite (prompt_edits_stored lower_other env3 m next
               (set_mode (Some awaiting_edit_prompt)
                  (set_photo_task
                     (Some {| photos := [img];
                              message_id := photo_message_id pm;
                              timestamp := photo_clock penv |}) d))
               {| photos := [img]; message_id := photo_message_id pm;
                  timestamp := photo_clock penv |} Hadm eq_refl eq_refl).
    reflexivity.
  - intros Hlate. rewrite (Qgtb_true _ _ Hlate). cbn. auto.
Qed.

Lemma edit_button_round_trip_witness :
  let pm := {| photo_access := true; photo_caption := u "a cat";
               downloaded := Some [Byte.x01]; photo_message_id := 3 |} in
  let penv := {| photo_clock := 5; edit_ok := true; ocr := OcrTimesOut |} in
  let m := private_text (u "make it blue") in
  let d1 := fst (handle_single_photo keep_case penv pm empty_user_data) in
  let pressed := button_callback (env_at 7 true) true photo_edit 0 d1 in
  ((clock (env_at 7 true) - photo_clock penv <= PHOTO_BUTTON_TIMEOUT)%Q ->
   sent (handle_message keep_case (env_at 9 true) m 0 (data pressed))
   = [EditImage [[Byte.x01]] (text m) (image_key empty_user_data) true])
  /\ ((PHOTO_BUTTON_TIMEOUT < clock (env_at 7 true) - photo_clock penv)%Q ->
      sent pressed = [ReplyButtonExpired]
      /\ photo_task (data pressed) = None
      /\ mode (data pressed) = mode empty_user_data).
Proof.
  intros pm penv m.
  apply (edit_button_round_trip keep_case (env_at 7 true) (env_at 9 true)
           penv 0 empty_user_data pm [Byte.x01] m);
    try reflexivity; discriminate.
Defined.

(** X30. The buttons can leave an edit without its photos.  With a stored
    photo, pressing the edit button and then, still within the timeout, the
    analyse button (the analysis succeeding) leaves the mode
    [awaiting_edit_prompt] standing while the photos are gone; so does
    pressing either button after the timeout while an edit waits.  The next
    admitted text is then answered with the data-lost reply and ends the
    mode: it neither edits nor reaches the conversation. *)
Theorem buttons_strand_edit
    (lower_other : pystr -> nat -> pystr) (env1 env2 env3 : Env)
    (next : nat) (d : user_data) (task : PhotoTask) (b : Button)
    (m : Message) :
  photo_task d = Some task ->
  photos task <> [] ->
  (clock env1 - timestamp task <= PHOTO_BUTTON_TIMEOUT)%Q ->
  ai_ok env2 = true ->
  admitted env3 m = true ->
  let edit := data (button_callback env1 true photo_edit next d) in
  let stranded :=
    if Qgtb (clock env2 - timestamp task) PHOTO_BUTTON_TIMEOUT
    then data (button_callback env2 true b next edit)
    else data (button_callback env2 true photo_analyze next edit) in
  mode stranded = Some awaiting_edit_prompt
  /\ photo_task stranded = None
  /\ ~ edit_ready stranded
  /\ sent (handle_message lower_other env3 m next stranded) = [ReplyDataLost]
  /\ mode (data (handle_message lower_other env3 m next stranded)) = None.
Proof.
  intros Htask Hphotos Hfresh Hok Hadm. cbv zeta.
  unfold button_callback. cbn [negb]. rewrite Htask.
  rewrite (Qgtb_false _ _ Hfresh). cbn [data photo_task set_mode].
  rewrite Htask.
  assert (Hlost : forall d',
             mode d' = Some awaiting_edit_prompt -> photo_task d' = None ->
             mode d' = Some awaiting_edit_prompt
             /\ photo_task d' = None
             /\ ~ edit_ready d'
             /\ sent (handle_message lower_other env3 m next d') = [ReplyDataLost]
             /\ mode (data (handle_message lower_other env3 m next d')) = None).
  { intros d' Hmo Hno. split; [exact Hmo|]. split; [exact Hno|].
    split; [intros Hr; now apply (Hr Hmo)|].
    rewrite (handle_message_admitted _ _ _ _ _ Hadm).
    unfold dispatch, _process_photo_edit_prompt. rewrite Hmo, Hno.
    cbn. auto. }
  destruct (Qgtb (clock env2 - timestamp task) PHOTO_BUTTON_TIMEOUT).
  - apply Hlost; reflexivity.
  - rewrite Hok. destruct (photos task) as [|first rest]; [now destruct Hphotos|].
    apply Hlost; reflexivity.
Qed.

Lemma buttons_strand_edit_witness :
  let d := set_photo_task (Some sample_task) empty_user_data in
  let edit := data (button_callback (env_at 1 true) true photo_edit 0 d) in
  let stranded :=
    if Qgtb (clock (env_at 2 true) - timestamp sample_task) PHOTO_BUTTON_TIMEOUT
    then data (button_callback (env_at 2 true) true photo_edit 0 edit)
    else data (button_callback (env_at 2 true) true photo_analyze 0 edit) in
  mode stranded = Some awaiting_edit_prompt
  /\ photo_task stranded = None
  /\ ~ edit_ready stranded
  /\ sent (handle_message keep_case (env_at 3 true)
             (private_text (u "what is it?")) 0 stranded) = [ReplyDataLost]
  /\ mode (data (handle_message keep_case (env_at 3 true)
                   (private_text (u "what is it?")) 0 stranded)) = None.
Proof.
  intros d.
  apply (buttons_strand_edit keep_case (env_at 1 true) (env_at 2 true)
           (env_at 3 true) 0 d sample_task photo_edit
           (private_text (u "what is it?")));
    try reflexivity; discriminate.
Defined.
